(** * The docs table converter and key normalizer of a3s, in Rocq

    A shallow embedding of [apps/docs/scripts/convert-tables.py] and
    [apps/docs/scripts/fix-keys.py], with the properties their
    specification states about them.

    Text is modelled as Python has it: a [str] is a sequence of Unicode code
    points.  Reading and writing a file is "read whole text, write whole
    text": a function that rewrites a file returns [Some new_text] when it
    writes and [None] when it leaves the file alone. *)

From Stdlib Require Import String Ascii.
From Stdlib Require Import List Bool Arith NArith Lia Sorted.
Import ListNotations.

(** ** Python strings *)

Abbreviation char := N (only parsing).
Abbreviation str := (list N) (only parsing).

(** An ASCII literal as a [str]. *)
Definition lit (s : string) : str := map N_of_ascii (list_ascii_of_string s).
Arguments lit s%_string.

Definition TAB : char := 9%N.
Definition LF : char := 10%N.
Definition CR : char := 13%N.
Definition SPACE : char := 32%N.
Definition DQUOTE : char := 34%N.
Definition DOLLAR : char := 36%N.
Definition DASH : char := 45%N.
Definition COLON : char := 58%N.
Definition LT : char := 60%N.
Definition GT : char := 62%N.
Definition BACKSLASH : char := 92%N.
Definition BACKTICK : char := 96%N.
Definition LBRACE : char := 123%N.
Definition BAR : char := 124%N.
Definition MIDDLE_DOT : char := 183%N.   (* U+00B7 *)
Definition EM_DASH : char := 8212%N.     (* U+2014 *)

Definition in_chars (cs : list char) (c : char) : bool := existsb (N.eqb c) cs.

(** [str.isspace] on one code point (also what [\s] matches in [re]). *)
Definition isspace (c : char) : bool :=
  ((9 <=? c) && (c <=? 13) || (28 <=? c) && (c <=? 32)
   || (8192 <=? c) && (c <=? 8202)
   || in_chars [133; 160; 5760; 8232; 8233; 8239; 8287; 12288] c)%N.

(** The line boundaries of [str.splitlines]. *)
Definition is_linebreak (c : char) : bool :=
  ((10 <=? c) && (c <=? 13) || (28 <=? c) && (c <=? 30)
   || in_chars [133; 8232; 8233] c)%N.

(** [str.lower] on the ASCII range.  Code points outside ASCII are left as
    they are.  Python lowers only two of them to text with an ASCII letter,
    U+0130 (to "i" and a combining dot) and U+212A (to "k"), and neither can
    complete one of the classifier's keywords, so the classifier's answers
    are those of the full table. *)
Definition lower_char (c : char) : char :=
  if ((65 <=? c) && (c <=? 90))%N then (c + 32)%N else c.
Definition lower (s : str) : str := map lower_char s.

Fixpoint str_eqb (a b : str) : bool :=
  match a, b with
  | [], [] => true
  | x :: a', y :: b' => N.eqb x y && str_eqb a' b'
  | _, _ => false
  end.

Definition is_empty (s : str) : bool :=
  match s with [] => true | _ => false end.

(** [s.startswith(pre)] *)
Fixpoint startswith (s pre : str) {struct pre} : bool :=
  match pre, s with
  | [], _ => true
  | p :: pre', c :: s' => N.eqb c p && startswith s' pre'
  | _ :: _, [] => false
  end.

(** [sub in s] *)
Fixpoint contains (sub s : str) : bool :=
  startswith s sub || match s with [] => false | _ :: s' => contains sub s' end.

Fixpoint lstrip_by (p : char -> bool) (s : str) : str :=
  match s with
  | [] => []
  | c :: s' => if p c then lstrip_by p s' else s
  end.

Fixpoint rstrip_by (p : char -> bool) (s : str) : str :=
  match s with
  | [] => []
  | c :: s' =>
      match rstrip_by p s' with
      | [] => if p c then [] else [c]
      | r => c :: r
      end
  end.

Definition strip_by (p : char -> bool) (s : str) : str :=
  lstrip_by p (rstrip_by p s).

(** [s.strip()], [s.strip(chars)] and [s.rstrip(chars)] *)
Definition strip (s : str) : str := strip_by isspace s.
Definition strip_chars (cs : str) (s : str) : str := strip_by (in_chars cs) s.
Definition rstrip_chars (cs : str) (s : str) : str := rstrip_by (in_chars cs) s.

(** [s.replace(old, new)] for a non-empty [old], as at every call site:
    occurrences are replaced from the left and do not overlap; [skip] counts
    the characters of an occurrence still to be passed over. *)
Fixpoint replace_from (old new : str) (skip : nat) (s : str) : str :=
  match s with
  | [] => []
  | c :: s' =>
      match skip with
      | S k => replace_from old new k s'
      | O => if startswith s old
             then new ++ replace_from old new (length old - 1) s'
             else c :: replace_from old new 0 s'
      end
  end.
Definition replace (old new s : str) : str := replace_from old new 0 s.

(** [s.split(sep)] for a one-character separator. *)
Fixpoint split (sep : char) (s : str) : list str :=
  match s with
  | [] => [[]]
  | c :: s' =>
      if N.eqb c sep then [] :: split sep s'
      else match split sep s' with
           | cell :: cells => (c :: cell) :: cells
           | [] => [[c]]
           end
  end.

(** [sep.join(parts)] *)
Fixpoint join (sep : str) (parts : list str) : str :=
  match parts with
  | [] => []
  | [p] => p
  | p :: rest => p ++ sep ++ join sep rest
  end.

(** [s.splitlines(keepends=True)]: a line ends after a line boundary, with
    "\r\n" taken as one boundary; a last line without boundary is kept. *)
Fixpoint splitlines (s : str) : list str :=
  match s with
  | [] => []
  | c :: s' =>
      if N.eqb c CR then
        match s' with
        | c' :: s'' =>
            if N.eqb c' LF then [c; c'] :: splitlines s''
            else [c] :: splitlines s'
        | [] => [[c]]
        end
      else if is_linebreak c then [c] :: splitlines s'
      else match splitlines s' with
           | l :: ls => (c :: l) :: ls
           | [] => [[c]]
           end
  end.

(** ** Regular expressions of the scripts *)

(** The lazy group [(.*?)] followed by the literal [close]: the shortest
    newline-free [inner] with [s = inner ++ close ++ rest]. *)
Fixpoint lazy_until (close : str) (inner : str) (s : str) : option (str * str) :=
  if startswith s close then Some (inner, skipn (length close) s)
  else match s with
       | [] => None
       | c :: s' => if N.eqb c LF then None else lazy_until close (inner ++ [c]) s'
       end.

(** A match of [d(.+?)d] at the start of [s]: the group and what follows. *)
Definition match_pair (d : str) (s : str) : option (str * str) :=
  if startswith s d then
    match skipn (length d) s with
    | [] => None
    | c :: t => if N.eqb c LF then None else lazy_until d [c] t
    end
  else None.

(** [re.sub(d(.+?)d, r"\1", s)]: matches are taken from the left; after a
    match the scan goes on behind it. *)
Fixpoint re_sub_pair_fuel (fuel : nat) (d : str) (s : str) : str :=
  match fuel with
  | O => s
  | S fuel' =>
      match s with
      | [] => []
      | c :: s' =>
          match match_pair d s with
          | Some (inner, rest) => inner ++ re_sub_pair_fuel fuel' d rest
          | None => c :: re_sub_pair_fuel fuel' d s'
          end
      end
  end.
Definition re_sub_pair (d : str) (s : str) : str :=
  re_sub_pair_fuel (length s) d s.

(** [re.match(r"^\|[-| :]+\|?\s*$", line)]: after the leading bar the class
    [[-| :]+] takes its longest run (giving characters back cannot help: what
    is left must be matched by [\s*$]); the optional bar is in the class. *)
Definition sep_class (c : char) : bool := in_chars [DASH; BAR; SPACE; COLON] c.
Definition is_separator (line : str) : bool :=
  match line with
  | c :: ((c1 :: _) as rest) =>
      N.eqb c BAR && sep_class c1 && forallb isspace (lstrip_by sep_class rest)
  | _ => false
  end.

(** ** convert-tables.py *)

Definition IMPORT_LINE : str :=
  lit "import { TypeTable } from 'fumadocs-ui/components/type-table';" ++ [LF].

Definition split_row (line : str) : list str :=
  map strip (split BAR (strip_chars [BAR] (strip line))).

(** [parse_table]: [None] when the block is not a table. *)
Definition parse_table (lines : list str) : option (list str * list (list str)) :=
  if length lines <? 3 then None
  else if negb (is_separator (nth 1 lines [])) then None
  else
    let headers := split_row (nth 0 lines []) in
    let rows :=
      map split_row
          (filter (fun l => startswith (strip l) [BAR]) (skipn 2 lines)) in
    Some (headers, rows).

Definition BOLD : str := lit "**".

Definition to_jsx_key (s : str) : str :=
  let s := strip s in
  let s := re_sub_pair BOLD s in
  let s := re_sub_pair [BACKTICK] s in
  let s := replace [DQUOTE] [BACKSLASH; DQUOTE] s in
  [DQUOTE] ++ s ++ [DQUOTE].

Definition to_jsx_string (s : str) : str :=
  let s := strip s in
  let s := re_sub_pair BOLD s in
  if contains [BACKTICK] s || contains [LT] s || contains [GT] s
     || contains [LBRACE] s
  then
    let s_escaped :=
      replace [DOLLAR] [BACKSLASH; DOLLAR]
        (replace [BACKTICK] [BACKSLASH; BACKTICK]
           (replace [BACKSLASH] [BACKSLASH; BACKSLASH] s)) in
    [LBRACE; BACKTICK] ++ s_escaped ++ lit "`}"
  else
    let s_escaped := replace [DQUOTE] (lit "&quot;") s in
    [DQUOTE] ++ s_escaped ++ [DQUOTE].

(** The dict [headers_to_mapping] returns: its integer keys with their field
    names (a value may be [None]), and its ["merge"] key when present. *)
Record mapping := Mapping {
  by_col : list (nat * option str);
  merge : option (list nat)
}.

Definition fields (kvs : list (nat * str)) : mapping :=
  Mapping (map (fun kv => (fst kv, Some (snd kv))) kvs) None.
Definition merged (cols : list nat) : mapping := Mapping [] (Some cols).

Definition TYPE : str := lit "type".
Definition DESCRIPTION : str := lit "description".
Definition DEFAULT : str := lit "default".

(** [any(x in h for x in words)] *)
Definition any_in (words : list str) (h : str) : bool :=
  existsb (fun x => contains x h) words.

Definition TYPE_LIKE : list str :=
  [lit "method"; lit "binding"; lit "protocol"; lit "format"; lit "strategy";
   lit "returns"].

(** [list(range(1, n))] *)
Definition range1 (n : nat) : list nat := seq 1 (n - 1).

Definition headers_to_mapping (headers : list str) : mapping :=
  let h := map (fun col => strip (lower col)) headers in
  let n := length h in
  if n =? 2 then fields [(1, DESCRIPTION)]
  else if n =? 3 then
    let h1 := nth 1 h [] in
    let h2 := nth 2 h [] in
    if any_in [TYPE] h1 then fields [(1, TYPE); (2, DESCRIPTION)]
    else if any_in [DEFAULT] h2 then fields [(1, DESCRIPTION); (2, DEFAULT)]
    else if any_in TYPE_LIKE h1 then fields [(1, TYPE); (2, DESCRIPTION)]
    else merged (range1 n)
  else if n =? 4 then
    let h1 := nth 1 h [] in
    let h3 := nth 3 h [] in
    if any_in [TYPE] h1 && any_in [DEFAULT] h3
    then fields [(1, TYPE); (2, DESCRIPTION); (3, DEFAULT)]
    else if any_in [DEFAULT] h3
    then fields [(1, DESCRIPTION); (2, TYPE); (3, DEFAULT)]
    else if any_in [TYPE] h1
    then fields [(1, TYPE); (2, DESCRIPTION); (3, DEFAULT)]
    else merged (range1 n)
  else merged (range1 n).

(** [val and val not in (em dash, dash)] *)
Definition shown (val : str) : bool :=
  negb (is_empty val) && negb (str_eqb val [EM_DASH] || str_eqb val [DASH]).

(** [sorted(mapping.items())]: insertion by ascending column index. *)
Fixpoint insert_by_key (kv : nat * option str) (l : list (nat * option str)) :=
  match l with
  | [] => [kv]
  | kv' :: l' =>
      if fst kv <=? fst kv' then kv :: l else kv' :: insert_by_key kv l'
  end.
Definition sorted_items (l : list (nat * option str)) :=
  fold_right insert_by_key [] l.

Definition INDENT6 : str := lit "      ".

Definition is_nil {A : Type} (l : list A) : bool :=
  match l with [] => true | _ => false end.

(** The [parts] of the merge branch, in the order of the merge list. *)
Definition merge_parts (row : list str) (headers : option (list str))
    (cols : list nat) : list str :=
  flat_map
    (fun col_idx =>
       if col_idx <? length row then
         let val := strip (nth col_idx row []) in
         if shown val then
           match headers with
           | Some hs =>
               if negb (is_nil hs) && (col_idx <? length hs)
               then [strip (nth col_idx hs []) ++ lit ": " ++ val]
               else [val]
           | None => [val]
           end
         else []
       else [])
    cols.

(** The [props] of the field branch, by ascending column index. *)
Definition field_props (row : list str) (items : list (nat * option str))
    : list str :=
  flat_map
    (fun kv =>
       match snd kv with
       | None => []
       | Some field_name =>
           let col_idx := fst kv in
           if length row <=? col_idx then []
           else
             let val := strip (nth col_idx row []) in
             if negb (shown val) then []
             else [INDENT6 ++ field_name ++ lit ": " ++ to_jsx_string val
                   ++ lit ","]
       end)
    (sorted_items items).

Definition row_props (row : list str) (m : mapping)
    (headers : option (list str)) : list str :=
  match merge m with
  | Some cols =>
      match merge_parts row headers cols with
      | [] => []
      | parts =>
          [INDENT6 ++ lit "description: "
           ++ to_jsx_string (join [SPACE; MIDDLE_DOT; SPACE] parts) ++ lit ","]
      end
  | None => field_props row (by_col m)
  end.

Definition row_to_type_node (key : str) (row : list str) (m : mapping)
    (headers : option (list str)) : str :=
  let props := row_props row m headers in
  let key_str := to_jsx_key key in
  match props with
  | [] => lit "    " ++ key_str ++ lit ": {}," ++ [LF]
  | _ => lit "    " ++ key_str ++ lit ": {" ++ [LF] ++ join [LF] props
         ++ [LF] ++ lit "    }," ++ [LF]
  end.

(** The [entries] of [table_to_type_table]: a row that is empty or has an
    empty first cell is passed over. *)
Definition table_entries (headers : list str) (rows : list (list str))
    : list str :=
  let m := headers_to_mapping headers in
  flat_map
    (fun row =>
       match row with
       | [] => []
       | cell0 :: _ =>
           if is_empty cell0 then []
           else [row_to_type_node (strip cell0) row m (Some headers)]
       end)
    rows.

Definition table_to_type_table (headers : list str) (rows : list (list str))
    : str :=
  lit "<TypeTable" ++ [LF] ++ lit "  type={" ++ [LF]
  ++ concat (table_entries headers rows) ++ lit "  }" ++ [LF] ++ lit "/>".

(** [find_table_blocks]: [i] is the loop index.  The inner loop runs over the
    lines from [i] on; every turn of the outer loop moves [i] forward, so
    [length lines] turns are enough. *)
Fixpoint run_end (rest : list str) (i : nat) : nat :=
  match rest with
  | l :: rest' => if startswith l [BAR] then run_end rest' (S i) else i
  | [] => i
  end.

Fixpoint find_blocks_from (fuel : nat) (lines : list str) (i : nat)
    : list (nat * nat) :=
  match fuel with
  | O => []
  | S fuel' =>
      match nth_error lines i with
      | None => []
      | Some line =>
          if startswith line [BAR] then
            let start := i in
            let i := run_end (skipn i lines) i in
            (start, i) :: find_blocks_from fuel' lines i
          else find_blocks_from fuel' lines (S i)
      end
  end.

Definition find_table_blocks (lines : list str) : list (nat * nat) :=
  find_blocks_from (length lines) lines 0.

(** [lines[start:end]] and [lines[start:end] = new] *)
Definition slice (lines : list str) (start stop : nat) : list str :=
  firstn (stop - start) (skipn start lines).
Definition slice_assign (lines : list str) (start stop : nat) (new : list str)
    : list str :=
  firstn start lines ++ new ++ skipn (Nat.max start stop) lines.

Definition rstrip_nl (l : str) : str := rstrip_chars [LF] l.

(** What one block becomes: [None] when it is left as it is. *)
Definition convert_block (table_lines : list str) : option str :=
  match parse_table table_lines with
  | None => None
  | Some (headers, rows) =>
      match rows with
      | [] => None
      | _ => Some (table_to_type_table headers rows ++ [LF])
      end
  end.

(** One turn of the loop over the blocks; the state is [lines] and
    [modified]. *)
Definition block_step (st : list str * bool) (b : nat * nat)
    : list str * bool :=
  let (lines, modified) := st in
  let (start, stop) := b in
  match convert_block (map rstrip_nl (slice lines start stop)) with
  | None => st
  | Some jsx => (slice_assign lines start stop [jsx], true)
  end.

Definition replace_blocks (lines : list str) (blocks : list (nat * nat))
    : list str * bool :=
  fold_left block_step (rev blocks) (lines, false).

(** The first insertion loop: after the first line that is an import of
    fumadocs. *)
Definition is_fumadocs_import (line : str) : bool :=
  startswith (strip line) (lit "import ") && contains (lit "fumadocs") line.

Fixpoint after_fumadocs (inserted : bool) (lines : list str)
    : list str * bool :=
  match lines with
  | [] => ([], inserted)
  | line :: rest =>
      if negb inserted && is_fumadocs_import line then
        let (new_lines, ins) := after_fumadocs true rest in
        (line :: IMPORT_LINE :: new_lines, ins)
      else
        let (new_lines, ins) := after_fumadocs inserted rest in
        (line :: new_lines, ins)
  end.

(** The second insertion loop: after the second line that is ["---"]. *)
Definition is_fence (line : str) : bool := str_eqb (strip line) (lit "---").

Fixpoint after_frontmatter (in_frontmatter fm_closed : bool)
    (lines : list str) : list str :=
  match lines with
  | [] => []
  | line :: rest =>
      if is_fence line && negb in_frontmatter then
        line :: after_frontmatter true fm_closed rest
      else if is_fence line && in_frontmatter && negb fm_closed then
        line :: [LF] :: IMPORT_LINE :: after_frontmatter in_frontmatter true rest
      else line :: after_frontmatter in_frontmatter fm_closed rest
  end.

Definition add_import (lines : list str) : list str :=
  let (new_lines, inserted) := after_fumadocs false lines in
  if inserted then new_lines else after_frontmatter false false new_lines.

(** [convert_file] on the text of the file: [Some text'] when it writes
    [text'] and returns [True], [None] when it returns [False] without
    writing. *)
Definition convert_file (content : str) : option str :=
  let lines := splitlines content in
  let blocks := find_table_blocks (map rstrip_nl lines) in
  match blocks with
  | [] => None
  | _ =>
      let has_import := contains (strip IMPORT_LINE) content in
      let (lines, modified) := replace_blocks lines blocks in
      if negb modified then None
      else
        let lines := if negb has_import then add_import lines else lines in
        Some (concat lines)
  end.

(** The text of the file after a run. *)
Definition converted (content : str) : str :=
  match convert_file content with
  | Some content' => content'
  | None => content
  end.

(** ** fix-keys.py *)

Definition fix_key (indent inner : str) : str :=
  let inner := replace [BACKSLASH; BACKTICK] [] inner in
  let inner := replace [DQUOTE] [BACKSLASH; DQUOTE] inner in
  indent ++ [DQUOTE] ++ inner ++ [DQUOTE; COLON].

(** A match of [(\s+)\{`(.*?)`\}:] at the start of [s] (which is at the
    start of a line): the two groups and what follows the match.  The run of
    [\s+] is the longest one, since the next character of the pattern is no
    whitespace. *)
Definition KEY_OPEN : str := lit "{`".
Definition KEY_CLOSE : str := lit "`}:".

Definition match_bad_key (s : str) : option (str * str * str) :=
  let rest := lstrip_by isspace s in
  let indent := firstn (length s - length rest) s in
  if is_empty indent then None
  else if startswith rest KEY_OPEN then
    match lazy_until KEY_CLOSE [] (skipn (length KEY_OPEN) rest) with
    | Some (inner, rest') => Some (indent, inner, rest')
    | None => None
    end
  else None.

(** [BAD_KEY.sub(fix_key, text)] with [re.MULTILINE]: [bol] tells whether the
    scan stands at the start of the text or behind a newline. *)
Fixpoint sub_bad_keys (fuel : nat) (bol : bool) (s : str) : str :=
  match fuel with
  | O => s
  | S fuel' =>
      match s with
      | [] => []
      | c :: s' =>
          match (if bol then match_bad_key s else None) with
          | Some (indent, inner, rest) =>
              fix_key indent inner ++ sub_bad_keys fuel' false rest
          | None => c :: sub_bad_keys fuel' (N.eqb c LF) s'
          end
      end
  end.

Definition fix_keys_text (text : str) : str :=
  sub_bad_keys (length text) true text.

(** The body of the loop over the files, on the text of one file:
    [Some new_text] when the file is written. *)
Definition fix_file (text : str) : option str :=
  if negb (contains KEY_OPEN text) then None
  else
    let new_text := fix_keys_text text in
    if negb (str_eqb new_text text) then Some new_text else None.

(** ** The specification's wording, as definitions *)

(** A header matches a word when its lowered, stripped text contains it. *)
Definition header_has (word : str) (header : str) : bool :=
  contains word (strip (lower header)).

(** The ordered rules of the column-role classifier. *)
Definition classify_spec (headers : list str) : mapping :=
  match headers with
  | [_; _] => fields [(1, DESCRIPTION)]
  | [_; c1; c2] =>
      if header_has TYPE c1 then fields [(1, TYPE); (2, DESCRIPTION)]
      else if header_has DEFAULT c2 then fields [(1, DESCRIPTION); (2, DEFAULT)]
      else if existsb (fun w => header_has w c1) TYPE_LIKE
           then fields [(1, TYPE); (2, DESCRIPTION)]
      else merged [1; 2]
  | [_; c1; _; c3] =>
      if header_has TYPE c1 && header_has DEFAULT c3
      then fields [(1, TYPE); (2, DESCRIPTION); (3, DEFAULT)]
      else if header_has DEFAULT c3
      then fields [(1, DESCRIPTION); (2, TYPE); (3, DEFAULT)]
      else if header_has TYPE c1
      then fields [(1, TYPE); (2, DESCRIPTION); (3, DEFAULT)]
      else merged [1; 2; 3]
  | _ => merged (seq 1 (length headers - 1))
  end.

(** The two shapes of a mapping. *)
Definition field_shape (m : mapping) : Prop := by_col m <> [] /\ merge m = None.
Definition merge_shape (m : mapping) : Prop := by_col m = [] /\ merge m <> None.

(** The two renderings of a value. *)
Definition needs_template (v : str) : bool :=
  existsb (in_chars [BACKTICK; LT; GT; LBRACE]) v.
Definition template_escape (c : char) : str :=
  if in_chars [BACKSLASH; BACKTICK; DOLLAR] c then [BACKSLASH; c] else [c].
Definition quote_escape (c : char) : str :=
  if N.eqb c DQUOTE then lit "&quot;" else [c].

(** A cell that is left out: stripped, it is empty, an em dash or a dash. *)
Definition omitted_value (v : str) : bool :=
  is_empty (strip v) || str_eqb (strip v) [EM_DASH] || str_eqb (strip v) [DASH].

(** The columns a mapping renders, and a mapping without column [i]. *)
Definition mapped (i : nat) (m : mapping) : Prop :=
  match merge m with
  | Some cols => In i cols
  | None => In i (map fst (by_col m))
  end.
Definition without_col (i : nat) (m : mapping) : mapping :=
  Mapping (filter (fun kv => negb (fst kv =? i)) (by_col m))
          (option_map (filter (fun j => negb (j =? i))) (merge m)).

(** An entry with no field, and an entry with its field lines. *)
Definition empty_entry (key : str) : str :=
  lit "    " ++ to_jsx_key key ++ lit ": {}," ++ [LF].
Definition entry_with (key : str) (props : list str) : str :=
  lit "    " ++ to_jsx_key key ++ lit ": {" ++ [LF] ++ join [LF] props
  ++ [LF] ++ lit "    }," ++ [LF].

(** Merge mode in the specification's words: the "Header: value" fragments of
    the cells that are present and not left out, and the description line
    made of them. *)
Definition fragment (row headers : list str) (i : nat) : str :=
  strip (nth i headers []) ++ lit ": " ++ strip (nth i row []).
Definition merge_fragments (row headers : list str) (cols : list nat)
    : list str :=
  map (fragment row headers)
      (filter (fun i => (i <? length row) && negb (omitted_value (nth i row [])))
              cols).
Definition description_line (fragments : list str) : str :=
  INDENT6 ++ lit "description: "
  ++ to_jsx_string (join [SPACE; MIDDLE_DOT; SPACE] fragments) ++ lit ",".

(** Ascending column indices. *)
Fixpoint keys_sorted (l : list (nat * option str)) : Prop :=
  match l with
  | [] => True
  | kv :: l' => Forall (fun kv' => fst kv <= fst kv') l' /\ keys_sorted l'
  end.

(** The separator syntax of [parse_table]'s regular expression, stated
    outright: a bar, then one or more of dash, bar, space and colon, then
    whitespace only. *)
Definition sep_syntax (line : str) : Prop :=
  exists body ws,
    line = BAR :: body ++ ws /\ body <> []
    /\ Forall (fun c => sep_class c = true) body
    /\ Forall (fun c => isspace c = true) ws.

(** A line made only of bars, dashes, colons and spaces. *)
Definition only_sep_chars (line : str) : bool := forallb sep_class line.

(** A line that is taken as a data row. *)
Definition is_row_line (line : str) : bool := startswith (strip line) [BAR].

(** A lazy group followed by the literal [close], stated outright: [inner] is
    the shortest newline-free text before an occurrence of [close]. *)
Definition lazy_match (close s inner rest : str) : Prop :=
  s = inner ++ close ++ rest
  /\ ~ In LF inner
  /\ (forall inner' rest', s = inner' ++ close ++ rest' ->
        length inner <= length inner').

(** The malformed key of [fix-keys.py] at the start of [s]: whitespace, then
    the templated expression in braces, then a colon. *)
Definition bad_key_at (s indent inner rest : str) : Prop :=
  exists after_open,
    s = indent ++ KEY_OPEN ++ after_open
    /\ indent <> [] /\ Forall (fun c => isspace c = true) indent
    /\ lazy_match KEY_CLOSE after_open inner rest.

(** The scan of [BAD_KEY.sub] with all the turns it needs. *)
Definition scan_keys (bol : bool) (s : str) : str :=
  sub_bad_keys (length s) bol s.

(** A double quote gets a backslash in front. *)
Definition backslash_quote (c : char) : str :=
  if N.eqb c DQUOTE then [BACKSLASH; DQUOTE] else [c].

(** ** Lines and chunks of a text *)

Definition is_bar (line : str) : bool := startswith line [BAR].
Arguments is_bar : simpl never.

Definition last_char (x : str) : char := last x 0%N.

(** A chunk may stand before a text starting with [nx] (or before nothing)
    without changing where the lines of either end. *)
Definition ok_end (x : str) (nx : option char) : Prop :=
  match nx with
  | None => True
  | Some c =>
      is_linebreak (last_char x) = true /\ ~ (last_char x = CR /\ c = LF)
  end.

Definition first_of (cs : list str) (nx : option char) : option char :=
  match cs with
  | [] => nx
  | x :: _ => hd_error x
  end.

(** A list of non-empty chunks, each ending where a line ends. *)
Fixpoint chunked (cs : list str) (nx : option char) : Prop :=
  match cs with
  | [] => True
  | x :: rest => x <> [] /\ ok_end x (first_of rest nx) /\ chunked rest nx
  end.

(** No line of the text starts with a bar: no bar at the start (when the text
    starts a line) nor behind a line boundary. *)
Fixpoint bar_free_starts (at_start : bool) (x : str) : bool :=
  match x with
  | [] => true
  | c :: x' =>
      negb (at_start && N.eqb c BAR) && bar_free_starts (is_linebreak c) x'
  end.

(** No bar at all. *)
Definition not_bar (c : char) : bool := negb (N.eqb c BAR).
Definition bar_free (s : str) : bool := forallb not_bar s.

(** The field names of a mapping hold no bar. *)
Definition names_bar_free (m : mapping) : Prop :=
  Forall (fun kv => match snd kv with
                    | Some name => bar_free name = true
                    | None => True
                    end) (by_col m).

(** What a replaced block looks like: no bar in it, an opening angle bracket
    first, a newline last. *)
Definition fragment_like (x : str) : Prop :=
  bar_free x = true /\ hd_error x = Some LT /\ last_char x = LF.

(** ** Blocks of a document *)

(** The lines of a document, grouped: a maximal run of lines starting with a
    bar, or one other line. *)
Inductive item : Type :=
| Run (r : list str)
| Other (l : str).

Fixpoint groups (lines : list str) : list item :=
  match lines with
  | [] => []
  | l :: rest =>
      if is_bar l then
        match groups rest with
        | Run r :: g => Run (l :: r) :: g
        | g => Run [l] :: g
        end
      else Other l :: groups rest
  end.

Definition item_lines (it : item) : list str :=
  match it with
  | Run r => r
  | Other l => [l]
  end.
Definition flatten (g : list item) : list str := flat_map item_lines g.

(** The index pairs of the runs, the first item standing at index [i]. *)
Fixpoint blocks_of (g : list item) (i : nat) : list (nat * nat) :=
  match g with
  | [] => []
  | Run r :: g' => (i, i + length r) :: blocks_of g' (i + length r)
  | Other _ :: g' => blocks_of g' (S i)
  end.

(** What an item becomes in the rewritten document. *)
Definition render (it : item) : list str :=
  match it with
  | Run r =>
      match convert_block (map rstrip_nl r) with
      | Some jsx => [jsx]
      | None => r
      end
  | Other l => [l]
  end.

Definition convertible (it : item) : bool :=
  match it with
  | Run r =>
      match convert_block (map rstrip_nl r) with
      | Some _ => true
      | None => false
      end
  | Other _ => false
  end.

Fixpoint take_bars (lines : list str) : list str :=
  match lines with
  | l :: rest => if is_bar l then l :: take_bars rest else []
  | [] => []
  end.
Fixpoint drop_bars (lines : list str) : list str :=
  match lines with
  | l :: rest => if is_bar l then drop_bars rest else lines
  | [] => []
  end.

(** Grouped lines: runs are non-empty, made of bar lines, and never adjacent. *)
Fixpoint grouped (g : list item) : Prop :=
  match g with
  | [] => True
  | Other l :: g' => is_bar l = false /\ grouped g'
  | Run r :: g' =>
      r <> [] /\ forallb is_bar r = true
      /\ match g' with Run _ :: _ => False | _ => True end
      /\ grouped g'
  end.

(** A line behind which the import may be inserted. *)
Definition anchor (line : str) : bool := is_fumadocs_import line || is_fence line.

(** What the rewriter may do to an item besides rendering it: append the
    inserted import (bar-free text ending in a newline) to a line. *)
Definition item_rel (it it' : item) : Prop :=
  match it, it' with
  | Run r, Run r' => r' = r
  | Other l, Other l' =>
      l' = l
      \/ exists ins, l' = l ++ ins /\ ins <> [] /\ bar_free ins = true
                     /\ last_char ins = LF
  | _, _ => False
  end.

(** The groups of the rewritten document: a replaced run and every other
    item give their lines, a run left alone stays a run. *)
Definition expand (it : item) : list item :=
  match it with
  | Run r =>
      match convert_block (map rstrip_nl r) with
      | Some jsx => map Other (splitlines jsx)
      | None => [Run r]
      end
  | Other x => map Other (splitlines x)
  end.

Definition compat (nx nx' : option char) : Prop :=
  match nx' with
  | None => True
  | Some c' =>
      match nx with
      | Some c => c' = LF -> c = LF
      | None => False
      end
  end.

Fixpoint ready (g : list item) : Prop :=
  match g with
  | [] => True
  | Other x :: rest =>
      x <> [] /\ Forall (fun l => is_bar l = false) (splitlines x) /\ ready rest
  | Run r :: rest =>
      r <> [] /\ forallb is_bar r = true
      /\ Forall (fun l => splitlines l = [l]) r
      /\ match rest with Run _ :: _ => False | _ => True end
      /\ ready rest
  end.

(** A block the rewriter leaves alone: it fails to parse, or parses to no
    data row. *)
Definition not_convertible (table_lines : list str) : Prop :=
  parse_table table_lines = None
  \/ exists headers, parse_table table_lines = Some (headers, []).

(** Sample documents, one line per list element. *)
Definition doc_of (lines : list string) : str :=
  flat_map (fun l => lit l ++ [LF]) lines.

Definition doc_two_imports : str :=
  doc_of ["---"; "title: t"; "---"; "";
          "import { Tabs } from 'fumadocs-ui/components/tabs';";
          "import { Card } from 'fumadocs-ui/components/card';"; "";
          "| Name | Description |"; "|---|---|"; "| foo | bar |"]%string.

Definition doc_no_frontmatter : str :=
  doc_of ["# Title"; ""; "| Name | Description |"; "|---|---|";
          "| foo | bar |"]%string.

Definition doc_mixed : str :=
  doc_of ["---"; "title: t"; "---"; "| lonely |"; "|---|"; "text";
          "| Name | Description |"; "|---|---|"; "| foo | bar |"]%string.

Definition fragment_foo_bar : str :=
  doc_of ["<TypeTable"; "  type={"]%string
  ++ lit "    " ++ [DQUOTE] ++ lit "foo" ++ [DQUOTE] ++ lit ": {" ++ [LF]
  ++ lit "      description: " ++ [DQUOTE] ++ lit "bar" ++ [DQUOTE]
  ++ lit "," ++ [LF]
  ++ doc_of ["    },"; "  }"; "/>"]%string.

(** ** The callers: the loops over the files *)

(** [main] of convert-tables.py on the files found under the root, in the
    order of [sorted(root.rglob("*.mdx"))], each given by the parts of its
    path and its text: a file with a part ["blog"] is passed over; the state
    is the files as they are left and the count [converted]. *)
Definition in_blog (parts : list str) : bool :=
  existsb (fun part => str_eqb part (lit "blog")) parts.

Fixpoint main_loop (files : list (list str * str)) (converted : nat)
    : list (list str * str) * nat :=
  match files with
  | [] => ([], converted)
  | (parts, content) :: rest =>
      if in_blog parts then
        let (left, n) := main_loop rest converted in
        ((parts, content) :: left, n)
      else
        match convert_file content with
        | Some content' =>
            let (left, n) := main_loop rest (S converted) in
            ((parts, content') :: left, n)
        | None =>
            let (left, n) := main_loop rest converted in
            ((parts, content) :: left, n)
        end
  end.
Definition main (files : list (list str * str)) := main_loop files 0.

(** The loop of fix-keys.py over the files, with the count [fixed]. *)
Fixpoint fix_loop (files : list (list str * str)) (fixed : nat)
    : list (list str * str) * nat :=
  match files with
  | [] => ([], fixed)
  | (parts, text) :: rest =>
      match fix_file text with
      | Some new_text =>
          let (left, n) := fix_loop rest (S fixed) in
          ((parts, new_text) :: left, n)
      | None =>
          let (left, n) := fix_loop rest fixed in
          ((parts, text) :: left, n)
      end
  end.
Definition fix_all (files : list (list str * str)) := fix_loop files 0.

(** ** More of the specification's wording *)

(** Reading the body of a template string written with the three escapes of
    [to_jsx_string]: a bare backtick or dollar, or any other escape, is not
    read. *)
Fixpoint template_read (body : str) : option str :=
  match body with
  | [] => Some []
  | c :: rest =>
      if N.eqb c BACKSLASH then
        match rest with
        | d :: rest' =>
            if in_chars [BACKSLASH; BACKTICK; DOLLAR] d
            then option_map (cons d) (template_read rest')
            else None
        | [] => None
        end
      else if in_chars [BACKTICK; DOLLAR] c then None
      else option_map (cons c) (template_read rest)
  end.

(** What the renderer reads of a cell: its stripped text when the cell is
    there and shown. *)
Definition cell_view (row : list str) (i : nat) : option str :=
  if (i <? length row) && shown (strip (nth i row []))
  then Some (strip (nth i row [])) else None.

Definition is_run (it : item) : bool :=
  match it with Run _ => true | Other _ => false end.
Definition run_left (it : item) : bool := is_run it && negb (convertible it).

Definition STAR : char := 42%N.

(** Text that the value renderer copies as it is. *)
Definition plain_value (v : str) : bool :=
  forallb (fun c => negb (in_chars [STAR; BACKTICK; LT; GT; LBRACE; DQUOTE] c))
          v.
(** Text that the key renderer copies as it is. *)
Definition plain_key (v : str) : bool :=
  forallb (fun c => negb (in_chars [STAR; BACKTICK; DQUOTE] c)) v.

(** ** The postcondition of fix-keys.py *)

(** What [BAD_KEY] needs behind the whitespace: the opening, then the
    shortest text up to the closing on the same line. *)
Definition key_tail (r : str) : option (str * str) :=
  if startswith r KEY_OPEN
  then lazy_until KEY_CLOSE [] (skipn (length KEY_OPEN) r)
  else None.

(** No match of [BAD_KEY] is left in [text]: at no start of a line ([bol]
    tells whether [text] starts one) does the pattern match. *)
Fixpoint no_bad_key (bol : bool) (text : str) : bool :=
  match text with
  | [] => true
  | c :: rest =>
      (if bol then match match_bad_key text with
                   | Some _ => false
                   | None => true
                   end
       else true)
      && no_bad_key (N.eqb c LF) rest
  end.

Definition not_lf (c : char) : bool := negb (N.eqb c LF).
(** A text that starts with no whitespace. *)
Definition starts_text (r : str) : bool :=
  match r with [] => true | c :: _ => negb (isspace c) end.
(** What may follow the text of a line: nothing, or a newline. *)
Definition line_end (tail : str) : bool :=
  match tail with [] => true | c :: _ => N.eqb c LF end.

(** The number of files whose text is not the same before and after. *)
Definition changed (before after : list (list str * str)) : nat :=
  length (filter (fun p => negb (str_eqb (snd (fst p)) (snd (snd p))))
                 (combine before after)).

(** The blocks of [lines] that the rewriter leaves as they are. *)
Definition left_alone (lines : list str) (b : nat * nat) : bool :=
  match convert_block (map rstrip_nl (slice lines (fst b) (snd b))) with
  | Some _ => false
  | None => true
  end.

(** * Properties *)

(** ** Facts about the string functions *)

Lemma startswith_char c s :
  startswith s [c] = match s with x :: _ => N.eqb x c | [] => false end.
Proof. destruct s as [|x s]; simpl; [reflexivity | apply andb_true_r]. Qed.

Lemma contains_char c s : contains [c] s = existsb (fun x => N.eqb x c) s.
Proof.
  induction s as [|x s IH]; [reflexivity|].
  cbn [contains existsb]. rewrite startswith_char, IH. reflexivity.
Qed.

Lemma replace_char a new s :
  replace [a] new s = flat_map (fun c => if N.eqb c a then new else [c]) s.
Proof.
  unfold replace. induction s as [|x s IH]; [reflexivity|].
  cbn [replace_from flat_map]. rewrite startswith_char. cbn [length Nat.sub].
  rewrite IH. destruct (N.eqb x a); reflexivity.
Qed.

Lemma flat_map_flat_map {A B C : Type} (f : A -> list B) (g : B -> list C) l :
  flat_map g (flat_map f l) = flat_map (fun x => flat_map g (f x)) l.
Proof.
  induction l as [|x l IH]; [reflexivity|].
  cbn [flat_map]. rewrite flat_map_app, IH. reflexivity.
Qed.

Lemma needs_template_contains v :
  contains [BACKTICK] v || contains [LT] v || contains [GT] v
  || contains [LBRACE] v = needs_template v.
Proof.
  rewrite !contains_char. unfold needs_template.
  induction v as [|x v IH]; [reflexivity|].
  cbn [existsb]. rewrite <- IH. unfold in_chars. cbn [existsb].
  rewrite orb_false_r.
  destruct (N.eqb x BACKTICK), (N.eqb x LT), (N.eqb x GT), (N.eqb x LBRACE);
    cbn; rewrite ?orb_true_r; reflexivity.
Qed.

Lemma template_escape_replace v :
  replace [DOLLAR] [BACKSLASH; DOLLAR]
    (replace [BACKTICK] [BACKSLASH; BACKTICK]
       (replace [BACKSLASH] [BACKSLASH; BACKSLASH] v))
  = flat_map template_escape v.
Proof.
  rewrite !replace_char, !flat_map_flat_map.
  apply flat_map_ext. intro c. unfold template_escape, in_chars.
  cbn [existsb]. rewrite orb_false_r.
  destruct (N.eqb_spec c BACKSLASH) as [->|Hb]; [reflexivity|].
  cbn [flat_map app orb].
  destruct (N.eqb_spec c BACKTICK) as [->|Ht]; [reflexivity|].
  cbn [flat_map app orb].
  destruct (N.eqb_spec c DOLLAR) as [->|Hd]; reflexivity.
Qed.

(** [length s] turns are enough for [re.sub]: more fuel changes nothing. *)
Lemma lazy_until_length (close : str) (s : str) :
  forall acc inner rest,
    lazy_until close acc s = Some (inner, rest) -> length rest <= length s.
Proof.
  induction s as [|c s IH]; intros acc inner rest; cbn [lazy_until].
  - destruct (startswith [] close); [|discriminate].
    intro H. injection H as _ <-. rewrite length_skipn. lia.
  - destruct (startswith (c :: s) close).
    + intro H. injection H as _ <-. rewrite length_skipn. lia.
    + destruct (N.eqb c LF); [discriminate|].
      intro H. apply IH in H. cbn [length]. lia.
Qed.

Lemma match_pair_length (d s inner rest : str) :
  match_pair d s = Some (inner, rest) -> length rest < length s.
Proof.
  unfold match_pair. destruct (startswith s d); [|discriminate].
  pose proof (length_skipn (length d) s) as L.
  destruct (skipn (length d) s) as [|c t]; [discriminate|].
  destruct (N.eqb c LF); [discriminate|].
  intro H. apply lazy_until_length in H. cbn [length] in L. lia.
Qed.

Lemma re_sub_pair_fuel_enough (d : str) (f1 : nat) :
  forall f2 s, length s <= f1 -> length s <= f2 ->
    re_sub_pair_fuel f1 d s = re_sub_pair_fuel f2 d s.
Proof.
  induction f1 as [|f1 IH]; intros f2 s H1 H2.
  - destruct s; [|cbn in H1; lia]. destruct f2; reflexivity.
  - destruct s as [|c s]; [destruct f2; reflexivity|].
    destruct f2 as [|f2]; [cbn in H2; lia|].
    cbn [re_sub_pair_fuel length] in *.
    destruct (match_pair d (c :: s)) as [[inner rest]|] eqn:E.
    + apply match_pair_length in E. cbn [length] in E.
      f_equal. apply IH; lia.
    + f_equal. apply IH; lia.
Qed.

(** ** The value renderer *)

(** C4.  After stripping whitespace and removing bold markers, a value that
    holds a backtick, [<], [>] or [{] is rendered as a template string in
    which every backslash, backtick and [$] gets a backslash in front; any
    other value is rendered between double quotes, every double quote in it
    replaced by [&quot;]. *)
Theorem to_jsx_string_escaping (s : str) :
  to_jsx_string s =
    if needs_template (re_sub_pair BOLD (strip s))
    then [LBRACE; BACKTICK]
         ++ flat_map template_escape (re_sub_pair BOLD (strip s)) ++ lit "`}"
    else [DQUOTE]
         ++ flat_map quote_escape (re_sub_pair BOLD (strip s)) ++ [DQUOTE].
Proof.
  unfold to_jsx_string.
  rewrite needs_template_contains, template_escape_replace, replace_char.
  reflexivity.
Qed.

(** ** The column-role classifier *)

Lemma any_in_one w h : any_in [w] h = contains w h.
Proof. unfold any_in. cbn [existsb]. apply orb_false_r. Qed.

Lemma headers_to_mapping_spec (headers : list str) :
  headers_to_mapping headers = classify_spec headers.
Proof.
  unfold headers_to_mapping.
  destruct headers as [|c0 [|c1 [|c2 [|c3 [|c4 tl]]]]];
    cbn [map length Nat.eqb nth classify_spec Nat.sub];
    rewrite ?any_in_one; try reflexivity.
  unfold range1. rewrite length_map. reflexivity.
Qed.

Lemma classify_spec_shape (headers : list str) :
  (field_shape (classify_spec headers) /\ ~ merge_shape (classify_spec headers))
  \/ (merge_shape (classify_spec headers)
      /\ ~ field_shape (classify_spec headers)).
Proof.
  assert (F : forall kv kvs, field_shape (fields (kv :: kvs))
                             /\ ~ merge_shape (fields (kv :: kvs))).
  { intros kv kvs. unfold field_shape, merge_shape. cbn.
    split; [split; [discriminate | reflexivity] | intros [H _]; discriminate]. }
  assert (M : forall cols, merge_shape (merged cols)
                           /\ ~ field_shape (merged cols)).
  { intros cols. unfold field_shape, merge_shape. cbn.
    split; [split; [reflexivity | discriminate] | intros [H _]; auto]. }
  destruct headers as [|c0 [|c1 [|c2 [|c3 [|c4 tl]]]]]; cbn [classify_spec];
    repeat match goal with
           | |- context [if ?b then _ else _] => destruct b
           end;
    first [left; apply F | right; apply M].
Qed.

(** C1.  The classifier follows the ordered rules of the specification
    ([classify_spec], headers matched on their lowered text): two columns give
    [{1: description}]; three and four columns go by the rules in their
    order, ending in a merge of all extra columns; five columns or more are
    always merged.  The answer depends on the headers only up to letter case,
    and it has exactly one of the two shapes, never both. *)
Theorem headers_to_mapping_rules (headers : list str) :
  headers_to_mapping headers = classify_spec headers
  /\ (forall c0 c1, headers_to_mapping [c0; c1] = fields [(1, DESCRIPTION)])
  /\ (5 <= length headers ->
      headers_to_mapping headers = merged (seq 1 (length headers - 1)))
  /\ (forall headers', map lower headers' = map lower headers ->
      headers_to_mapping headers' = headers_to_mapping headers)
  /\ ((field_shape (headers_to_mapping headers)
       /\ ~ merge_shape (headers_to_mapping headers))
      \/ (merge_shape (headers_to_mapping headers)
          /\ ~ field_shape (headers_to_mapping headers))).
Proof.
  split; [apply headers_to_mapping_spec|].
  split; [reflexivity|].
  split.
  { intro H. rewrite headers_to_mapping_spec.
    destruct headers as [|c0 [|c1 [|c2 [|c3 [|c4 tl]]]]];
      cbn [length] in H; try lia. reflexivity. }
  split.
  { intros headers' H. unfold headers_to_mapping.
    rewrite <- (map_map lower strip headers'), <- (map_map lower strip headers).
    rewrite H. reflexivity. }
  rewrite headers_to_mapping_spec. apply classify_spec_shape.
Qed.

Lemma headers_to_mapping_rules_witness :
  headers_to_mapping
    [lit "Name"; lit "A"; lit "B"; lit "C"; lit "D"] = merged [1; 2; 3; 4]
  /\ headers_to_mapping [lit "NAME"; lit "Return TYPE"; lit "Notes"]
     = headers_to_mapping [lit "name"; lit "return type"; lit "notes"].
Proof.
  split.
  - destruct (headers_to_mapping_rules
                [lit "Name"; lit "A"; lit "B"; lit "C"; lit "D"])
      as (_ & _ & H5 & _).
    apply H5. cbn [length]. lia.
  - destruct (headers_to_mapping_rules
                [lit "name"; lit "return type"; lit "notes"])
      as (_ & _ & _ & Hcase & _).
    apply Hcase. reflexivity.
Defined.

(** ** The row renderer *)

Lemma shown_omitted (v : str) : shown (strip v) = negb (omitted_value v).
Proof.
  unfold shown, omitted_value.
  destruct (is_empty (strip v)), (str_eqb (strip v) [EM_DASH]),
    (str_eqb (strip v) [DASH]); reflexivity.
Qed.

Lemma omitted_value_nil : omitted_value [] = true.
Proof. reflexivity. Qed.

Lemma flat_map_nil {A B : Type} (f : A -> list B) l :
  (forall x, In x l -> f x = []) -> flat_map f l = [].
Proof.
  induction l as [|x l IH]; intro H; [reflexivity|].
  cbn [flat_map]. rewrite (H x (or_introl eq_refl)), IH; [reflexivity|].
  intros y Hy. apply H. right. exact Hy.
Qed.

Lemma flat_map_filter {A B : Type} (f : A -> list B) (p : A -> bool) l :
  (forall x, In x l -> p x = false -> f x = []) ->
  flat_map f (filter p l) = flat_map f l.
Proof.
  induction l as [|x l IH]; intro H; [reflexivity|].
  cbn [filter flat_map].
  assert (IH' : flat_map f (filter p l) = flat_map f l).
  { apply IH. intros y Hy. apply H. right. exact Hy. }
  destruct (p x) eqn:E.
  - cbn [flat_map]. rewrite IH'. reflexivity.
  - rewrite (H x (or_introl eq_refl) E), IH'. reflexivity.
Qed.

(** [sorted(...)] gives ascending keys and keeps the items. *)
Lemma insert_by_key_In kv x l :
  In x (insert_by_key kv l) <-> x = kv \/ In x l.
Proof.
  induction l as [|kv' l IH]; cbn [insert_by_key].
  - cbn. intuition auto.
  - destruct (fst kv <=? fst kv'); cbn [In]; [intuition auto|].
    rewrite IH. intuition auto.
Qed.

Lemma sorted_items_In x l : In x (sorted_items l) <-> In x l.
Proof.
  induction l as [|kv l IH]; cbn [sorted_items fold_right]; [reflexivity|].
  fold (sorted_items l). rewrite insert_by_key_In, IH. cbn. intuition auto.
Qed.

Lemma insert_by_key_sorted kv l :
  keys_sorted l -> keys_sorted (insert_by_key kv l).
Proof.
  induction l as [|kv' l IH]; cbn [insert_by_key keys_sorted].
  - intros _. split; [constructor | exact I].
  - intros [Hall Hs]. destruct (Nat.leb_spec (fst kv) (fst kv')) as [Hle|Hgt].
    + cbn [keys_sorted]. split; [|split; assumption].
      constructor; [exact Hle|].
      eapply Forall_impl; [|exact Hall]. cbn. intros; lia.
    + cbn [keys_sorted]. split; [|apply IH; exact Hs].
      apply Forall_forall. intros x Hx. apply insert_by_key_In in Hx.
      destruct Hx as [->|Hx]; [lia|].
      rewrite Forall_forall in Hall. apply Hall. exact Hx.
Qed.

Lemma sorted_items_sorted l : keys_sorted (sorted_items l).
Proof.
  induction l as [|kv l IH]; cbn [sorted_items fold_right]; [exact I|].
  apply insert_by_key_sorted. exact IH.
Qed.

Lemma insert_by_key_front kv l :
  Forall (fun kv' => fst kv <= fst kv') l -> insert_by_key kv l = kv :: l.
Proof.
  destruct l as [|kv' l]; [reflexivity|].
  intro H. inversion H as [|? ? Hle _]; subst. cbn [insert_by_key].
  apply Nat.leb_le in Hle. rewrite Hle. reflexivity.
Qed.

Lemma filter_insert_by_key (p : nat * option str -> bool) kv l :
  keys_sorted l ->
  filter p (insert_by_key kv l)
  = if p kv then insert_by_key kv (filter p l) else filter p l.
Proof.
  induction l as [|kv' l IH]; cbn [insert_by_key keys_sorted filter].
  - intros _. destruct (p kv); reflexivity.
  - intros [Hall Hs]. destruct (Nat.leb_spec (fst kv) (fst kv')) as [Hle|Hgt].
    + cbn [filter]. destruct (p kv) eqn:Ekv; [|reflexivity].
      symmetry. apply insert_by_key_front.
      destruct (p kv'); [constructor; [exact Hle|]|];
        apply Forall_forall; intros x Hx; apply filter_In in Hx;
        rewrite Forall_forall in Hall; specialize (Hall x (proj1 Hx)); lia.
    + cbn [filter]. rewrite (IH Hs).
      destruct (p kv') eqn:Ekv', (p kv) eqn:Ekv; try reflexivity.
      cbn [insert_by_key]. apply Nat.leb_gt in Hgt. rewrite Hgt. reflexivity.
Qed.

Lemma sorted_items_filter (p : nat * option str -> bool) l :
  sorted_items (filter p l) = filter p (sorted_items l).
Proof.
  induction l as [|kv l IH]; [reflexivity|].
  cbn [filter sorted_items fold_right]. fold (sorted_items l).
  rewrite filter_insert_by_key by apply sorted_items_sorted.
  destruct (p kv); [|exact IH].
  cbn [sorted_items fold_right]. fold (sorted_items (filter p l)).
  rewrite IH. reflexivity.
Qed.

(** One column of each branch of the renderer. *)
Lemma merge_parts_omitted (row : list str) headers cols i :
  omitted_value (nth i row []) = true ->
  merge_parts row headers (filter (fun j => negb (j =? i)) cols)
  = merge_parts row headers cols.
Proof.
  intro Hom. unfold merge_parts. apply flat_map_filter.
  intros j _ Hj. apply negb_false_iff, Nat.eqb_eq in Hj. subst j.
  cbv beta zeta. rewrite shown_omitted, Hom. cbn [negb].
  destruct (i <? length row); reflexivity.
Qed.

Lemma field_props_omitted (row : list str) items i :
  omitted_value (nth i row []) = true ->
  field_props row (filter (fun kv => negb (fst kv =? i)) items)
  = field_props row items.
Proof.
  intro Hom. unfold field_props. rewrite sorted_items_filter.
  apply flat_map_filter.
  intros [j f] _ Hj. cbn [fst snd] in *.
  apply negb_false_iff, Nat.eqb_eq in Hj. subst j.
  cbv beta zeta. rewrite shown_omitted, Hom. cbn [negb].
  destruct f; [|reflexivity]. destruct (length row <=? i); reflexivity.
Qed.

Lemma row_props_omitted (row : list str) m headers i :
  omitted_value (nth i row []) = true ->
  row_props row (without_col i m) headers = row_props row m headers.
Proof.
  intro Hom. unfold row_props, without_col. cbn [merge by_col].
  destruct (merge m) as [cols|]; cbn [option_map].
  - rewrite merge_parts_omitted by exact Hom. reflexivity.
  - apply field_props_omitted. exact Hom.
Qed.

Lemma row_props_all_omitted (row : list str) m headers :
  (forall i, mapped i m -> i < length row ->
             omitted_value (nth i row []) = true) ->
  row_props row m headers = [].
Proof.
  unfold mapped, row_props. intro H.
  destruct (merge m) as [cols|].
  - unfold merge_parts. rewrite flat_map_nil; [reflexivity|].
    intros i Hi. destruct (Nat.ltb_spec i (length row)) as [Hlt|]; [|reflexivity].
    cbv beta zeta. rewrite shown_omitted, (H i Hi Hlt). reflexivity.
  - unfold field_props. apply flat_map_nil.
    intros [i f] Hi. apply (proj1 (sorted_items_In _ _)) in Hi. cbn [fst snd].
    destruct f as [f|]; [|reflexivity].
    destruct (Nat.leb_spec (length row) i) as [|Hlt]; [reflexivity|].
    cbv beta zeta. rewrite shown_omitted, (H i); [reflexivity | | exact Hlt].
    apply in_map_iff. exists (i, Some f). split; [reflexivity | exact Hi].
Qed.

Lemma row_to_type_node_entry (key : str) (row : list str) m headers :
  row_to_type_node key row m headers
  = match row_props row m headers with
    | [] => empty_entry key
    | props => entry_with key props
    end.
Proof.
  unfold row_to_type_node, empty_entry, entry_with.
  destruct (row_props row m headers); reflexivity.
Qed.

(** C6.  In both modes a cell whose stripped value is empty, an em dash or a
    dash gives no field: the entry is the one rendered without that column.
    When every rendered column's cell is absent or left out, the entry is the
    empty object, under the normalized key. *)
Theorem omitted_cells_give_no_field (key : str) (row : list str) (m : mapping)
    (headers : option (list str)) :
  (forall i, omitted_value (nth i row []) = true ->
     row_to_type_node key row m headers
     = row_to_type_node key row (without_col i m) headers)
  /\ ((forall i, mapped i m -> i < length row ->
                 omitted_value (nth i row []) = true) ->
      row_to_type_node key row m headers
      = lit "    " ++ to_jsx_key key ++ lit ": {}," ++ [LF]).
Proof.
  split.
  - intros i Hom. rewrite !row_to_type_node_entry.
    rewrite row_props_omitted by exact Hom. reflexivity.
  - intro H. rewrite row_to_type_node_entry, row_props_all_omitted by exact H.
    reflexivity.
Qed.

Lemma omitted_cells_give_no_field_witness :
  row_to_type_node (lit "k") [lit "k"; lit " - "; lit "int"]
    (fields [(1, DESCRIPTION); (2, TYPE)]) None
  = row_to_type_node (lit "k") [lit "k"; lit " - "; lit "int"]
      (fields [(2, TYPE)]) None
  /\ row_to_type_node (lit "k") [lit "k"; [EM_DASH]; lit "-"]
       (merged [1; 2; 3]) (Some [lit "K"; lit "A"; lit "B"])
     = lit "    " ++ to_jsx_key (lit "k") ++ lit ": {}," ++ [LF].
Proof.
  split.
  - apply (proj1 (omitted_cells_give_no_field (lit "k")
                    [lit "k"; lit " - "; lit "int"]
                    (fields [(1, DESCRIPTION); (2, TYPE)]) None) 1).
    reflexivity.
  - apply (proj2 (omitted_cells_give_no_field (lit "k")
                    [lit "k"; [EM_DASH]; lit "-"]
                    (merged [1; 2; 3]) (Some [lit "K"; lit "A"; lit "B"]))).
    intros i Hm Hi. cbn in Hm.
    destruct Hm as [<-|[<-|[<-|[]]]]; [reflexivity | reflexivity |].
    cbn in Hi. lia.
Defined.

Lemma merge_parts_fragments (row headers : list str) (cols : list nat) :
  Forall (fun i => i < length headers) cols ->
  merge_parts row (Some headers) cols = merge_fragments row headers cols.
Proof.
  unfold merge_parts, merge_fragments.
  induction cols as [|i cols IH]; intro H; [reflexivity|].
  inversion H as [|? ? Hi Hcols]; subst.
  cbn [flat_map filter]. rewrite (IH Hcols). cbv beta zeta.
  rewrite shown_omitted.
  destruct (i <? length row); cbn [andb]; [|reflexivity].
  destruct (omitted_value (nth i row [])); cbn [negb map app]; [reflexivity|].
  destruct headers as [|h hs]; [cbn [length] in Hi; lia|].
  apply Nat.ltb_lt in Hi. rewrite Hi. reflexivity.
Qed.

Lemma classifier_merge_list (headers : list str) (cols : list nat) :
  merge (headers_to_mapping headers) = Some cols ->
  headers_to_mapping headers = merged cols
  /\ Forall (fun i => i < length headers) cols.
Proof.
  rewrite headers_to_mapping_spec.
  assert (M : forall cs, merge (merged cs) = Some cols ->
                Forall (fun i => i < length headers) cs ->
                merged cs = merged cols
                /\ Forall (fun i => i < length headers) cols).
  { intros cs H Hall. cbn [merge merged] in H. injection H as <-.
    split; [reflexivity | exact Hall]. }
  destruct headers as [|c0 [|c1 [|c2 [|c3 [|c4 tl]]]]]; cbn [classify_spec];
    repeat match goal with
           | |- context [if ?b then _ else _] => destruct b
           end;
    try (cbn [merge fields]; discriminate);
    intro H; apply M; try exact H;
    apply Forall_forall; intros i Hi;
    first [apply in_seq in Hi | cbn [In] in Hi]; cbn [length] in *;
    intuition lia.
Qed.

(** C5.  In merge mode the renderer takes, in the order of the merge list,
    every column whose cell is present and not left out, makes the fragment
    "Header: value" with the stripped header of that column, joins the
    fragments with a middle dot between spaces and renders the result as the one description field;
    with no fragment the entry is the empty object.  This holds for every
    merge list whose columns have a header, and the merge lists of the
    classifier are such lists.  A table of five columns is always in merge
    mode: with four shown cells its entry has one description made of the
    four fragments. *)
Theorem merge_mode_rendering (key : str) (row headers : list str)
    (cols : list nat) :
  (Forall (fun i => i < length headers) cols ->
   row_to_type_node key row (merged cols) (Some headers)
   = match merge_fragments row headers cols with
     | [] => empty_entry key
     | frs => entry_with key [description_line frs]
     end)
  /\ (merge (headers_to_mapping headers) = Some cols ->
      row_to_type_node key row (headers_to_mapping headers) (Some headers)
      = match merge_fragments row headers cols with
        | [] => empty_entry key
        | frs => entry_with key [description_line frs]
        end)
  /\ (length headers = 5 ->
      headers_to_mapping headers = merged [1; 2; 3; 4]
      /\ (length row = 5 ->
          (forall i, 1 <= i < 5 -> omitted_value (nth i row []) = false) ->
          row_to_type_node key row (headers_to_mapping headers) (Some headers)
          = entry_with key
              [INDENT6 ++ lit "description: "
               ++ to_jsx_string
                    (join [SPACE; MIDDLE_DOT; SPACE]
                       (map (fragment row headers) [1; 2; 3; 4]))
               ++ lit ","])).
Proof.
  assert (G : forall cs, Forall (fun i => i < length headers) cs ->
              row_to_type_node key row (merged cs) (Some headers)
              = match merge_fragments row headers cs with
                | [] => empty_entry key
                | frs => entry_with key [description_line frs]
                end).
  { intros cs H. rewrite row_to_type_node_entry. unfold row_props.
    cbn [merge merged]. rewrite (merge_parts_fragments row headers cs H).
    unfold description_line.
    destruct (merge_fragments row headers cs); reflexivity. }
  split; [apply G|]. split.
  { intro H. destruct (classifier_merge_list headers cols H) as [-> Hall].
    apply G. exact Hall. }
  intro H5.
  assert (Hm : headers_to_mapping headers = merged [1; 2; 3; 4]).
  { rewrite headers_to_mapping_spec.
    destruct headers as [|c0 [|c1 [|c2 [|c3 [|c4 [|c5 tl]]]]]];
      cbn [length] in H5; try discriminate. reflexivity. }
  split; [exact Hm|].
  intros Hrow Hshown. rewrite Hm, G by (rewrite H5; repeat constructor).
  unfold merge_fragments. cbn [filter]. rewrite Hrow.
  rewrite !Hshown by lia. reflexivity.
Qed.

Lemma merge_mode_rendering_witness :
  row_to_type_node (lit "k") [lit "k"; lit "a"; lit "-"; lit " c "]
    (merged [1; 2; 3]) (Some [lit "Key"; lit " A "; lit "B"; lit "C"])
  = entry_with (lit "k")
      [description_line [lit "A: a"; lit "C: c"]]
  /\ row_to_type_node (lit "k") [lit "k"; lit "a"; lit "b"]
       (headers_to_mapping [lit "Key"; lit "A"; lit "B"])
       (Some [lit "Key"; lit "A"; lit "B"])
     = entry_with (lit "k")
         [description_line [lit "A: a"; lit "B: b"]]
  /\ headers_to_mapping [lit "K"; lit "A"; lit "B"; lit "C"; lit "D"]
     = merged [1; 2; 3; 4].
Proof.
  split; [|split].
  - apply (proj1 (merge_mode_rendering (lit "k")
                    [lit "k"; lit "a"; lit "-"; lit " c "]
                    [lit "Key"; lit " A "; lit "B"; lit "C"] [1; 2; 3])).
    repeat constructor.
  - apply (proj1 (proj2 (merge_mode_rendering (lit "k")
                           [lit "k"; lit "a"; lit "b"]
                           [lit "Key"; lit "A"; lit "B"] [1; 2]))).
    reflexivity.
  - apply (proj2 (proj2 (merge_mode_rendering (lit "k") []
                           [lit "K"; lit "A"; lit "B"; lit "C"; lit "D"] []))).
    reflexivity.
Defined.

(** ** The table renderer *)

(** C10.  A data row that is empty, or whose first cell is the empty string,
    gives no entry: the fragment is the one made without that row. *)
Theorem rows_without_key_dropped (headers : list str)
    (before after : list (list str)) (row : list str) :
  row = [] \/ hd_error row = Some [] ->
  table_entries headers [row] = []
  /\ table_to_type_table headers (before ++ row :: after)
     = table_to_type_table headers (before ++ after).
Proof.
  intro H.
  assert (E : table_entries headers [row] = []).
  { unfold table_entries. cbn [flat_map].
    destruct H as [->|H]; [reflexivity|].
    destruct row as [|c0 row]; [reflexivity|].
    cbn [hd_error] in H. injection H as ->. reflexivity. }
  split; [exact E|].
  unfold table_to_type_table. do 5 f_equal.
  unfold table_entries in *. rewrite !flat_map_app. f_equal.
  change (row :: after) with ([row] ++ after).
  rewrite flat_map_app, E. reflexivity.
Qed.

Lemma rows_without_key_dropped_witness :
  table_to_type_table [lit "Name"; lit "Description"]
    ([[lit "a"; lit "x"]] ++ [[]; lit "y"] :: [[lit "b"; lit "z"]])
  = table_to_type_table [lit "Name"; lit "Description"]
      ([[lit "a"; lit "x"]] ++ [[lit "b"; lit "z"]]).
Proof.
  apply (rows_without_key_dropped [lit "Name"; lit "Description"]
           [[lit "a"; lit "x"]] [[lit "b"; lit "z"]] [[]; lit "y"]).
  right. reflexivity.
Defined.

(** ** The table parser *)

Lemma lstrip_by_split (p : char -> bool) (s : str) :
  exists body, s = body ++ lstrip_by p s /\ Forall (fun c => p c = true) body.
Proof.
  induction s as [|c s IH]; [exists []; split; [reflexivity | constructor]|].
  cbn [lstrip_by]. destruct (p c) eqn:E.
  - destruct IH as (body & Hs & Hb). exists (c :: body). split.
    + cbn [app]. f_equal. exact Hs.
    + constructor; assumption.
  - exists []. split; [reflexivity | constructor].
Qed.

Lemma lstrip_by_app (p : char -> bool) (body ws : str) :
  Forall (fun c => p c = true) body ->
  lstrip_by p (body ++ ws) = lstrip_by p ws.
Proof.
  induction 1 as [|c body Hc _ IH]; [reflexivity|].
  cbn [app lstrip_by]. rewrite Hc. exact IH.
Qed.

Lemma lstrip_by_Forall (p : char -> bool) (P : char -> Prop) (s : str) :
  Forall P s -> Forall P (lstrip_by p s).
Proof.
  induction 1 as [|c s Hc Hs IH]; [constructor|].
  cbn [lstrip_by]. destruct (p c); [exact IH | constructor; assumption].
Qed.

Lemma is_separator_syntax (line : str) :
  is_separator line = true <-> sep_syntax line.
Proof.
  split.
  - destruct line as [|c [|c1 r]]; cbn [is_separator]; try discriminate.
    intro H. apply andb_prop in H. destruct H as [H Hws].
    apply andb_prop in H. destruct H as [Hc Hc1].
    apply N.eqb_eq in Hc. subst c.
    destruct (lstrip_by_split sep_class (c1 :: r)) as (body & Hs & Hb).
    exists body, (lstrip_by sep_class (c1 :: r)).
    split; [f_equal; exact Hs|]. split; [|split].
    + intros ->. cbn [app lstrip_by] in Hs. rewrite Hc1 in Hs.
      apply (f_equal (@length char)) in Hs.
      destruct (lstrip_by_split sep_class r) as (b' & Hr & _).
      apply (f_equal (@length char)) in Hr. rewrite length_app in Hr.
      cbn [length] in Hs. lia.
    + exact Hb.
    + apply Forall_forall. rewrite forallb_forall in Hws. exact Hws.
  - intros (body & ws & -> & Hne & Hb & Hws).
    destruct body as [|b1 body]; [contradiction|].
    cbn [app is_separator]. rewrite N.eqb_refl.
    inversion Hb as [|? ? Hb1 Hb']; subst. rewrite Hb1. cbn [andb].
    change (b1 :: body ++ ws) with ((b1 :: body) ++ ws).
    rewrite lstrip_by_app by exact Hb.
    apply forallb_forall. apply Forall_forall.
    apply lstrip_by_Forall. exact Hws.
Qed.

Lemma split_not_nil (sep : char) (s : str) : split sep s <> [].
Proof.
  destruct s as [|c s]; cbn [split]; [discriminate|].
  destruct (N.eqb c sep); [discriminate|].
  destruct (split sep s); discriminate.
Qed.

Lemma join_split (sep : char) (s : str) : join [sep] (split sep s) = s.
Proof.
  induction s as [|c s IH]; [reflexivity|].
  cbn [split]. destruct (N.eqb_spec c sep) as [->|Hne].
  - pose proof (split_not_nil sep s) as Hnn.
    destruct (split sep s) as [|cell cells]; [contradiction|].
    cbn [join app]. f_equal. exact IH.
  - pose proof (split_not_nil sep s) as Hnn.
    destruct (split sep s) as [|cell cells]; [contradiction|].
    destruct cells as [|cell' cells].
    + cbn [join] in *. f_equal. exact IH.
    + cbn [join] in *. cbn [app]. f_equal. exact IH.
Qed.

Lemma split_cells_free (sep : char) (s : str) :
  Forall (fun cell => ~ In sep cell) (split sep s).
Proof.
  induction s as [|c s IH]; [repeat constructor; intros []|].
  cbn [split]. destruct (N.eqb_spec c sep) as [->|Hne].
  - constructor; [intros [] | exact IH].
  - destruct (split sep s) as [|cell cells].
    + repeat constructor. intros [H|[]]. congruence.
    + inversion IH as [|? ? Hcell Hcells]; subst. constructor; [|exact Hcells].
      intros [H|H]; [congruence | exact (Hcell H)].
Qed.

(** C7, with the separator syntax as the code has it.  [parse_table]
    answers "not a table" exactly when the block has fewer than three lines
    or its second line is not of the separator syntax (a bar, one or more of
    dash, bar, space and colon, then whitespace only).  Otherwise the headers
    are the cells of the first line and the rows are the cells of every later
    line that starts with a bar once stripped, the other lines being passed
    over.  The cells of a line: strip the line, strip bars from both ends,
    split at the bars, strip every piece. *)
Theorem parse_table_contract (lines : list str) :
  (parse_table lines = None
   <-> length lines < 3 \/ ~ sep_syntax (nth 1 lines []))
  /\ (forall headers rows, parse_table lines = Some (headers, rows) ->
        headers = split_row (nth 0 lines [])
        /\ rows = map split_row (filter is_row_line (skipn 2 lines)))
  /\ (forall line, exists pieces,
        split_row line = map strip pieces
        /\ join [BAR] pieces = strip_chars [BAR] (strip line)
        /\ Forall (fun piece => ~ In BAR piece) pieces).
Proof.
  unfold parse_table. split; [|split].
  - destruct (Nat.ltb_spec (length lines) 3) as [Hlt|Hge].
    + split; [intros _; left; exact Hlt | reflexivity].
    + destruct (is_separator (nth 1 lines [])) eqn:E; cbn [negb].
      * split; [discriminate|]. intros [H|H]; [lia|].
        exfalso. apply H. apply is_separator_syntax. exact E.
      * split; [|reflexivity]. intros _. right. intro H.
        apply is_separator_syntax in H. congruence.
  - intros headers rows.
    destruct (length lines <? 3); [discriminate|].
    destruct (negb (is_separator (nth 1 lines []))); [discriminate|].
    intro H. injection H as <- <-. split; reflexivity.
  - intro line. exists (split BAR (strip_chars [BAR] (strip line))).
    split; [reflexivity|]. split; [apply join_split | apply split_cells_free].
Qed.

(** C7 as worded ("a line consisting only of bars, dashes, colons and
    spaces") does not hold in either direction: a second line that is a lone
    bar is made of the listed characters only, yet the block is not a table;
    and a second line with a tab behind its last bar is accepted, though the
    tab is not among the listed characters. *)
Lemma parse_table_separator_counterexample :
  (only_sep_chars (nth 1 [lit "| a |"; lit "|"; lit "| b |"] []) = true
   /\ parse_table [lit "| a |"; lit "|"; lit "| b |"] = None)
  /\ (only_sep_chars
        (nth 1 [lit "| a |"; lit "|---|" ++ [TAB]; lit "| b |"] []) = false
      /\ parse_table [lit "| a |"; lit "|---|" ++ [TAB]; lit "| b |"]
         = Some ([lit "a"], [[lit "b"]])).
Proof. vm_compute. repeat split. Qed.

Lemma parse_table_contract_witness :
  parse_table [lit "| a |"; lit "|---|"] = None
  /\ [lit "a"; lit "b"] = split_row (lit " | a | b |  ").
Proof.
  split.
  - apply (proj1 (parse_table_contract [lit "| a |"; lit "|---|"])).
    left. cbn [length]. lia.
  - apply (proj1 (proj2 (parse_table_contract
                           [lit " | a | b |  "; lit "|-|-|"; lit "| c | d |"]))
             [lit "a"; lit "b"] [[lit "c"; lit "d"]]).
    reflexivity.
Defined.

(** ** The key normalizer *)

Lemma str_eqb_eq (a b : str) : str_eqb a b = true <-> a = b.
Proof.
  revert b. induction a as [|x a IH]; intros [|y b]; cbn [str_eqb];
    try (split; [discriminate | discriminate]); [split; reflexivity|].
  rewrite andb_true_iff, N.eqb_eq, IH. split.
  - intros [-> ->]. reflexivity.
  - intro H. injection H as -> ->. split; reflexivity.
Qed.

Lemma startswith_app (pre rest : str) : startswith (pre ++ rest) pre = true.
Proof.
  induction pre as [|p pre IH]; [reflexivity|].
  cbn [app startswith]. rewrite N.eqb_refl. exact IH.
Qed.

Lemma startswith_skipn (s pre : str) :
  startswith s pre = true -> s = pre ++ skipn (length pre) s.
Proof.
  revert s. induction pre as [|p pre IH]; intros s H; [reflexivity|].
  destruct s as [|c s]; cbn [startswith] in H; [discriminate|].
  apply andb_prop in H. destruct H as [Hc Hs]. apply N.eqb_eq in Hc. subst c.
  cbn [length skipn app]. f_equal. apply IH. exact Hs.
Qed.

Lemma contains_app (sub a b : str) : contains sub (a ++ sub ++ b) = true.
Proof.
  induction a as [|x a IH].
  - cbn [app]. destruct (sub ++ b) eqn:E; cbn [contains]; rewrite <- E;
      rewrite startswith_app; reflexivity.
  - cbn [app contains]. rewrite IH. apply orb_true_r.
Qed.

Lemma lazy_until_match (close : str) (s : str) :
  forall acc r1 r2,
    lazy_until close acc s = Some (r1, r2)
    <-> exists inner, r1 = acc ++ inner /\ lazy_match close s inner r2.
Proof.
  induction s as [|c s IH]; intros acc r1 r2.
  - cbn [lazy_until]. destruct (startswith [] close) eqn:E.
    + split.
      * intro H. injection H as <- <-. exists []. split; [symmetry; apply app_nil_r|].
        split; [apply (startswith_skipn [] close E)|].
        split; [intros [] | intros; cbn; lia].
      * intros (inner & -> & Hs & _ & Hmin).
        apply startswith_skipn in E.
        specialize (Hmin [] _ E). destruct inner; [|cbn in Hmin; lia].
        rewrite app_nil_r. cbn [app] in Hs.
        rewrite E in Hs at 1. apply app_inv_head in Hs. rewrite Hs. reflexivity.
    + split; [discriminate|].
      intros (inner & _ & Hs & _).
      destruct inner; [|discriminate]. cbn [app] in Hs.
      rewrite Hs, startswith_app in E. discriminate.
  - cbn [lazy_until]. destruct (startswith (c :: s) close) eqn:E.
    + split.
      * intro H. injection H as <- <-. exists []. split; [symmetry; apply app_nil_r|].
        split; [apply (startswith_skipn _ close E)|].
        split; [intros [] | intros; cbn; lia].
      * intros (inner & -> & Hs & _ & Hmin).
        apply startswith_skipn in E.
        specialize (Hmin [] _ E). destruct inner; [|cbn in Hmin; lia].
        rewrite app_nil_r. cbn [app] in Hs.
        rewrite E in Hs at 1. apply app_inv_head in Hs. rewrite Hs. reflexivity.
    + destruct (N.eqb_spec c LF) as [->|Hc].
      * split; [discriminate|].
        intros (inner & _ & Hs & Hnl & _).
        destruct inner as [|x inner].
        -- cbn [app] in Hs. rewrite Hs, startswith_app in E. discriminate.
        -- injection Hs as <- _. exfalso. apply Hnl. left. reflexivity.
      * rewrite IH. split.
        -- intros (inner & -> & Hs & Hnl & Hmin). exists (c :: inner).
           split; [rewrite <- app_assoc; reflexivity|].
           split; [cbn [app]; f_equal; exact Hs|].
           split.
           ++ intros [H|H]; [congruence | exact (Hnl H)].
           ++ intros inner' rest' H'. destruct inner' as [|x inner'].
              ** cbn [app] in H'. rewrite H', startswith_app in E. discriminate.
              ** injection H' as _ H'. cbn [length].
                 specialize (Hmin _ _ H'). lia.
        -- intros (inner & -> & Hs & Hnl & Hmin).
           destruct inner as [|x inner].
           ++ cbn [app] in Hs. rewrite Hs, startswith_app in E. discriminate.
           ++ injection Hs as <- Hs. exists inner.
              split; [rewrite <- app_assoc; reflexivity|].
              split; [exact Hs|]. split.
              ** intro H. apply Hnl. right. exact H.
              ** intros inner' rest' H'.
                 specialize (Hmin (c :: inner') rest').
                 cbn [app length] in Hmin. rewrite H' in Hmin.
                 specialize (Hmin eq_refl). lia.
Qed.

Lemma app_same_length (a b x y : str) :
  a ++ x = b ++ y -> length a = length b -> a = b /\ x = y.
Proof.
  revert b. induction a as [|c a IH]; intros [|d b] H L;
    cbn [length] in L; try discriminate; [split; [reflexivity | exact H]|].
  cbn [app] in H. injection H as -> H. injection L as L.
  destruct (IH b H L) as [-> ->]. split; reflexivity.
Qed.

Lemma firstn_length_app (a b : str) :
  firstn (length (a ++ b) - length b) (a ++ b) = a.
Proof.
  rewrite length_app.
  replace (length a + length b - length b) with (length a + 0) by lia.
  rewrite firstn_app_2. cbn [firstn]. apply app_nil_r.
Qed.

Lemma lstrip_by_firstn (p : char -> bool) (s : str) :
  s = firstn (length s - length (lstrip_by p s)) s ++ lstrip_by p s
  /\ Forall (fun c => p c = true)
            (firstn (length s - length (lstrip_by p s)) s).
Proof.
  destruct (lstrip_by_split p s) as (body & Hs & Hb).
  remember (lstrip_by p s) as l eqn:El. clear El. subst s.
  rewrite firstn_length_app. split; [reflexivity | exact Hb].
Qed.

Lemma match_bad_key_iff (s indent inner rest : str) :
  match_bad_key s = Some (indent, inner, rest)
  <-> bad_key_at s indent inner rest.
Proof.
  unfold match_bad_key, bad_key_at.
  destruct (lstrip_by_firstn isspace s) as [Hs Hsp].
  set (ind := firstn (length s - length (lstrip_by isspace s)) s) in *.
  split.
  - destruct ind as [|i0 ind'] eqn:Eind; cbn [is_empty]; [discriminate|].
    destruct (startswith (lstrip_by isspace s) KEY_OPEN) eqn:Eopen;
      [|discriminate].
    destruct (lazy_until KEY_CLOSE [] (skipn (length KEY_OPEN) (lstrip_by isspace s)))
      as [[inner0 rest0]|] eqn:El; [|discriminate].
    intro H. injection H as <- <- <-.
    apply lazy_until_match in El. destruct El as (inner1 & -> & Hl).
    exists (skipn (length KEY_OPEN) (lstrip_by isspace s)).
    split; [|split; [discriminate | split; [exact Hsp | exact Hl]]].
    rewrite <- (startswith_skipn _ _ Eopen). exact Hs.
  - intros (after & Hs' & Hne & Hind & Hl).
    assert (Er : lstrip_by isspace s = KEY_OPEN ++ after).
    { rewrite Hs'. rewrite lstrip_by_app by exact Hind. reflexivity. }
    assert (Ei : ind = indent).
    { subst ind. rewrite Er. clear Hs Hsp Er. subst s.
      apply firstn_length_app. }
    rewrite Ei, Er. destruct indent as [|i0 indent']; [contradiction|].
    cbn [is_empty]. rewrite startswith_app.
    change (skipn (length KEY_OPEN) (KEY_OPEN ++ after)) with after.
    destruct (lazy_until KEY_CLOSE [] after) as [[inner0 rest0]|] eqn:El.
    + apply lazy_until_match in El. destruct El as (inner1 & -> & Hl1).
      cbn [app].
      assert (inner1 = inner /\ rest0 = rest) as [-> ->]; [|reflexivity].
      destruct Hl as (Ha & _ & Hmin), Hl1 as (Ha1 & _ & Hmin1).
      pose proof (Hmin _ _ Ha1) as L1. pose proof (Hmin1 _ _ Ha) as L2.
      assert (L : length inner1 = length inner) by lia.
      rewrite Ha1 in Ha.
      destruct (app_same_length _ _ _ _ Ha L) as [-> Ha'].
      apply app_inv_head in Ha'.
      split; [reflexivity | exact Ha'].
    + exfalso.
      assert (H : exists inner1, inner = [] ++ inner1
                                 /\ lazy_match KEY_CLOSE after inner1 rest)
        by (exists inner; split; [reflexivity | exact Hl]).
      apply lazy_until_match in H. congruence.
Qed.

Lemma match_bad_key_shorter (s indent inner rest : str) :
  match_bad_key s = Some (indent, inner, rest) -> length rest < length s.
Proof.
  intro H. apply match_bad_key_iff in H.
  destruct H as (after & -> & _ & _ & -> & _).
  rewrite !length_app. cbn [length KEY_OPEN lit map list_ascii_of_string]. lia.
Qed.

Lemma match_bad_key_contains (s indent inner rest : str) :
  match_bad_key s = Some (indent, inner, rest) ->
  contains KEY_OPEN s = true.
Proof.
  intro H. apply match_bad_key_iff in H.
  destruct H as (after & -> & _). apply contains_app.
Qed.

Lemma sub_bad_keys_fuel (f1 : nat) :
  forall f2 bol s, length s <= f1 -> length s <= f2 ->
    sub_bad_keys f1 bol s = sub_bad_keys f2 bol s.
Proof.
  induction f1 as [|f1 IH]; intros f2 bol s H1 H2.
  - destruct s; [|cbn in H1; lia]. destruct f2; reflexivity.
  - destruct s as [|c s]; [destruct f2; reflexivity|].
    destruct f2 as [|f2]; [cbn in H2; lia|].
    cbn [sub_bad_keys length] in *.
    destruct (if bol then match_bad_key (c :: s) else None)
      as [[[indent inner] rest]|] eqn:E.
    + assert (L : length rest < length (c :: s)).
      { destruct bol; [|discriminate].
        eapply match_bad_key_shorter. exact E. }
      cbn [length] in L. f_equal. apply IH; lia.
    + f_equal. apply IH; lia.
Qed.

Lemma scan_keys_match (s indent inner rest : str) :
  bad_key_at s indent inner rest ->
  scan_keys true s = fix_key indent inner ++ scan_keys false rest.
Proof.
  intro H. apply match_bad_key_iff in H.
  pose proof (match_bad_key_shorter _ _ _ _ H) as L.
  unfold scan_keys. destruct s as [|c s]; [cbn in L; lia|].
  cbn [length sub_bad_keys]. rewrite H. f_equal.
  apply sub_bad_keys_fuel; cbn [length] in L; lia.
Qed.

Lemma scan_keys_step (bol : bool) (c : char) (s : str) :
  bol = false \/ (forall indent inner rest,
                    ~ bad_key_at (c :: s) indent inner rest) ->
  scan_keys bol (c :: s) = c :: scan_keys (N.eqb c LF) s.
Proof.
  intro H. unfold scan_keys. cbn [length sub_bad_keys].
  destruct (if bol then match_bad_key (c :: s) else None)
    as [[[indent inner] rest]|] eqn:E; [|reflexivity].
  exfalso. destruct H as [->|H]; [discriminate|].
  destruct bol; [|discriminate].
  apply match_bad_key_iff in E. exact (H _ _ _ E).
Qed.

Lemma sub_bad_keys_no_marker (s : str) :
  contains KEY_OPEN s = false ->
  forall fuel bol, sub_bad_keys fuel bol s = s.
Proof.
  induction s as [|c s IH]; intros H fuel bol.
  - destruct fuel; reflexivity.
  - destruct fuel as [|fuel]; [reflexivity|]. cbn [sub_bad_keys].
    destruct (if bol then match_bad_key (c :: s) else None)
      as [[[indent inner] rest]|] eqn:E.
    + destruct bol; [|discriminate].
      apply match_bad_key_contains in E. congruence.
    + f_equal. apply IH. cbn [contains] in H.
      apply orb_false_elim in H. exact (proj2 H).
Qed.

Lemma fix_key_escaped (indent inner : str) :
  fix_key indent inner
  = indent ++ [DQUOTE]
    ++ flat_map backslash_quote (replace [BACKSLASH; BACKTICK] [] inner)
    ++ [DQUOTE; COLON].
Proof. unfold fix_key. rewrite replace_char. reflexivity. Qed.

(** C9.  The key normalizer rewrites every match of the malformed-key
    pattern, taken from the left at line starts, into the indentation, the
    double-quoted key and the colon, the key being the captured text with the
    escaped backticks removed and then every double quote given a backslash;
    elsewhere the text is copied.  A text without the marker [{`] is skipped
    (and the rewriting would not change it); the file is written exactly when
    the rewritten text differs, and the written text is the rewritten one. *)
Theorem key_normalizer_contract (text : str) :
  fix_keys_text text = scan_keys true text
  /\ (forall s indent inner rest, bad_key_at s indent inner rest ->
        scan_keys true s
        = indent ++ [DQUOTE]
          ++ flat_map backslash_quote (replace [BACKSLASH; BACKTICK] [] inner)
          ++ [DQUOTE; COLON] ++ scan_keys false rest)
  /\ (forall bol c s,
        bol = false \/ (forall indent inner rest,
                          ~ bad_key_at (c :: s) indent inner rest) ->
        scan_keys bol (c :: s) = c :: scan_keys (N.eqb c LF) s)
  /\ (contains KEY_OPEN text = false ->
        fix_file text = None /\ fix_keys_text text = text)
  /\ (forall new_text,
        fix_file text = Some new_text
        <-> contains KEY_OPEN text = true
            /\ new_text = fix_keys_text text /\ new_text <> text).
Proof.
  split; [reflexivity|]. split; [|split; [|split]].
  - intros s indent inner rest H.
    rewrite (scan_keys_match _ _ _ _ H), fix_key_escaped, <- !app_assoc. reflexivity.
  - intros bol c s H. apply scan_keys_step. exact H.
  - intro H. unfold fix_file. rewrite H. split; [reflexivity|].
    apply sub_bad_keys_no_marker. exact H.
  - intro new_text. unfold fix_file.
    destruct (contains KEY_OPEN text); cbn [negb].
    + destruct (str_eqb (fix_keys_text text) text) eqn:E; cbn [negb].
      * apply str_eqb_eq in E. split; [discriminate|].
        intros (_ & -> & H). contradiction.
      * split.
        -- intro H. injection H as <-. split; [reflexivity|].
           split; [reflexivity|]. intro H. apply str_eqb_eq in H. congruence.
        -- intros (_ & -> & _). reflexivity.
    + split; [discriminate | intros [H _]; discriminate].
Qed.

Lemma key_normalizer_contract_witness :
  scan_keys true (lit "  {`a`}: {")
  = lit "  " ++ [DQUOTE]
    ++ flat_map backslash_quote (replace [BACKSLASH; BACKTICK] [] (lit "a"))
    ++ [DQUOTE; COLON] ++ scan_keys false (lit " {")
  /\ fix_file (lit "plain text") = None.
Proof.
  split.
  - apply (proj1 (proj2 (key_normalizer_contract []))).
    exists (lit "a`}: {"). split; [reflexivity|].
    split; [discriminate|]. split; [repeat constructor|].
    destruct (proj1 (lazy_until_match KEY_CLOSE (lit "a`}: {") []
                       (lit "a") (lit " {")) eq_refl) as (inner & E & Hl).
    cbn [app] in E. subst inner. exact Hl.
  - apply (proj1 (proj2 (proj2 (proj2 (key_normalizer_contract
                                         (lit "plain text")))))).
    reflexivity.
Defined.

(** ** Lines of a text *)

Lemma splitlines_cases (P : str -> list str -> Prop) :
  P [] [] ->
  (forall s, P s (splitlines s) ->
     P (CR :: LF :: s) ([CR; LF] :: splitlines s)) ->
  (forall s, startswith s [LF] = false -> P s (splitlines s) ->
     P (CR :: s) ([CR] :: splitlines s)) ->
  (forall c s, is_linebreak c = true -> c <> CR -> P s (splitlines s) ->
     P (c :: s) ([c] :: splitlines s)) ->
  (forall c s, is_linebreak c = false -> P s (splitlines s) ->
     P (c :: s) (match splitlines s with
                 | l :: ls => (c :: l) :: ls
                 | [] => [[c]]
                 end)) ->
  forall s, P s (splitlines s).
Proof.
  intros Hnil Hcrlf Hcr Hbr Hreg s.
  assert (G : forall n (t : str), length t <= n -> P t (splitlines t)).
  { induction n as [|n IH]; intros t Hn.
    - destruct t; [exact Hnil | cbn in Hn; lia].
    - destruct t as [|c t]; [exact Hnil|]. cbn [length] in Hn.
      cbn [splitlines]. destruct (N.eqb_spec c CR) as [->|Hc].
      + destruct t as [|c' t].
        * apply (Hcr []); [reflexivity | exact Hnil].
        * destruct (N.eqb_spec c' LF) as [->|Hc'].
          -- apply Hcrlf. apply IH. cbn [length] in Hn. lia.
          -- apply Hcr; [|apply IH; lia].
             cbn [startswith]. apply N.eqb_neq in Hc'. rewrite Hc'. reflexivity.
      + destruct (is_linebreak c) eqn:E.
        * apply Hbr; [exact E | exact Hc | apply IH; lia].
        * apply Hreg; [exact E | apply IH; lia]. }
  apply (G (length s)). lia.
Qed.

Lemma splitlines_cons (c : char) (s : str) :
  splitlines (c :: s) =
    if N.eqb c CR then
      match s with
      | c' :: s'' =>
          if N.eqb c' LF then [c; c'] :: splitlines s''
          else [c] :: splitlines s
      | [] => [[c]]
      end
    else if is_linebreak c then [c] :: splitlines s
    else match splitlines s with
         | l :: ls => (c :: l) :: ls
         | [] => [[c]]
         end.
Proof. reflexivity. Qed.

Lemma splitlines_not_nil (s : str) : s <> [] -> splitlines s <> [].
Proof.
  apply (splitlines_cases (fun s r => s <> [] -> r <> [])); try discriminate.
  - intro H. contradiction.
  - intros c t _ _ _. destruct (splitlines t); discriminate.
Qed.

Lemma concat_splitlines (s : str) : concat (splitlines s) = s.
Proof.
  apply (splitlines_cases (fun s r => concat r = s)).
  - reflexivity.
  - intros t IH. cbn [concat app]. rewrite IH. reflexivity.
  - intros t _ IH. cbn [concat app]. rewrite IH. reflexivity.
  - intros c t _ _ IH. cbn [concat app]. rewrite IH. reflexivity.
  - intros c t _ IH. destruct (splitlines t) as [|l ls].
    + cbn [concat] in IH. subst t. reflexivity.
    + cbn [concat app] in *. rewrite IH. reflexivity.
Qed.

Lemma last_char_cons (c : char) (x : str) :
  x <> [] -> last_char (c :: x) = last_char x.
Proof. destruct x; [contradiction | reflexivity]. Qed.

Lemma last_char_app (x y : str) : y <> [] -> last_char (x ++ y) = last_char y.
Proof.
  intro H. unfold last_char. induction x as [|c x IH]; [reflexivity|].
  cbn [app]. destruct (x ++ y) eqn:E; [|exact IH].
  apply app_eq_nil in E. destruct E. contradiction.
Qed.

(** Splitting a text behind a chunk that ends a line. *)
Lemma splitlines_app (x y : str) :
  x <> [] -> ok_end x (hd_error y) ->
  splitlines (x ++ y) = splitlines x ++ splitlines y.
Proof.
  destruct y as [|d y].
  { intros _ _. rewrite app_nil_r. cbn [splitlines]. symmetry. apply app_nil_r. }
  cbn [hd_error ok_end]. revert x.
  assert (G : forall n (x : str), length x <= n -> x <> [] ->
              is_linebreak (last_char x) = true /\
              ~ (last_char x = CR /\ d = LF) ->
              splitlines (x ++ d :: y) = splitlines x ++ splitlines (d :: y)).
  { induction n as [|n IH]; intros x Hn Hne [Hbr Hglue].
    { destruct x; [contradiction | cbn in Hn; lia]. }
    destruct x as [|c x]; [contradiction|]. cbn [length] in Hn.
    destruct x as [|c' x].
    - (* the last character of the chunk *)
      cbn [last_char last] in Hbr, Hglue. cbn [app splitlines].
      destruct (N.eqb_spec c CR) as [->|Hc].
      + destruct (N.eqb_spec d LF) as [->|Hd]; [exfalso; auto | reflexivity].
      + rewrite Hbr. reflexivity.
    - assert (Hl : last_char (c :: c' :: x) = last_char (c' :: x))
        by (apply last_char_cons; discriminate).
      rewrite Hl in Hbr, Hglue.
      change ((c :: c' :: x) ++ d :: y) with (c :: c' :: (x ++ d :: y)).
      assert (R : splitlines (c' :: x ++ d :: y)
                  = splitlines (c' :: x) ++ splitlines (d :: y)).
      { change (c' :: x ++ d :: y) with ((c' :: x) ++ d :: y).
        apply IH; [cbn [length] in *; lia | discriminate | split; assumption]. }
      rewrite (splitlines_cons c (c' :: x ++ d :: y)).
      rewrite (splitlines_cons c (c' :: x)).
      destruct (N.eqb_spec c CR) as [->|Hc].
      + destruct (N.eqb_spec c' LF) as [->|Hc'].
        * destruct x as [|c'' x]; [reflexivity|].
          change (([CR; LF] :: splitlines (c'' :: x)) ++ splitlines (d :: y))
            with ([CR; LF] :: splitlines (c'' :: x) ++ splitlines (d :: y)).
          f_equal.
          apply IH; [cbn [length] in *; lia | discriminate|].
          rewrite <- (last_char_cons LF) by discriminate. split; assumption.
        * rewrite <- app_comm_cons. f_equal. exact R.
      + destruct (is_linebreak c).
        * rewrite <- app_comm_cons. f_equal. exact R.
        * rewrite R.
          pose proof (splitlines_not_nil (c' :: x)) as Hnn.
          destruct (splitlines (c' :: x)) as [|l ls];
            [exfalso; apply Hnn; [discriminate | reflexivity]|].
          reflexivity. }
  intros x Hne H. apply (G (length x)); [lia | exact Hne | exact H].
Qed.

Lemma linebreak_not_regular (c : char) :
  is_linebreak c = false -> N.eqb c CR = false.
Proof.
  intro H. destruct (N.eqb_spec c CR) as [->|]; [discriminate | reflexivity].
Qed.

Lemma linebreak_not_bar (c : char) :
  is_linebreak c = true -> N.eqb c BAR = false.
Proof.
  intro H. destruct (N.eqb_spec c BAR) as [->|]; [discriminate | reflexivity].
Qed.

(** Every line of a text is one line. *)
Lemma splitlines_single (s : str) :
  Forall (fun l => splitlines l = [l]) (splitlines s).
Proof.
  apply (splitlines_cases (fun _ r => Forall (fun l => splitlines l = [l]) r)).
  - constructor.
  - intros t IH. constructor; [reflexivity | exact IH].
  - intros t _ IH. constructor; [reflexivity | exact IH].
  - intros c t Hbr Hc IH. constructor; [|exact IH].
    rewrite splitlines_cons. apply N.eqb_neq in Hc. rewrite Hc, Hbr. reflexivity.
  - intros c t Hbr IH. destruct (splitlines t) as [|l ls].
    + repeat constructor. rewrite splitlines_cons.
      rewrite (linebreak_not_regular c Hbr), Hbr. reflexivity.
    + inversion IH as [|? ? Hl Hls]; subst. constructor; [|exact Hls].
      rewrite splitlines_cons.
      rewrite (linebreak_not_regular c Hbr), Hbr, Hl. reflexivity.
Qed.

Lemma first_of_splitlines (s : str) : first_of (splitlines s) None = hd_error s.
Proof.
  apply (splitlines_cases (fun s r => first_of r None = hd_error s));
    try reflexivity.
  intros c t _ _. destruct (splitlines t); reflexivity.
Qed.

Lemma ok_end_LF (x : str) (nx : option char) :
  last_char x = LF -> ok_end x nx.
Proof.
  intro H. destruct nx as [c|]; [|exact I]. cbn [ok_end]. rewrite H.
  split; [reflexivity | intros [E _]; discriminate].
Qed.

(** The lines of a text are chunks. *)
Lemma chunked_splitlines (s : str) : chunked (splitlines s) None.
Proof.
  apply (splitlines_cases (fun _ r => chunked r None)).
  - exact I.
  - intros t IH. cbn [chunked]. split; [discriminate|]. split; [|exact IH].
    apply ok_end_LF. reflexivity.
  - intros t Hlf IH. cbn [chunked]. split; [discriminate|]. split; [|exact IH].
    rewrite first_of_splitlines. destruct t as [|c t]; [exact I|].
    cbn [hd_error ok_end]. split; [reflexivity|].
    intros [_ ->]. discriminate.
  - intros c t Hbr Hc IH. cbn [chunked]. split; [discriminate|].
    split; [|exact IH]. destruct (first_of (splitlines t) None); [|exact I].
    cbn [ok_end last_char last]. split; [exact Hbr|]. intros [E _]. auto.
  - intros c t _ IH. destruct (splitlines t) as [|l ls].
    + cbn. split; [discriminate | auto].
    + cbn [chunked] in *. destruct IH as (Hl & Hok & Hls).
      split; [discriminate|]. split; [|exact Hls].
      destruct (first_of ls None); [|exact I]. cbn [ok_end] in *.
      rewrite (last_char_cons c l Hl). exact Hok.
Qed.

Lemma first_of_app (a b : list str) (nx : option char) :
  first_of (a ++ b) nx = first_of a (first_of b nx).
Proof. destruct a; reflexivity. Qed.

Lemma chunked_app (a b : list str) (nx : option char) :
  chunked (a ++ b) nx <-> chunked a (first_of b nx) /\ chunked b nx.
Proof.
  induction a as [|x a IH]; cbn [app chunked]; [tauto|].
  rewrite IH, first_of_app. tauto.
Qed.

Lemma hd_error_concat (cs : list str) (nx : option char) :
  chunked cs nx -> hd_error (concat cs) = first_of cs None.
Proof.
  destruct cs as [|x rest]; [reflexivity|]. cbn [chunked concat first_of].
  intros (Hx & _). destruct x; [contradiction | reflexivity].
Qed.

(** The lines of a text made of chunks are the lines of its chunks. *)
Lemma splitlines_concat (cs : list str) :
  chunked cs None -> splitlines (concat cs) = flat_map splitlines cs.
Proof.
  induction cs as [|x rest IH]; [reflexivity|].
  cbn [chunked concat flat_map]. intros (Hx & Hok & Hrest).
  rewrite splitlines_app; [rewrite IH by exact Hrest; reflexivity | exact Hx|].
  rewrite (hd_error_concat rest None Hrest). exact Hok.
Qed.

(** Lines not starting with a bar. *)
Lemma is_bar_cons (c : char) (l : str) : is_bar (c :: l) = N.eqb c BAR.
Proof. unfold is_bar. cbn [startswith]. apply andb_true_r. Qed.

Lemma bar_free_starts_lines (s : str) :
  (bar_free_starts true s = true
   <-> Forall (fun l => is_bar l = false) (splitlines s))
  /\ (bar_free_starts false s = true
      <-> Forall (fun l => is_bar l = false) (tl (splitlines s))).
Proof.
  apply (splitlines_cases
           (fun s r =>
              (bar_free_starts true s = true
               <-> Forall (fun l => is_bar l = false) r)
              /\ (bar_free_starts false s = true
                  <-> Forall (fun l => is_bar l = false) (tl r)))).
  - split; split; intros; [constructor | reflexivity | constructor | reflexivity].
  - intros t [IH _]. cbn [tl].
    change (bar_free_starts true (CR :: LF :: t))
      with (bar_free_starts true t).
    change (bar_free_starts false (CR :: LF :: t))
      with (bar_free_starts true t).
    split; [|exact IH]. rewrite IH. split.
    + intro H. constructor; [reflexivity | exact H].
    + intro H. inversion H; assumption.
  - intros t _ [IH _]. cbn [tl].
    change (bar_free_starts true (CR :: t)) with (bar_free_starts true t).
    change (bar_free_starts false (CR :: t)) with (bar_free_starts true t).
    split; [|exact IH]. rewrite IH. split.
    + intro H. constructor; [reflexivity | exact H].
    + intro H. inversion H; assumption.
  - intros c t Hbr _ [IH _]. cbn [tl bar_free_starts].
    rewrite Hbr, (linebreak_not_bar c Hbr), andb_false_r. cbn [negb andb].
    split; [|exact IH]. rewrite IH. split.
    + intro H. constructor; [|exact H].
      rewrite is_bar_cons. apply linebreak_not_bar. exact Hbr.
    + intro H. inversion H; assumption.
  - intros c t Hbr [_ IH]. cbn [bar_free_starts]. rewrite Hbr.
    cbn [andb negb]. destruct (splitlines t) as [|l ls]; cbn [tl] in *.
    + split.
      * rewrite andb_true_iff, IH. split.
        -- intros [Hc _]. constructor; [|constructor].
           rewrite is_bar_cons. apply negb_true_iff. exact Hc.
        -- intro H. inversion H as [|? ? Hc _]; subst.
           rewrite is_bar_cons in Hc. rewrite Hc. split; [reflexivity|constructor].
      * rewrite IH. split; constructor.
    + split.
      * rewrite andb_true_iff, IH. split.
        -- intros [Hc Hls]. constructor; [|exact Hls].
           rewrite is_bar_cons. apply negb_true_iff. exact Hc.
        -- intro H. inversion H as [|? ? Hc Hls]; subst.
           rewrite is_bar_cons in Hc. rewrite Hc. split; [reflexivity|exact Hls].
      * exact IH.
Qed.

Lemma bar_free_starts_app (b : bool) (x y : str) :
  bar_free_starts b (x ++ y)
  = bar_free_starts b x
    && bar_free_starts
         (match x with [] => b | _ => is_linebreak (last_char x) end) y.
Proof.
  revert b. induction x as [|c x IH]; intro b; [reflexivity|].
  cbn [app bar_free_starts]. rewrite IH, <- andb_assoc. f_equal. f_equal.
  destruct x as [|c' x]; [reflexivity|].
  rewrite (last_char_cons c) by discriminate. reflexivity.
Qed.

Lemma bar_free_starts_free (b : bool) (x : str) :
  bar_free x = true -> bar_free_starts b x = true.
Proof.
  revert b. induction x as [|c x IH]; intros b H; [reflexivity|].
  cbn [bar_free forallb] in H. apply andb_prop in H. destruct H as [Hc Hx].
  cbn [bar_free_starts]. unfold not_bar in Hc. apply negb_true_iff in Hc.
  rewrite Hc, andb_false_r.
  apply IH. exact Hx.
Qed.

(** ** Locating and replacing the blocks *)

Lemma is_bar_rstrip_nl (l : str) : is_bar (rstrip_nl l) = is_bar l.
Proof.
  destruct l as [|c l]; [reflexivity|].
  unfold rstrip_nl, rstrip_chars. cbn [rstrip_by].
  destruct (rstrip_by (in_chars [LF]) l) as [|c' r].
  - destruct (in_chars [LF] c) eqn:E.
    + unfold in_chars in E. cbn [existsb] in E. rewrite orb_false_r in E.
      apply N.eqb_eq in E. subst c. reflexivity.
    + rewrite !is_bar_cons. reflexivity.
  - rewrite !is_bar_cons. reflexivity.
Qed.

Lemma groups_run (l : str) (rest : list str) :
  is_bar l = true ->
  groups (l :: rest) = Run (l :: take_bars rest) :: groups (drop_bars rest).
Proof.
  revert l. induction rest as [|l2 rest IH]; intros l Hl.
  - cbn [groups]. rewrite Hl. reflexivity.
  - change (groups (l :: l2 :: rest))
      with (if is_bar l
            then match groups (l2 :: rest) with
                 | Run r :: g => Run (l :: r) :: g
                 | g => Run [l] :: g
                 end
            else Other l :: groups (l2 :: rest)).
    rewrite Hl. cbn [take_bars drop_bars].
    destruct (is_bar l2) eqn:E2.
    + rewrite (IH l2 E2). reflexivity.
    + cbn [groups]. rewrite E2. reflexivity.
Qed.

Lemma flatten_groups (lines : list str) : flatten (groups lines) = lines.
Proof.
  induction lines as [|l rest IH]; [reflexivity|].
  cbn [groups]. destruct (is_bar l).
  - unfold flatten in *. destruct (groups rest) as [|[r|l'] g];
      cbn [flat_map item_lines app] in *; rewrite <- IH; reflexivity.
  - unfold flatten in *. cbn [flat_map item_lines app]. rewrite IH. reflexivity.
Qed.

Lemma grouped_groups (lines : list str) : grouped (groups lines).
Proof.
  induction lines as [|l rest IH]; [exact I|].
  cbn [groups]. destruct (is_bar l) eqn:E.
  - destruct (groups rest) as [|[r|l'] g]; cbn [grouped] in *.
    + repeat split; [discriminate | cbn [forallb]; rewrite E; reflexivity].
    + destruct IH as (Hr & Hall & Hadj & Hg).
      repeat split; [discriminate | cbn [forallb]; rewrite E; exact Hall
                    | exact Hadj | exact Hg].
    + repeat split; [discriminate | cbn [forallb]; rewrite E; reflexivity
                    | apply IH | apply IH].
  - cbn [grouped]. split; [exact E | exact IH].
Qed.

Lemma run_end_take (lines : list str) (i : nat) :
  run_end (map rstrip_nl lines) i = i + length (take_bars lines).
Proof.
  revert i. induction lines as [|l rest IH]; intro i; cbn [map run_end take_bars].
  - cbn. lia.
  - fold (is_bar (rstrip_nl l)). rewrite is_bar_rstrip_nl.
    destruct (is_bar l); [rewrite IH; cbn [length]; lia | cbn; lia].
Qed.

Lemma skipn_take_bars (lines : list str) :
  skipn (length (take_bars lines)) lines = drop_bars lines.
Proof.
  induction lines as [|l rest IH]; [reflexivity|].
  cbn [take_bars drop_bars]. destruct (is_bar l); [exact IH | reflexivity].
Qed.

Lemma skipn_nth_error (lines : list str) (i : nat) (l : str) :
  nth_error lines i = Some l -> skipn i lines = l :: skipn (S i) lines.
Proof.
  revert i. induction lines as [|x rest IH]; intros [|i] H;
    cbn [nth_error] in H; try discriminate.
  - injection H as ->. reflexivity.
  - cbn [skipn]. rewrite (IH i H). reflexivity.
Qed.

(** The locator finds the runs of the grouped lines; [length lines] turns of
    its loop are enough. *)
Lemma find_blocks_groups (fuel : nat) :
  forall (lines : list str) (i : nat),
    length lines <= i + fuel ->
    find_blocks_from fuel (map rstrip_nl lines) i
    = blocks_of (groups (skipn i lines)) i.
Proof.
  induction fuel as [|fuel IH]; intros lines i H.
  - rewrite skipn_all2 by lia. reflexivity.
  - cbn [find_blocks_from]. rewrite nth_error_map.
    destruct (nth_error lines i) as [l|] eqn:E; cbn [option_map].
    + pose proof (skipn_nth_error lines i l E) as Hs.
      assert (Hlen : i < length lines)
        by (apply nth_error_Some; congruence).
      fold (is_bar (rstrip_nl l)). rewrite is_bar_rstrip_nl.
      destruct (is_bar l) eqn:Hb.
      * rewrite skipn_map, run_end_take, Hs.
        cbn [take_bars]. rewrite Hb. rewrite (groups_run l _ Hb).
        cbn [blocks_of length]. f_equal.
        rewrite IH by (cbn [length]; lia). f_equal. f_equal.
        replace (i + S (length (take_bars (skipn (S i) lines))))
          with (length (take_bars (skipn (S i) lines)) + S i) by lia.
        rewrite <- skipn_skipn. apply skipn_take_bars.
      * rewrite Hs. cbn [groups]. rewrite Hb. cbn [blocks_of].
        apply IH. lia.
    + apply nth_error_None in E. rewrite skipn_all2 by lia. reflexivity.
Qed.

Lemma find_table_blocks_groups (lines : list str) :
  find_table_blocks (map rstrip_nl lines) = blocks_of (groups lines) 0.
Proof.
  unfold find_table_blocks. rewrite length_map.
  rewrite find_blocks_groups by lia. reflexivity.
Qed.

Lemma slice_run (pre r post : list str) :
  slice (pre ++ r ++ post) (length pre) (length pre + length r) = r.
Proof.
  unfold slice. rewrite skipn_app, skipn_all, Nat.sub_diag. cbn [app skipn].
  replace (length pre + length r - length pre) with (length r + 0) by lia.
  rewrite firstn_app_2. cbn [firstn]. apply app_nil_r.
Qed.

Lemma slice_assign_run (pre r post new : list str) :
  slice_assign (pre ++ r ++ post) (length pre) (length pre + length r) new
  = pre ++ new ++ post.
Proof.
  unfold slice_assign.
  rewrite firstn_app, firstn_all, Nat.sub_diag. cbn [firstn].
  rewrite app_nil_r. f_equal. f_equal.
  replace (Nat.max (length pre) (length pre + length r))
    with (length pre + length r) by lia.
  rewrite app_assoc, skipn_app, length_app.
  rewrite skipn_all2 by (rewrite length_app; lia).
  rewrite Nat.sub_diag. reflexivity.
Qed.

(** The loop over the blocks, last block first, renders every item. *)
Lemma replace_blocks_items (g : list item) :
  forall pre : list str,
    replace_blocks (pre ++ flatten g) (blocks_of g (length pre))
    = (pre ++ flat_map render g, existsb convertible g).
Proof.
  unfold replace_blocks.
  induction g as [|[r|l] g IH]; intro pre.
  - reflexivity.
  - cbn [blocks_of rev]. rewrite fold_left_app. cbn [fold_left].
    unfold flatten in *. cbn [flat_map item_lines].
    specialize (IH (pre ++ r)). rewrite length_app, <- !app_assoc in IH.
    rewrite IH. cbn [block_step].
    rewrite slice_run. cbn [existsb convertible render].
    destruct (convert_block (map rstrip_nl r)) as [jsx|].
    + rewrite slice_assign_run. reflexivity.
    + reflexivity.
  - cbn [blocks_of]. unfold flatten in *. cbn [flat_map item_lines app].
    specialize (IH (pre ++ [l])). rewrite length_app, <- !app_assoc in IH.
    cbn [length app] in IH. rewrite Nat.add_1_r in IH. rewrite IH.
    cbn [existsb convertible render app orb]. reflexivity.
Qed.

Lemma blocks_of_nil (g : list item) (i : nat) :
  blocks_of g i = [] -> existsb convertible g = false.
Proof.
  revert i. induction g as [|[r|l] g IH]; intros i H.
  - reflexivity.
  - discriminate.
  - cbn [blocks_of] in H. cbn [existsb convertible orb]. exact (IH _ H).
Qed.

(** [convert_file] in terms of the grouped lines. *)
Lemma convert_file_items (content : str) :
  convert_file content =
    if existsb convertible (groups (splitlines content))
    then Some (concat
                 (if negb (contains (strip IMPORT_LINE) content)
                  then add_import
                         (flat_map render (groups (splitlines content)))
                  else flat_map render (groups (splitlines content))))
    else None.
Proof.
  unfold convert_file. rewrite find_table_blocks_groups.
  pose proof (replace_blocks_items (groups (splitlines content)) []) as R.
  cbn [app length] in R. rewrite flatten_groups in R.
  destruct (blocks_of (groups (splitlines content)) 0) as [|b bs] eqn:E.
  - rewrite (blocks_of_nil _ _ E). reflexivity.
  - rewrite R.
    destruct (existsb convertible (groups (splitlines content)));
      reflexivity.
Qed.

(** ** The generated fragment holds no bar *)

Section CharsKept.
(** A property of characters that every string function of the scripts
    keeps: they only drop, reorder by copying, or add fixed text. *)
Variable P : char -> bool.

Lemma all_app (a b : str) : forallb P (a ++ b) = forallb P a && forallb P b.
Proof. apply forallb_app. Qed.

Lemma all_skipn (n : nat) (s : str) :
  forallb P s = true -> forallb P (skipn n s) = true.
Proof.
  revert s. induction n as [|n IH]; intros s H; [exact H|].
  destruct s as [|c s]; [reflexivity|]. cbn [skipn]. apply IH.
  cbn [forallb] in H. apply andb_prop in H. tauto.
Qed.

Lemma all_lstrip (p : char -> bool) (s : str) :
  forallb P s = true -> forallb P (lstrip_by p s) = true.
Proof.
  induction s as [|c s IH]; intro H; [reflexivity|].
  cbn [lstrip_by]. destruct (p c); [|exact H].
  apply IH. cbn [forallb] in H. apply andb_prop in H. tauto.
Qed.

Lemma all_rstrip (p : char -> bool) (s : str) :
  forallb P s = true -> forallb P (rstrip_by p s) = true.
Proof.
  induction s as [|c s IH]; intro H; [reflexivity|].
  cbn [forallb] in H. apply andb_prop in H. destruct H as [Hc Hs].
  cbn [rstrip_by]. specialize (IH Hs).
  destruct (rstrip_by p s) as [|c' r].
  - destruct (p c); [reflexivity | cbn [forallb]; rewrite Hc; reflexivity].
  - cbn [forallb] in *. rewrite Hc. exact IH.
Qed.

Lemma all_strip (s : str) : forallb P s = true -> forallb P (strip s) = true.
Proof. intro H. apply all_lstrip, all_rstrip, H. Qed.

Lemma all_strip_chars (cs s : str) :
  forallb P s = true -> forallb P (strip_chars cs s) = true.
Proof. intro H. apply all_lstrip, all_rstrip, H. Qed.

Lemma all_replace (old new s : str) :
  forallb P new = true -> forallb P s = true ->
  forallb P (replace old new s) = true.
Proof.
  intros Hnew. unfold replace. generalize 0 as skip.
  induction s as [|c s IH]; intros skip H; [reflexivity|].
  cbn [forallb] in H. apply andb_prop in H. destruct H as [Hc Hs].
  cbn [replace_from]. destruct skip as [|k]; [|apply IH, Hs].
  destruct (startswith (c :: s) old).
  - rewrite all_app, Hnew. apply IH, Hs.
  - cbn [forallb]. rewrite Hc. apply IH, Hs.
Qed.

Lemma all_lazy_until (close s : str) :
  forall acc inner rest,
    forallb P acc = true -> forallb P s = true ->
    lazy_until close acc s = Some (inner, rest) ->
    forallb P inner = true /\ forallb P rest = true.
Proof.
  induction s as [|c s IH]; intros acc inner rest Hacc Hs; cbn [lazy_until].
  - destruct (startswith [] close); [|discriminate].
    intro H. injection H as <- <-. split; [exact Hacc | apply all_skipn, Hs].
  - destruct (startswith (c :: s) close).
    + intro H. injection H as <- <-. split; [exact Hacc | apply all_skipn, Hs].
    + destruct (N.eqb c LF); [discriminate|].
      cbn [forallb] in Hs. apply andb_prop in Hs. destruct Hs as [Hc Hs].
      apply IH; [|exact Hs]. rewrite all_app, Hacc. cbn [forallb].
      rewrite Hc. reflexivity.
Qed.

Lemma all_match_pair (d s inner rest : str) :
  forallb P s = true -> match_pair d s = Some (inner, rest) ->
  forallb P inner = true /\ forallb P rest = true.
Proof.
  intros Hs. unfold match_pair. destruct (startswith s d); [|discriminate].
  pose proof (all_skipn (length d) s Hs) as Hk.
  destruct (skipn (length d) s) as [|c t]; [discriminate|].
  destruct (N.eqb c LF); [discriminate|].
  cbn [forallb] in Hk. apply andb_prop in Hk. destruct Hk as [Hc Ht].
  apply all_lazy_until; [cbn [forallb]; rewrite Hc; reflexivity | exact Ht].
Qed.

Lemma all_re_sub_pair (d s : str) :
  forallb P s = true -> forallb P (re_sub_pair d s) = true.
Proof.
  unfold re_sub_pair. generalize (length s) as fuel. intro fuel. revert s.
  induction fuel as [|fuel IH]; intros s Hs; [exact Hs|].
  destruct s as [|c s]; [reflexivity|]. cbn [re_sub_pair_fuel].
  destruct (match_pair d (c :: s)) as [[inner rest]|] eqn:E.
  - destruct (all_match_pair d (c :: s) inner rest Hs E) as [Hi Hr].
    rewrite all_app, Hi. apply IH, Hr.
  - cbn [forallb] in *. apply andb_prop in Hs. destruct Hs as [Hc Hs].
    rewrite Hc. apply IH, Hs.
Qed.

Lemma all_join (sep : str) (parts : list str) :
  forallb P sep = true -> Forall (fun p => forallb P p = true) parts ->
  forallb P (join sep parts) = true.
Proof.
  intros Hsep. induction 1 as [|p parts Hp Hparts IH]; [reflexivity|].
  cbn [join]. destruct parts as [|p' parts]; [exact Hp|].
  rewrite !all_app, Hp, Hsep. exact IH.
Qed.

Lemma all_concat (parts : list str) :
  Forall (fun p => forallb P p = true) parts ->
  forallb P (concat parts) = true.
Proof.
  induction 1 as [|p parts Hp Hparts IH]; [reflexivity|].
  cbn [concat]. rewrite all_app, Hp. exact IH.
Qed.

Lemma all_nth (i : nat) (l : list str) :
  Forall (fun p => forallb P p = true) l -> forallb P (nth i l []) = true.
Proof.
  intro H. revert i. induction H as [|p l Hp Hl IH]; intros [|i];
    cbn [nth]; auto.
Qed.
End CharsKept.

Lemma bar_free_app (a b : str) : bar_free (a ++ b) = bar_free a && bar_free b.
Proof. apply forallb_app. Qed.

Lemma bar_free_not_In (s : str) : ~ In BAR s <-> bar_free s = true.
Proof.
  unfold bar_free. rewrite forallb_forall. split.
  - intros H c Hc. unfold not_bar. apply negb_true_iff, N.eqb_neq.
    intros ->. exact (H Hc).
  - intros H Hin. specialize (H BAR Hin). discriminate.
Qed.

(** Splits a goal about a concatenation into its pieces and closes the
    pieces that are fixed text. *)
Ltac fixed_text s :=
  lazymatch s with
  | lit _ => idtac
  | [] => idtac
  | ?c :: ?t => is_const c; fixed_text t
  | ?c => is_const c
  end.
Ltac bar_free_pieces :=
  rewrite ?bar_free_app, ?andb_true_iff;
  repeat match goal with |- _ /\ _ => split end;
  try match goal with
      | |- bar_free ?s = true => fixed_text s; reflexivity
      end.

Lemma to_jsx_key_bar_free (s : str) :
  bar_free s = true -> bar_free (to_jsx_key s) = true.
Proof.
  intro H. unfold to_jsx_key. bar_free_pieces.
  apply all_replace; [reflexivity|].
  apply all_re_sub_pair, all_re_sub_pair, all_strip, H.
Qed.

Lemma to_jsx_string_bar_free (s : str) :
  bar_free s = true -> bar_free (to_jsx_string s) = true.
Proof.
  intro H. unfold to_jsx_string.
  assert (Hv : bar_free (re_sub_pair BOLD (strip s)) = true)
    by (apply all_re_sub_pair, all_strip, H).
  destruct (contains [BACKTICK] _ || contains [LT] _ || contains [GT] _
            || contains [LBRACE] _).
  - bar_free_pieces.
    repeat (apply all_replace; [reflexivity|]). exact Hv.
  - bar_free_pieces. apply all_replace; [reflexivity | exact Hv].
Qed.

Lemma headers_to_mapping_names (headers : list str) :
  names_bar_free (headers_to_mapping headers).
Proof.
  rewrite headers_to_mapping_spec. unfold names_bar_free.
  destruct headers as [|c0 [|c1 [|c2 [|c3 [|c4 tl]]]]]; cbn [classify_spec];
    repeat match goal with
           | |- context [if ?b then _ else _] => destruct b
           end;
    cbn [by_col fields merged map fst snd]; repeat constructor.
Qed.

Lemma merge_parts_bar_free (row : list str) (headers : option (list str))
    (cols : list nat) :
  Forall (fun c => bar_free c = true) row ->
  match headers with
  | Some hs => Forall (fun h => bar_free h = true) hs
  | None => True
  end ->
  Forall (fun p => bar_free p = true) (merge_parts row headers cols).
Proof.
  intros Hrow Hhs. unfold merge_parts. apply Forall_flat_map.
  apply Forall_forall. intros i _.
  assert (Hv : bar_free (strip (nth i row [])) = true)
    by (apply all_strip, all_nth, Hrow).
  destruct (i <? length row); [|constructor].
  destruct (shown (strip (nth i row []))); [|constructor].
  destruct headers as [hs|]; [|repeat constructor; exact Hv].
  destruct (negb (is_nil hs) && (i <? length hs));
    [|repeat constructor; exact Hv].
  repeat constructor. bar_free_pieces; [|exact Hv].
  apply all_strip, all_nth, Hhs.
Qed.

Lemma field_props_bar_free (row : list str)
    (items : list (nat * option str)) :
  Forall (fun c => bar_free c = true) row ->
  Forall (fun kv => match snd kv with
                    | Some name => bar_free name = true
                    | None => True
                    end) items ->
  Forall (fun p => bar_free p = true) (field_props row items).
Proof.
  intros Hrow Hnames. unfold field_props. apply Forall_flat_map.
  apply Forall_forall. intros [i name] Hin.
  apply (proj1 (sorted_items_In _ _)) in Hin.
  rewrite Forall_forall in Hnames. specialize (Hnames _ Hin).
  cbn [fst snd] in *. destruct name as [name|]; [|constructor].
  destruct (length row <=? i); [constructor|].
  destruct (negb (shown (strip (nth i row [])))); [constructor|].
  repeat constructor. bar_free_pieces; [exact Hnames|].
  apply to_jsx_string_bar_free, all_strip, all_nth, Hrow.
Qed.

Lemma row_to_type_node_bar_free (key : str) (row : list str) (m : mapping)
    (headers : option (list str)) :
  bar_free key = true ->
  Forall (fun c => bar_free c = true) row ->
  names_bar_free m ->
  match headers with
  | Some hs => Forall (fun h => bar_free h = true) hs
  | None => True
  end ->
  bar_free (row_to_type_node key row m headers) = true.
Proof.
  intros Hkey Hrow Hnames Hhs.
  assert (Hprops : Forall (fun p => bar_free p = true)
                          (row_props row m headers)).
  { unfold row_props. destruct (merge m) as [cols|].
    - pose proof (merge_parts_bar_free row headers cols Hrow Hhs) as Hp.
      destruct (merge_parts row headers cols) as [|p ps] eqn:E;
        [constructor|].
      repeat constructor. bar_free_pieces.
      apply to_jsx_string_bar_free.
      apply all_join; [reflexivity | exact Hp].
    - apply field_props_bar_free; assumption. }
  rewrite row_to_type_node_entry.
  pose proof (to_jsx_key_bar_free key Hkey) as Hk.
  destruct (row_props row m headers) as [|p ps] eqn:E.
  - unfold empty_entry. bar_free_pieces. exact Hk.
  - unfold entry_with. bar_free_pieces; [exact Hk|].
    apply all_join; [reflexivity | exact Hprops].
Qed.

Lemma table_to_type_table_bar_free (headers : list str)
    (rows : list (list str)) :
  Forall (fun h => bar_free h = true) headers ->
  Forall (Forall (fun c => bar_free c = true)) rows ->
  bar_free (table_to_type_table headers rows) = true.
Proof.
  intros Hhs Hrows. unfold table_to_type_table.
  assert (He : bar_free (concat (table_entries headers rows)) = true).
  { apply all_concat. unfold table_entries. apply Forall_flat_map.
    rewrite Forall_forall in Hrows. apply Forall_forall. intros row Hin.
    specialize (Hrows row Hin). destruct row as [|c0 row]; [constructor|].
    destruct (is_empty c0); [constructor|]. repeat constructor.
    apply row_to_type_node_bar_free;
      [|exact Hrows | apply headers_to_mapping_names | exact Hhs].
    apply all_strip. inversion Hrows; assumption. }
  bar_free_pieces. exact He.
Qed.

Lemma split_row_bar_free (line : str) :
  Forall (fun c => bar_free c = true) (split_row line).
Proof.
  unfold split_row. apply Forall_map.
  pose proof (split_cells_free BAR (strip_chars [BAR] (strip line))) as H.
  eapply Forall_impl; [|exact H]. cbn beta. intros cell Hc.
  apply all_strip. apply bar_free_not_In. exact Hc.
Qed.

Lemma parse_table_bar_free (block : list str) (headers : list str)
    (rows : list (list str)) :
  parse_table block = Some (headers, rows) ->
  Forall (fun h => bar_free h = true) headers
  /\ Forall (Forall (fun c => bar_free c = true)) rows.
Proof.
  unfold parse_table. destruct (length block <? 3); [discriminate|].
  destruct (negb (is_separator (nth 1 block []))); [discriminate|].
  intro H. injection H as <- <-. split; [apply split_row_bar_free|].
  apply Forall_map. apply Forall_forall. intros l _. apply split_row_bar_free.
Qed.

Lemma last_char_snoc (x : str) (c : char) : last_char (x ++ [c]) = c.
Proof. apply last_char_app. discriminate. Qed.

Lemma fragment_like_table (headers : list str) (rows : list (list str)) :
  Forall (fun h => bar_free h = true) headers ->
  Forall (Forall (fun c => bar_free c = true)) rows ->
  fragment_like (table_to_type_table headers rows ++ [LF]).
Proof.
  intros Hhs Hrows. split; [|split].
  - rewrite bar_free_app, andb_true_iff. split; [|reflexivity].
    apply table_to_type_table_bar_free; assumption.
  - reflexivity.
  - apply last_char_snoc.
Qed.

Lemma convert_block_fragment (table_lines : list str) (jsx : str) :
  convert_block table_lines = Some jsx -> fragment_like jsx.
Proof.
  unfold convert_block.
  destruct (parse_table table_lines) as [[headers rows]|] eqn:E;
    [|discriminate].
  destruct (parse_table_bar_free table_lines _ _ E) as [Hhs Hrows].
  intro H.
  assert (Hj : jsx = table_to_type_table headers rows ++ [LF])
    by (destruct rows; [discriminate | congruence]).
  subst jsx. apply fragment_like_table; assumption.
Qed.

(** ** Inserting the import *)

Lemma after_fumadocs_done (lines : list str) :
  after_fumadocs true lines = (lines, true).
Proof.
  induction lines as [|l rest IH]; [reflexivity|].
  cbn [after_fumadocs negb andb]. rewrite IH. reflexivity.
Qed.

Lemma after_fumadocs_cases (lines : list str) :
  (after_fumadocs false lines = (lines, false)
   /\ Forall (fun l => is_fumadocs_import l = false) lines)
  \/ (exists a l b,
        lines = a ++ l :: b
        /\ Forall (fun l => is_fumadocs_import l = false) a
        /\ is_fumadocs_import l = true
        /\ after_fumadocs false lines = (a ++ l :: IMPORT_LINE :: b, true)).
Proof.
  induction lines as [|l rest IH]; [left; split; [reflexivity | constructor]|].
  cbn [after_fumadocs negb andb]. destruct (is_fumadocs_import l) eqn:E.
  - right. exists [], l, rest. rewrite after_fumadocs_done.
    repeat split; [constructor | exact E].
  - destruct IH as [[-> Hall]|(a & l' & b & -> & Ha & Hl & ->)].
    + left. split; [reflexivity | constructor; assumption].
    + right. exists (l :: a), l', b.
      repeat split; [constructor; assumption | exact Hl].
Qed.

Lemma after_frontmatter_cases (lines : list str) :
  forall in_fm fm_closed,
    after_frontmatter in_fm fm_closed lines = lines
    \/ exists a l b,
         lines = a ++ l :: b /\ is_fence l = true
         /\ after_frontmatter in_fm fm_closed lines
            = a ++ l :: [LF] :: IMPORT_LINE :: b.
Proof.
  induction lines as [|l rest IH]; intros in_fm fm_closed; [left; reflexivity|].
  cbn [after_frontmatter].
  assert (K : forall f c,
             l :: after_frontmatter f c rest = l :: rest
             \/ exists a l0 b,
                  l :: rest = a ++ l0 :: b /\ is_fence l0 = true
                  /\ l :: after_frontmatter f c rest
                     = a ++ l0 :: [LF] :: IMPORT_LINE :: b).
  { intros f c. destruct (IH f c) as [->|(a & l0 & b & -> & Hl0 & ->)].
    - left. reflexivity.
    - right. exists (l :: a), l0, b. repeat split. exact Hl0. }
  destruct (is_fence l) eqn:E; cbn [andb]; [|apply K].
  destruct in_fm; cbn [negb andb]; [|apply K].
  destruct fm_closed; cbn [negb]; [apply K|].
  destruct (IH true true) as [->|(a & l0 & b & Hr & Hl0 & Hres)].
  - right. exists [], l, rest. repeat split. exact E.
  - right. exists [], l, rest. split; [reflexivity|]. split; [exact E|].
    cbn [app]. f_equal. f_equal. f_equal.
    (* behind the closing fence nothing more is inserted *)
    clear -rest. induction rest as [|x rest IH]; [reflexivity|].
    cbn [after_frontmatter]. rewrite IH.
    destruct (is_fence x); reflexivity.
Qed.

(** The import goes behind one anchor line, or nowhere. *)
Lemma add_import_cases (lines : list str) :
  add_import lines = lines
  \/ exists a l b ins,
       lines = a ++ l :: b /\ anchor l = true
       /\ add_import lines = a ++ l :: ins ++ b
       /\ (ins = [IMPORT_LINE] \/ ins = [[LF]; IMPORT_LINE]).
Proof.
  unfold add_import, anchor.
  destruct (after_fumadocs_cases lines)
    as [[-> _]|(a & l & b & -> & _ & Hl & ->)].
  - destruct (after_frontmatter_cases lines false false)
      as [->|(a & l & b & -> & Hl & ->)].
    + left. reflexivity.
    + right. exists a, l, b, [[LF]; IMPORT_LINE].
      rewrite Hl, orb_true_r. repeat split. right. reflexivity.
  - right. exists a, l, b, [IMPORT_LINE]. rewrite Hl.
    repeat split. left. reflexivity.
Qed.

Lemma strip_head (c : char) (l : str) :
  isspace c = false -> exists t, strip (c :: l) = c :: t.
Proof.
  intro H. unfold strip, strip_by. cbn [rstrip_by].
  destruct (rstrip_by isspace l) as [|c' r]; [rewrite H|];
    cbn [lstrip_by]; rewrite H; eexists; reflexivity.
Qed.

Lemma anchor_head (l : str) :
  anchor l = true ->
  l <> [] /\ is_bar l = false /\ hd_error l <> Some LT.
Proof.
  intro H. destruct l as [|c l]; [discriminate|].
  split; [discriminate|].
  assert (G : c <> BAR /\ c <> LT).
  { unfold anchor, is_fumadocs_import, is_fence in H. split; intros ->.
    - destruct (strip_head BAR l eq_refl) as (t & E). rewrite E in H.
      discriminate.
    - destruct (strip_head LT l eq_refl) as (t & E). rewrite E in H.
      discriminate. }
  destruct G as [G1 G2]. split.
  - rewrite is_bar_cons. apply N.eqb_neq. exact G1.
  - cbn [hd_error]. congruence.
Qed.

Lemma app_split_mid (rl R a b : list str) (l : str) :
  rl ++ R = a ++ l :: b ->
  In l rl \/ exists a', a = rl ++ a' /\ R = a' ++ l :: b.
Proof.
  revert a. induction rl as [|y rl IH]; intros a H.
  - right. exists a. split; [reflexivity | exact H].
  - destruct a as [|y' a]; cbn [app] in H; injection H as -> H.
    + left. left. reflexivity.
    + destruct (IH a H) as [Hin|(a' & -> & ->)].
      * left. right. exact Hin.
      * right. exists a'. split; reflexivity.
Qed.

(** An anchor line of the rendered document is one of its other lines. *)
Lemma render_anchor_split (g : list item) :
  forall a l b,
    grouped g -> flat_map render g = a ++ l :: b -> anchor l = true ->
    exists g1 g2,
      g = g1 ++ Other l :: g2
      /\ a = flat_map render g1 /\ b = flat_map render g2.
Proof.
  induction g as [|[r|x] g IH]; intros a l b Hg H Hl.
  - destruct a; discriminate.
  - cbn [grouped] in Hg. destruct Hg as (_ & Hbars & _ & Hg).
    cbn [flat_map] in H. apply app_split_mid in H.
    destruct (anchor_head l Hl) as (_ & Hnb & Hlt).
    destruct H as [Hin|(a' & -> & H)].
    + exfalso. cbn [render] in Hin.
      destruct (convert_block (map rstrip_nl r)) as [jsx|] eqn:E.
      * destruct Hin as [<-|[]].
        apply convert_block_fragment in E. destruct E as (_ & Hhd & _).
        contradiction.
      * rewrite forallb_forall in Hbars. rewrite (Hbars l Hin) in Hnb.
        discriminate.
    + destruct (IH a' l b Hg H Hl) as (g1 & g2 & -> & -> & ->).
      exists (Run r :: g1), g2. repeat split.
  - cbn [grouped] in Hg. destruct Hg as (_ & Hg).
    cbn [flat_map render app] in H. destruct a as [|y a]; cbn [app] in H;
      injection H as -> H.
    + exists [], g. repeat split. rewrite H. reflexivity.
    + destruct (IH a l b Hg H Hl) as (g1 & g2 & -> & -> & ->).
      exists (Other y :: g1), g2. repeat split.
Qed.

Lemma item_rel_refl (g : list item) : Forall2 item_rel g g.
Proof.
  induction g as [|[r|l] g IH]; constructor; try exact IH.
  - reflexivity.
  - left. reflexivity.
Qed.

(** The first run: the written text is the rendering of the grouped lines,
    one other line possibly followed by the inserted import. *)
Lemma convert_file_rendered (content content' : str) :
  convert_file content = Some content' ->
  existsb convertible (groups (splitlines content)) = true
  /\ exists g',
       Forall2 item_rel (groups (splitlines content)) g'
       /\ content' = concat (flat_map render g').
Proof.
  rewrite convert_file_items.
  set (g := groups (splitlines content)).
  destruct (existsb convertible g); [|discriminate].
  intro H. injection H as <-. split; [reflexivity|].
  assert (Hsame : exists g', Forall2 item_rel g g'
                             /\ concat (flat_map render g)
                                = concat (flat_map render g'))
    by (exists g; split; [apply item_rel_refl | reflexivity]).
  destruct (negb (contains (strip IMPORT_LINE) content)); [|exact Hsame].
  destruct (add_import_cases (flat_map render g))
    as [->|(a & l & b & ins & Hout & Hl & -> & Hins)]; [exact Hsame|].
  destruct (render_anchor_split g a l b (grouped_groups _) Hout Hl)
    as (g1 & g2 & Hg & -> & ->).
  exists (g1 ++ Other (l ++ concat ins) :: g2). split.
  - rewrite Hg. apply Forall2_app; [apply item_rel_refl|].
    constructor; [|apply item_rel_refl].
    cbn [item_rel]. right. exists (concat ins).
    split; [reflexivity|].
    destruct Hins as [->| ->]; repeat split; discriminate.
  - rewrite flat_map_app. cbn [flat_map render].
    rewrite !concat_app. cbn [concat app].
    rewrite !concat_app, <- !app_assoc. reflexivity.
Qed.

(** ** The rewritten document, read again *)

Lemma ok_end_compat (x : str) (nx nx' : option char) :
  ok_end x nx -> compat nx nx' -> ok_end x nx'.
Proof.
  destruct nx' as [c'|]; [|intros; exact I].
  destruct nx as [c|]; cbn [compat ok_end]; [|intros _ []].
  intros [Hbr Hglue] Hc. split; [exact Hbr|].
  intros [Hcr Hlf]. apply Hglue. split; [exact Hcr | exact (Hc Hlf)].
Qed.

Lemma chunked_compat (cs : list str) (nx nx' : option char) :
  chunked cs nx -> compat nx nx' -> chunked cs nx'.
Proof.
  intros H Hc. induction cs as [|x rest IH]; [exact I|].
  cbn [chunked] in *. destruct H as (Hx & Hok & Hrest).
  split; [exact Hx|]. split; [|exact (IH Hrest)].
  destruct rest as [|y rest]; cbn [first_of] in *; [|exact Hok].
  exact (ok_end_compat x nx nx' Hok Hc).
Qed.

Lemma compat_refl (nx : option char) : compat nx nx.
Proof. destruct nx; cbn; auto. Qed.

Lemma first_of_flatten_compat (g g' : list item) (nx nx' : option char) :
  Forall2 item_rel g g' -> grouped g -> chunked (flatten g) nx ->
  compat nx nx' ->
  compat (first_of (flatten g) nx) (first_of (flat_map render g') nx').
Proof.
  intros Hrel Hg Hch Hc.
  destruct Hrel as [|it it' g g' Hit Hrel]; [exact Hc|].
  destruct it as [r|l], it' as [r'|l']; cbn [item_rel] in Hit;
    try contradiction.
  - subst r'. cbn [grouped] in Hg. destruct Hg as (Hr & _).
    destruct r as [|l1 r]; [contradiction|].
    unfold flatten in *. cbn [flat_map item_lines app chunked] in Hch.
    destruct Hch as (Hl1 & _).
    destruct l1 as [|c l1]; [contradiction|].
    cbn [flat_map item_lines render app first_of hd_error].
    destruct (convert_block (map rstrip_nl ((c :: l1) :: r))) as [jsx|] eqn:E.
    + apply convert_block_fragment in E. destruct E as (_ & Hhd & _).
      cbn [app first_of]. rewrite Hhd. cbn [compat]. discriminate.
    + cbn [app first_of hd_error compat]. auto.
  - unfold flatten in *. cbn [flat_map item_lines app chunked] in Hch.
    destruct Hch as (Hl & _). destruct l as [|c l]; [contradiction|].
    cbn [flat_map item_lines render app first_of hd_error].
    destruct Hit as [->|(ins & -> & _)]; cbn [app hd_error compat]; auto.
Qed.

(** The rendered items are chunks again. *)
Lemma chunked_render (g g' : list item) :
  Forall2 item_rel g g' ->
  forall nx nx',
    grouped g -> chunked (flatten g) nx -> compat nx nx' ->
    chunked (flat_map render g') nx'.
Proof.
  induction 1 as [|it it' g g' Hit Hrel IH]; intros nx nx' Hg Hch Hc;
    [exact I|].
  assert (Hg' : grouped g)
    by (destruct it; cbn [grouped] in Hg; tauto).
  unfold flatten in Hch. cbn [flat_map] in *.
  apply chunked_app in Hch. destruct Hch as [Hit_ch Hrest].
  fold (flatten g) in *.
  apply chunked_app. split; [|exact (IH nx nx' Hg' Hrest Hc)].
  pose proof (first_of_flatten_compat g g' nx nx' Hrel Hg' Hrest Hc) as Hf.
  destruct it as [r|l], it' as [r'|l']; cbn [item_rel] in Hit;
    try contradiction.
  - subst r'. cbn [item_lines render] in *.
    destruct (convert_block (map rstrip_nl r)) as [jsx|] eqn:E.
    + apply convert_block_fragment in E. destruct E as (_ & Hhd & Hlast).
      cbn [chunked first_of]. split; [|split; [|exact I]].
      * intros ->. discriminate.
      * apply ok_end_LF. exact Hlast.
    + eapply chunked_compat; [exact Hit_ch | exact Hf].
  - cbn [item_lines render] in *. destruct Hit as [->|(ins & -> & Hne & _ & Hlast)].
    + eapply chunked_compat; [exact Hit_ch | exact Hf].
    + cbn [chunked first_of]. split; [|split; [|exact I]].
      * intro E. apply app_eq_nil in E. destruct E. contradiction.
      * apply ok_end_LF. rewrite last_char_app by exact Hne. exact Hlast.
Qed.

Lemma splitlines_single_not_nil (l : str) : splitlines l = [l] -> l <> [].
Proof. intros H ->. discriminate. Qed.

(** The rendered items are ready to be grouped again. *)
Lemma ready_rel (g g' : list item) :
  Forall2 item_rel g g' -> grouped g ->
  Forall (fun l => splitlines l = [l]) (flatten g) ->
  ready g'.
Proof.
  induction 1 as [|it it' g g' Hit Hrel IH]; intros Hg Hsingle; [exact I|].
  unfold flatten in Hsingle. cbn [flat_map] in Hsingle.
  apply Forall_app in Hsingle. destruct Hsingle as [Hs_it Hs].
  destruct it as [r|l], it' as [r'|l']; cbn [item_rel] in Hit;
    try contradiction; cbn [grouped] in Hg.
  - subst r'. destruct Hg as (Hr & Hbars & Hadj & Hg).
    cbn [ready]. repeat split; try assumption; [|exact (IH Hg Hs)].
    destruct Hrel as [|it2 it2' ? ? Hit2 _]; [exact I|].
    destruct it2, it2'; cbn [item_rel] in Hit2; try contradiction; auto.
  - destruct Hg as (Hnb & Hg). cbn [item_lines] in Hs_it.
    inversion Hs_it as [|? ? Hl _]; subst.
    pose proof (splitlines_single_not_nil l Hl) as Hne.
    cbn [ready]. split; [|split; [|exact (IH Hg Hs)]].
    + destruct Hit as [->|(ins & -> & _)]; [exact Hne|].
      intro E. apply app_eq_nil in E. destruct E. contradiction.
    + destruct Hit as [->|(ins & -> & Hins & Hfree & _)].
      * rewrite Hl. repeat constructor. exact Hnb.
      * apply (proj1 (bar_free_starts_lines _)).
        rewrite bar_free_starts_app.
        rewrite (bar_free_starts_free _ ins Hfree), andb_true_r.
        apply (proj1 (bar_free_starts_lines l)). rewrite Hl.
        repeat constructor. exact Hnb.
Qed.

Lemma flatten_map_Other (ls : list str) : flatten (map Other ls) = ls.
Proof.
  unfold flatten. induction ls as [|l ls IH]; [reflexivity|].
  cbn [map flat_map item_lines app]. rewrite IH. reflexivity.
Qed.

Lemma flatten_app (g1 g2 : list item) :
  flatten (g1 ++ g2) = flatten g1 ++ flatten g2.
Proof. apply flat_map_app. Qed.

Lemma flat_map_single (r : list str) :
  Forall (fun l => splitlines l = [l]) r -> flat_map splitlines r = r.
Proof.
  induction 1 as [|l r Hl _ IH]; [reflexivity|].
  cbn [flat_map]. rewrite Hl, IH. reflexivity.
Qed.

Lemma splitlines_render (g : list item) :
  ready g ->
  flat_map splitlines (flat_map render g) = flatten (flat_map expand g).
Proof.
  induction g as [|[r|x] g IH]; intro H; [reflexivity|..];
    cbn [ready] in H; cbn [flat_map]; rewrite flat_map_app, flatten_app.
  - destruct H as (_ & _ & Hsingle & _ & Hg). rewrite (IH Hg). f_equal.
    cbn [render expand]. destruct (convert_block (map rstrip_nl r)).
    + rewrite flatten_map_Other. cbn [flat_map]. apply app_nil_r.
    + unfold flatten. cbn [flat_map item_lines]. rewrite app_nil_r.
      apply flat_map_single. exact Hsingle.
  - destruct H as (_ & _ & Hg). rewrite (IH Hg). f_equal.
    cbn [render expand flat_map]. rewrite flatten_map_Other. apply app_nil_r.
Qed.

Lemma grouped_others (ls : list str) (g : list item) :
  Forall (fun l => is_bar l = false) ls -> grouped g ->
  grouped (map Other ls ++ g).
Proof.
  induction 1 as [|l ls Hl _ IH]; intro Hg; [exact Hg|].
  cbn [map app grouped]. split; [exact Hl | exact (IH Hg)].
Qed.

Lemma expand_not_run (g : list item) :
  ready g -> match g with Run _ :: _ => False | _ => True end ->
  match flat_map expand g with Run _ :: _ => False | _ => True end.
Proof.
  destruct g as [|[r|x] g]; cbn [ready flat_map expand];
    [auto | intros _ [] |].
  intros (Hx & _) _. pose proof (splitlines_not_nil x Hx) as Hnn.
  destruct (splitlines x); [contradiction | exact I].
Qed.

Lemma grouped_expand (g : list item) : ready g -> grouped (flat_map expand g).
Proof.
  induction g as [|[r|x] g IH]; intro H; [exact I|..]; cbn [ready] in H;
    cbn [flat_map expand].
  - destruct H as (Hr & Hbars & _ & Hadj & Hg).
    destruct (convert_block (map rstrip_nl r)) as [jsx|] eqn:E.
    + apply grouped_others; [|exact (IH Hg)].
      apply convert_block_fragment in E. destruct E as (Hfree & _).
      apply (proj1 (bar_free_starts_lines jsx)).
      apply bar_free_starts_free. exact Hfree.
    + cbn [app grouped]. repeat split; try assumption; [|exact (IH Hg)].
      apply expand_not_run; assumption.
  - destruct H as (_ & Hnb & Hg). apply grouped_others; [exact Hnb|].
    exact (IH Hg).
Qed.

Lemma groups_bars (r rest : list str) :
  r <> [] -> forallb is_bar r = true ->
  match rest with l :: _ => is_bar l = false | [] => True end ->
  groups (r ++ rest) = Run r :: groups rest.
Proof.
  intros Hr Hbars Hrest. destruct r as [|l r]; [contradiction|].
  cbn [forallb] in Hbars. apply andb_prop in Hbars. destruct Hbars as [Hl Hbars].
  cbn [app]. rewrite (groups_run l (r ++ rest) Hl). clear Hr Hl.
  induction r as [|l2 r IH]; cbn [app take_bars drop_bars].
  - destruct rest as [|l3 rest]; [reflexivity|].
    cbn [take_bars drop_bars]. rewrite Hrest. reflexivity.
  - cbn [forallb] in Hbars. apply andb_prop in Hbars.
    destruct Hbars as [Hl2 Hbars]. rewrite Hl2.
    specialize (IH Hbars). injection IH as E1 E2. rewrite E1, E2. reflexivity.
Qed.

Lemma groups_flatten (g : list item) : grouped g -> groups (flatten g) = g.
Proof.
  induction g as [|[r|l] g IH]; intro H; [reflexivity|..];
    cbn [grouped] in H; unfold flatten in *; cbn [flat_map item_lines].
  - destruct H as (Hr & Hbars & Hadj & Hg).
    rewrite groups_bars, (IH Hg); [reflexivity | exact Hr | exact Hbars|].
    destruct g as [|[r2|l2] g]; cbn [flat_map item_lines app];
      [exact I | contradiction | cbn [grouped] in Hg; tauto].
  - destruct H as (Hl & Hg). cbn [app groups]. rewrite Hl, (IH Hg).
    reflexivity.
Qed.

Lemma expand_inert (g : list item) :
  existsb convertible (flat_map expand g) = false.
Proof.
  induction g as [|[r|x] g IH]; [reflexivity|..]; cbn [flat_map];
    rewrite existsb_app, IH, orb_false_r; cbn [expand].
  - destruct (convert_block (map rstrip_nl r)) as [jsx|] eqn:E.
    + induction (splitlines jsx) as [|l ls IHls]; [reflexivity | exact IHls].
    + cbn [existsb convertible]. rewrite E. reflexivity.
  - induction (splitlines x) as [|l ls IHls]; [reflexivity | exact IHls].
Qed.

(** The groups of the written text. *)
Lemma groups_of_rendered (content : str) (g' : list item) :
  Forall2 item_rel (groups (splitlines content)) g' ->
  groups (splitlines (concat (flat_map render g'))) = flat_map expand g'.
Proof.
  intro Hrel.
  pose proof (grouped_groups (splitlines content)) as Hg.
  assert (Hready : ready g').
  { apply (ready_rel _ _ Hrel Hg). rewrite flatten_groups.
    apply splitlines_single. }
  assert (Hch : chunked (flat_map render g') None).
  { apply (chunked_render _ _ Hrel None None Hg); [|exact I].
    rewrite flatten_groups. apply chunked_splitlines. }
  rewrite (splitlines_concat _ Hch), (splitlines_render _ Hready).
  apply groups_flatten, grouped_expand, Hready.
Qed.

(** A second run finds nothing to replace. *)
Lemma convert_file_again (content content' : str) :
  convert_file content = Some content' -> convert_file content' = None.
Proof.
  intro H. apply convert_file_rendered in H.
  destruct H as (_ & g' & Hrel & ->).
  rewrite convert_file_items, (groups_of_rendered content g' Hrel).
  rewrite expand_inert. reflexivity.
Qed.

(** ** The document rewriter *)

Lemma convert_block_None (table_lines : list str) :
  convert_block table_lines = None <-> not_convertible table_lines.
Proof.
  unfold convert_block, not_convertible.
  destruct (parse_table table_lines) as [[headers rows]|].
  - destruct rows as [|row rows].
    + split; [intros _; right; exists headers; reflexivity | reflexivity].
    + split; [discriminate|]. intros [H|(hs & H)]; discriminate.
  - split; [intros _; left; reflexivity | reflexivity].
Qed.

Lemma blocks_of_app (g1 g2 : list item) (i : nat) :
  blocks_of (g1 ++ g2) i
  = blocks_of g1 i ++ blocks_of g2 (i + length (flatten g1)).
Proof.
  revert i. induction g1 as [|[r|l] g1 IH]; intro i; unfold flatten in *;
    cbn [app blocks_of flat_map item_lines].
  - rewrite Nat.add_0_r. reflexivity.
  - rewrite IH, length_app. cbn [app]. do 3 f_equal. lia.
  - rewrite IH. cbn [length app]. do 2 f_equal. lia.
Qed.

Lemma blocks_of_In (g : list item) :
  forall i start stop,
    In (start, stop) (blocks_of g i) ->
    exists g1 r g2,
      g = g1 ++ Run r :: g2
      /\ start = i + length (flatten g1) /\ stop = start + length r.
Proof.
  induction g as [|[r|l] g IH]; intros i start stop H; [destruct H|..];
    cbn [blocks_of] in H.
  - destruct H as [H|H].
    + injection H as <- <-. exists [], r, g. cbn. repeat split; lia.
    + destruct (IH _ _ _ H) as (g1 & r' & g2 & -> & -> & ->).
      exists (Run r :: g1), r', g2. unfold flatten. cbn [flat_map item_lines].
      rewrite length_app. repeat split; lia.
  - destruct (IH _ _ _ H) as (g1 & r' & g2 & -> & -> & ->).
    exists (Other l :: g1), r', g2. unfold flatten.
    cbn [flat_map item_lines app length]. repeat split; lia.
Qed.

Lemma slice_flatten (g1 g2 : list item) (r : list str) :
  slice (flatten (g1 ++ Run r :: g2)) (length (flatten g1))
        (length (flatten g1) + length r) = r.
Proof.
  rewrite flatten_app. unfold flatten at 2. cbn [flat_map item_lines].
  fold (flatten g2). apply slice_run.
Qed.

Lemma existsb_convertible (g : list item) :
  existsb convertible g = true ->
  exists g1 r g2,
    g = g1 ++ Run r :: g2 /\ convert_block (map rstrip_nl r) <> None.
Proof.
  intro H. apply existsb_exists in H. destruct H as (it & Hin & Hc).
  apply in_split in Hin. destruct Hin as (g1 & g2 & ->).
  destruct it as [r|l]; [|discriminate]. exists g1, r, g2.
  split; [reflexivity|]. cbn [convertible] in Hc.
  destruct (convert_block (map rstrip_nl r)); [discriminate | discriminate].
Qed.

Lemma item_rel_run (g g' g1 g2 : list item) (r : list str) :
  Forall2 item_rel g g' -> g = g1 ++ Run r :: g2 ->
  exists g1' g2', g' = g1' ++ Run r :: g2'.
Proof.
  intros Hrel ->. apply Forall2_app_inv_l in Hrel.
  destruct Hrel as (g1' & gr & _ & Hr & ->).
  inversion Hr as [|it it' ? g2' Hit _]; subst.
  destruct it' as [r'|l']; cbn [item_rel] in Hit; [|contradiction].
  subst r'. exists g1', g2'. reflexivity.
Qed.

(** C8.  A block that fails to parse, or parses to no data row, is left as
    it is: its lines stand untouched in the written text, where they are a
    block again.  When no block is replaced (every block is such a block, or
    the loop ends with [modified] false) nothing is written and
    [convert_file] reports the file as unmodified. *)
Theorem failed_blocks_untouched (content : str) :
  ((forall start stop,
      In (start, stop) (find_table_blocks (map rstrip_nl (splitlines content)))
      -> not_convertible
           (map rstrip_nl (slice (splitlines content) start stop)))
   -> convert_file content = None)
  /\ (snd (replace_blocks (splitlines content)
             (find_table_blocks (map rstrip_nl (splitlines content))))
      = false
      -> convert_file content = None)
  /\ (forall start stop content',
        In (start, stop)
           (find_table_blocks (map rstrip_nl (splitlines content))) ->
        not_convertible
          (map rstrip_nl (slice (splitlines content) start stop)) ->
        convert_file content = Some content' ->
        (exists before after,
           content'
           = before ++ concat (slice (splitlines content) start stop) ++ after)
        /\ In (Run (slice (splitlines content) start stop))
              (groups (splitlines content'))).
Proof.
  rewrite find_table_blocks_groups.
  set (g := groups (splitlines content)).
  assert (Hflat : flatten g = splitlines content) by apply flatten_groups.
  split; [|split].
  - intro Hall. rewrite convert_file_items. fold g.
    destruct (existsb convertible g) eqn:E; [|reflexivity].
    exfalso. apply existsb_convertible in E.
    destruct E as (g1 & r & g2 & Hg & Hconv). apply Hconv.
    apply convert_block_None.
    rewrite <- (slice_flatten g1 g2 r), <- Hg, Hflat. apply Hall.
    rewrite Hg, blocks_of_app. apply in_or_app. right. left. reflexivity.
  - pose proof (replace_blocks_items g []) as R. cbn [app length] in R.
    rewrite Hflat in R. rewrite R. cbn [snd]. intro E.
    rewrite convert_file_items. fold g. rewrite E. reflexivity.
  - intros start stop content' Hin Hnot Hconv.
    apply blocks_of_In in Hin. destruct Hin as (g1 & r & g2 & Hg & -> & ->).
    cbn [Nat.add] in *. rewrite <- Hflat in *. rewrite Hg in Hnot |- *.
    rewrite slice_flatten in *.
    apply convert_block_None in Hnot.
    apply convert_file_rendered in Hconv.
    destruct Hconv as (_ & g' & Hrel & ->).
    rewrite (groups_of_rendered content g' Hrel).
    destruct (item_rel_run g g' g1 g2 r Hrel Hg) as (g1' & g2' & ->).
    rewrite !flat_map_app. cbn [flat_map render expand]. rewrite Hnot. split.
    + exists (concat (flat_map render g1')), (concat (flat_map render g2')).
      rewrite !concat_app. reflexivity.
    + apply in_or_app. right. left. reflexivity.
Qed.

Lemma failed_blocks_untouched_witness :
  convert_file (doc_of ["| lonely |"; "|---|"; "text"]%string) = None
  /\ ((exists before after,
         converted doc_mixed
         = before ++ concat (slice (splitlines doc_mixed) 3 5) ++ after)
      /\ In (Run (slice (splitlines doc_mixed) 3 5))
            (groups (splitlines (converted doc_mixed)))).
Proof.
  split.
  - apply (proj1 (failed_blocks_untouched
                    (doc_of ["| lonely |"; "|---|"; "text"]%string))).
    intros start stop H. vm_compute in H.
    destruct H as [H|[]]. injection H as <- <-. left. reflexivity.
  - apply (proj2 (proj2 (failed_blocks_untouched doc_mixed)) 3 5).
    + vm_compute. left. reflexivity.
    + left. reflexivity.
    + reflexivity.
Defined.

Lemma groups_others (lines : list str) :
  Forall (fun l => is_bar l = false) lines -> groups lines = map Other lines.
Proof.
  induction 1 as [|l lines Hl _ IH]; [reflexivity|].
  cbn [groups map]. rewrite Hl, IH. reflexivity.
Qed.

Lemma blocks_of_others (lines : list str) (i : nat) :
  blocks_of (map Other lines) i = [].
Proof.
  revert i. induction lines as [|l lines IH]; intro i; [reflexivity|].
  cbn [map blocks_of]. apply IH.
Qed.

(** C2.  Running the converter on its own output writes nothing, so
    converting twice is converting once.  The fragment made from a parsed
    table holds no bar at all; none of its lines starts with one, and the
    locator finds no block in it. *)
Theorem convert_idempotent (content : str) :
  convert_file (converted content) = None
  /\ converted (converted content) = converted content
  /\ (forall block headers rows,
        parse_table block = Some (headers, rows) ->
        ~ In BAR (table_to_type_table headers rows ++ [LF])
        /\ Forall (fun l => startswith l [BAR] = false)
                  (splitlines (table_to_type_table headers rows ++ [LF]))
        /\ find_table_blocks
             (map rstrip_nl
                  (splitlines (table_to_type_table headers rows ++ [LF])))
           = []).
Proof.
  assert (H1 : convert_file (converted content) = None).
  { unfold converted. destruct (convert_file content) as [content'|] eqn:E.
    - exact (convert_file_again content content' E).
    - exact E. }
  split; [exact H1|]. split.
  - unfold converted at 1. rewrite H1. reflexivity.
  - intros block headers rows Hp.
    destruct (parse_table_bar_free block headers rows Hp) as [Hhs Hrows].
    destruct (fragment_like_table headers rows Hhs Hrows) as (Hfree & _).
    assert (Hlines : Forall (fun l => is_bar l = false)
                       (splitlines (table_to_type_table headers rows ++ [LF]))).
    { apply (proj1 (bar_free_starts_lines _)).
      apply bar_free_starts_free. exact Hfree. }
    split; [apply bar_free_not_In; exact Hfree|]. split; [exact Hlines|].
    rewrite find_table_blocks_groups, (groups_others _ Hlines).
    apply blocks_of_others.
Qed.

Lemma convert_idempotent_witness :
  find_table_blocks
    (map rstrip_nl
         (splitlines
            (table_to_type_table [lit "Name"; lit "Description"]
               [[lit "foo"; lit "bar"]] ++ [LF])))
  = [].
Proof.
  apply (proj2 (proj2 (convert_idempotent []))
           [lit "| Name | Description |"; lit "|---|---|"; lit "| foo | bar |"]).
  reflexivity.
Defined.

(** ** The import insertion, evaluated *)

(** C3, what the code does.  With two imports of the component family in
    the document the new import is put behind the first of them, not the
    last; and with no such import and no front matter no import is put in at
    all, although a block was replaced. *)
Lemma import_insertion_evaluated :
  convert_file doc_two_imports
  = Some (doc_of ["---"; "title: t"; "---"; "";
                  "import { Tabs } from 'fumadocs-ui/components/tabs';"]%string
          ++ IMPORT_LINE
          ++ doc_of ["import { Card } from 'fumadocs-ui/components/card';";
                     ""]%string
          ++ fragment_foo_bar)
  /\ convert_file doc_no_frontmatter
     = Some (doc_of ["# Title"; ""]%string ++ fragment_foo_bar)
  /\ contains (strip IMPORT_LINE)
       (doc_of ["# Title"; ""]%string ++ fragment_foo_bar) = false.
Proof. vm_compute. repeat split. Qed.

(** ** The end-to-end scenarios of the specification *)

Example scenario_two_columns :
  convert_block
    [lit "| Name | Description |"; lit "|---|---|"; lit "| foo | does a thing |"]
  = Some (doc_of ["<TypeTable"; "  type={"]%string
          ++ lit "    " ++ [DQUOTE] ++ lit "foo" ++ [DQUOTE] ++ lit ": {" ++ [LF]
          ++ lit "      description: " ++ [DQUOTE] ++ lit "does a thing"
          ++ [DQUOTE] ++ lit "," ++ [LF]
          ++ doc_of ["    },"; "  }"; "/>"]%string).
Proof. vm_compute. reflexivity. Qed.

Example scenario_block_end :
  find_table_blocks [lit "intro"; lit "| a | b |"; lit "|---|---|"; lit "| c | d |";
                     lit "after"; lit "| e |"]
  = [(1, 4); (5, 6)].
Proof. vm_compute. reflexivity. Qed.

Example scenario_backtick_value :
  row_to_type_node (lit "run") [lit "run"; lit "`GET`"; lit "calls it"]
    (headers_to_mapping [lit "Name"; lit "Method"; lit "Notes"])
    (Some [lit "Name"; lit "Method"; lit "Notes"])
  = lit "    " ++ [DQUOTE] ++ lit "run" ++ [DQUOTE] ++ lit ": {" ++ [LF]
    ++ lit "      type: {`\`GET\``}," ++ [LF]
    ++ lit "      description: " ++ [DQUOTE] ++ lit "calls it" ++ [DQUOTE]
    ++ lit "," ++ [LF] ++ lit "    }," ++ [LF].
Proof. vm_compute. reflexivity. Qed.

(** * Further properties of the code *)

(** ** The locator *)

Lemma run_end_plain (lines : list str) (i : nat) :
  run_end lines i = i + length (take_bars lines).
Proof.
  revert i. induction lines as [|l rest IH]; intro i; cbn [run_end take_bars].
  - cbn. lia.
  - fold (is_bar l). destruct (is_bar l); [rewrite IH; cbn [length]; lia|].
    cbn. lia.
Qed.

Lemma find_blocks_plain (fuel : nat) :
  forall (lines : list str) (i : nat),
    length lines <= i + fuel ->
    find_blocks_from fuel lines i = blocks_of (groups (skipn i lines)) i.
Proof.
  induction fuel as [|fuel IH]; intros lines i H.
  - rewrite skipn_all2 by lia. reflexivity.
  - cbn [find_blocks_from].
    destruct (nth_error lines i) as [l|] eqn:E.
    + pose proof (skipn_nth_error lines i l E) as Hs.
      assert (Hlen : i < length lines)
        by (apply nth_error_Some; congruence).
      fold (is_bar l). destruct (is_bar l) eqn:Hb.
      * rewrite run_end_plain, Hs.
        cbn [take_bars]. rewrite Hb. rewrite (groups_run l _ Hb).
        cbn [blocks_of length]. f_equal.
        rewrite IH by (cbn [length]; lia). f_equal. f_equal.
        replace (i + S (length (take_bars (skipn (S i) lines))))
          with (length (take_bars (skipn (S i) lines)) + S i) by lia.
        rewrite <- skipn_skipn. apply skipn_take_bars.
      * rewrite Hs. cbn [groups]. rewrite Hb. cbn [blocks_of].
        apply IH. lia.
    + apply nth_error_None in E. rewrite skipn_all2 by lia. reflexivity.
Qed.

Lemma blocks_of_ge (g : list item) :
  forall i b, In b (blocks_of g i) -> i <= fst b.
Proof.
  induction g as [|[r|l] g IH]; intros i b H; [destruct H|..];
    cbn [blocks_of] in H.
  - destruct H as [<-|H]; [cbn; lia|]. specialize (IH _ _ H). lia.
  - specialize (IH _ _ H). lia.
Qed.

Lemma blocks_of_sorted (g : list item) :
  forall i, grouped g ->
    StronglySorted (fun b1 b2 => snd b1 < fst b2) (blocks_of g i).
Proof.
  induction g as [|[r|l] g IH]; intros i Hg; cbn [grouped] in Hg;
    cbn [blocks_of].
  - constructor.
  - destruct Hg as (_ & _ & Hadj & Hg). constructor; [apply IH, Hg|].
    apply Forall_forall. intros b Hb. cbn [snd].
    destruct g as [|[r2|l2] g]; [destruct Hb | contradiction|].
    cbn [blocks_of] in Hb. apply blocks_of_ge in Hb. lia.
  - apply IH. tauto.
Qed.

Lemma grouped_app_inv (g1 g2 : list item) :
  grouped (g1 ++ g2) -> grouped g1 /\ grouped g2.
Proof.
  induction g1 as [|[r|l] g1 IH]; cbn [app grouped]; [tauto|..].
  - intros (Hr & Hb & Hadj & Hg). destruct (IH Hg) as [H1 H2].
    repeat split; try assumption.
    destruct g1 as [|[r2|l2] g1]; cbn [app] in Hadj; auto.
  - intros (Hl & Hg). destruct (IH Hg) as [H1 H2]. tauto.
Qed.

(** Around a run of grouped lines stand other lines, if any. *)
Lemma grouped_around (g1 g2 : list item) (r : list str) :
  grouped (g1 ++ Run r :: g2) ->
  r <> [] /\ forallb is_bar r = true
  /\ (g1 = [] \/ exists g1' l, g1 = g1' ++ [Other l] /\ is_bar l = false)
  /\ (g2 = [] \/ exists l g2', g2 = Other l :: g2' /\ is_bar l = false).
Proof.
  intro H. assert (H2 := proj2 (grouped_app_inv _ _ H)).
  cbn [grouped] in H2. destruct H2 as (Hr & Hb & Hadj & Hg2).
  split; [exact Hr|]. split; [exact Hb|]. split.
  - clear Hadj Hg2 Hr Hb. induction g1 as [|it g1 IH]; [left; reflexivity|].
    right. destruct g1 as [|it2 g1].
    + destruct it as [r1|l]; cbn [app grouped] in H; [tauto|].
      exists [], l. split; [reflexivity | tauto].
    + assert (Hg : grouped ((it2 :: g1) ++ Run r :: g2))
        by (destruct it; cbn [app grouped] in H; tauto).
      destruct (IH Hg) as [E|(g1' & l & E & Hl)]; [discriminate|].
      exists (it :: g1'), l. rewrite E. split; [reflexivity | exact Hl].
  - destruct g2 as [|[r2|l2] g2]; [left; reflexivity | contradiction|].
    right. exists l2, g2. cbn [grouped] in Hg2. split; [reflexivity | tauto].
Qed.

Lemma nth_forallb (r : list str) (i : nat) :
  forallb is_bar r = true -> i < length r -> is_bar (nth i r []) = true.
Proof.
  intros H Hi. rewrite forallb_forall in H. apply H, nth_In, Hi.
Qed.

Lemma blocks_of_cover (g : list item) :
  forall pre i,
    grouped g -> length pre <= i < length (pre ++ flatten g) ->
    is_bar (nth i (pre ++ flatten g) []) = true ->
    exists start stop,
      In (start, stop) (blocks_of g (length pre)) /\ start <= i < stop.
Proof.
  induction g as [|[r|l] g IH]; intros pre i Hg Hi Hbar;
    unfold flatten in *; cbn [flat_map item_lines] in *.
  - rewrite app_nil_r in Hi. lia.
  - cbn [grouped] in Hg. destruct Hg as (_ & _ & _ & Hg). cbn [blocks_of].
    destruct (Nat.lt_ge_cases i (length pre + length r)) as [Hlt|Hge].
    + exists (length pre), (length pre + length r).
      split; [left; reflexivity | lia].
    + rewrite app_assoc in Hi, Hbar.
      destruct (IH (pre ++ r) i Hg) as (s & e & Hin & Hse);
        [rewrite length_app; lia | exact Hbar|].
      rewrite length_app in Hin. exists s, e. split; [right; exact Hin | exact Hse].
  - cbn [grouped] in Hg. destruct Hg as (Hl & Hg). cbn [blocks_of].
    destruct (Nat.eq_dec i (length pre)) as [->|Hne].
    + rewrite app_nth2, Nat.sub_diag in Hbar by lia. cbn [app nth] in Hbar.
      congruence.
    + change (pre ++ [l] ++ flat_map item_lines g)
        with (pre ++ ([l] ++ flat_map item_lines g)) in *.
      rewrite app_assoc in Hi, Hbar.
      destruct (IH (pre ++ [l]) i Hg) as (s & e & Hin & Hse);
        [rewrite length_app; cbn [length]; lia | exact Hbar|].
      rewrite length_app in Hin. cbn [length] in Hin.
      rewrite Nat.add_1_r in Hin. exists s, e. split; assumption.
Qed.

(** X1.  The blocks the locator returns are the maximal runs of lines
    starting with a bar: they come in ascending order with at least one line
    between two of them, each lies within the document and is not empty, all
    its lines start with a bar, the line before it and the line after it (if
    any) do not, and every line starting with a bar lies in one of them.
    [length lines] turns of the loop are enough. *)
Theorem find_table_blocks_contract (lines : list str) :
  StronglySorted (fun b1 b2 => snd b1 < fst b2) (find_table_blocks lines)
  /\ (forall start stop, In (start, stop) (find_table_blocks lines) ->
        start < stop <= length lines
        /\ (forall i, start <= i < stop ->
              startswith (nth i lines []) [BAR] = true)
        /\ (start = 0 \/ startswith (nth (start - 1) lines []) [BAR] = false)
        /\ (stop = length lines
            \/ startswith (nth stop lines []) [BAR] = false))
  /\ (forall i, i < length lines ->
        startswith (nth i lines []) [BAR] = true ->
        exists start stop,
          In (start, stop) (find_table_blocks lines) /\ start <= i < stop)
  /\ (forall fuel, length lines <= fuel ->
        find_blocks_from fuel lines 0 = find_table_blocks lines).
Proof.
  assert (E : forall fuel, length lines <= fuel ->
                find_blocks_from fuel lines 0 = blocks_of (groups lines) 0).
  { intros fuel H. rewrite find_blocks_plain by lia. reflexivity. }
  unfold find_table_blocks. rewrite (E (length lines)) by lia.
  pose proof (grouped_groups lines) as Hg.
  pose proof (flatten_groups lines) as Hflat.
  split; [apply blocks_of_sorted, Hg|]. split; [|split; [|exact E]].
  - intros start stop Hin. apply blocks_of_In in Hin.
    destruct Hin as (g1 & r & g2 & Hsplit & -> & ->). cbn [Nat.add].
    rewrite Hsplit in Hg. apply grouped_around in Hg.
    destruct Hg as (Hr & Hbars & Hbefore & Hafter).
    assert (Hlines : lines = flatten g1 ++ r ++ flatten g2).
    { rewrite <- Hflat, Hsplit, flatten_app. reflexivity. }
    rewrite Hlines. rewrite !length_app.
    split; [destruct r; [contradiction | cbn [length]; lia]|].
    split; [|split].
    + intros i Hi. rewrite app_nth2 by lia. rewrite app_nth1 by lia.
      apply nth_forallb; [exact Hbars | lia].
    + destruct Hbefore as [->|(g1' & l & -> & Hl)]; [left; reflexivity|].
      right. rewrite flatten_app. change (flatten [Other l]) with [l].
      rewrite length_app. cbn [length]. rewrite <- app_assoc. cbn [app].
      replace (length (flatten g1') + 1 - 1) with (length (flatten g1'))
        by lia.
      rewrite nth_middle. exact Hl.
    + destruct Hafter as [->|(l & g2' & -> & Hl)].
      * left. unfold flatten at 3. cbn. lia.
      * right. change (flatten (Other l :: g2')) with (l :: flatten g2').
        rewrite app_assoc, <- length_app. rewrite nth_middle. exact Hl.
  - intros i Hi Hbar. rewrite <- Hflat in Hi, Hbar.
    apply (blocks_of_cover (groups lines) [] i Hg); [cbn [length app]; lia|].
    exact Hbar.
Qed.

(** ** Stripping *)

Lemma lstrip_by_idem (p : char -> bool) (s : str) :
  lstrip_by p (lstrip_by p s) = lstrip_by p s.
Proof.
  induction s as [|c s IH]; [reflexivity|]. cbn [lstrip_by].
  destruct (p c) eqn:E; [exact IH|]. cbn [lstrip_by]. rewrite E. reflexivity.
Qed.

Lemma rstrip_by_idem (p : char -> bool) (s : str) :
  rstrip_by p (rstrip_by p s) = rstrip_by p s.
Proof.
  induction s as [|c s IH]; [reflexivity|]. cbn [rstrip_by].
  destruct (rstrip_by p s) as [|c2 r] eqn:E.
  - destruct (p c) eqn:Ec; [reflexivity|]. cbn [rstrip_by]. rewrite Ec.
    reflexivity.
  - cbn [rstrip_by] in *. rewrite IH. reflexivity.
Qed.

Lemma rstrip_by_lstrip (p : char -> bool) (t : str) :
  rstrip_by p t = t -> rstrip_by p (lstrip_by p t) = lstrip_by p t.
Proof.
  induction t as [|c t IH]; intro H; [reflexivity|]. cbn [lstrip_by].
  destruct (p c) eqn:Ec; [|exact H]. apply IH.
  cbn [rstrip_by] in H. rewrite Ec in H.
  destruct (rstrip_by p t) as [|c2 r]; [discriminate | congruence].
Qed.

Lemma strip_by_idem (p : char -> bool) (s : str) :
  strip_by p (strip_by p s) = strip_by p s.
Proof.
  unfold strip_by.
  rewrite (rstrip_by_lstrip p (rstrip_by p s) (rstrip_by_idem p s)).
  apply lstrip_by_idem.
Qed.

Lemma rstrip_by_all (p : char -> bool) (ws : str) :
  forallb p ws = true -> rstrip_by p ws = [].
Proof.
  induction ws as [|c ws IH]; [reflexivity|]. cbn [forallb rstrip_by].
  intro H. apply andb_prop in H. destruct H as [Hc Hws].
  rewrite (IH Hws), Hc. reflexivity.
Qed.

Lemma rstrip_by_nil (p : char -> bool) (s : str) :
  rstrip_by p s = [] -> forallb p s = true.
Proof.
  induction s as [|c s IH]; [reflexivity|]. cbn [forallb rstrip_by].
  destruct (rstrip_by p s) as [|c2 r]; [|discriminate].
  destruct (p c); [intros _; exact (IH eq_refl) | discriminate].
Qed.

Lemma rstrip_by_app_r (p : char -> bool) (s ws : str) :
  forallb p ws = true -> rstrip_by p (s ++ ws) = rstrip_by p s.
Proof.
  intro H. induction s as [|c s IH]; [exact (rstrip_by_all p ws H)|].
  cbn [app rstrip_by]. rewrite IH. reflexivity.
Qed.

Lemma rstrip_by_app_l (p : char -> bool) (a s : str) :
  rstrip_by p s <> [] -> rstrip_by p (a ++ s) = a ++ rstrip_by p s.
Proof.
  intro H. induction a as [|c a IH]; [reflexivity|].
  cbn [app rstrip_by]. rewrite IH.
  destruct (a ++ rstrip_by p s) as [|c2 r] eqn:E; [|reflexivity].
  apply app_eq_nil in E. tauto.
Qed.

Lemma forallb_Forall_true {A : Type} (p : A -> bool) (l : list A) :
  forallb p l = true -> Forall (fun x => p x = true) l.
Proof. intro H. apply Forall_forall. apply forallb_forall. exact H. Qed.

(** Whitespace (or any stripped class) around a text does not count. *)
Lemma strip_by_around (p : char -> bool) (ws1 s ws2 : str) :
  forallb p ws1 = true -> forallb p ws2 = true ->
  strip_by p (ws1 ++ s ++ ws2) = strip_by p s.
Proof.
  intros H1 H2. unfold strip_by. rewrite app_assoc.
  rewrite (rstrip_by_app_r p _ ws2 H2).
  destruct (rstrip_by p s) as [|c r] eqn:E.
  - rewrite <- (app_nil_r (ws1 ++ s)).
    rewrite (rstrip_by_all p ((ws1 ++ s) ++ [])); [reflexivity|].
    rewrite app_nil_r, forallb_app, H1. apply (rstrip_by_nil p s E).
  - rewrite rstrip_by_app_l by (rewrite E; discriminate). rewrite E.
    apply lstrip_by_app, forallb_Forall_true, H1.
Qed.

(** ** The cells of a row *)

Lemma split_length (sep : char) (s : str) :
  length (split sep s) = S (count_occ N.eq_dec s sep).
Proof.
  induction s as [|c s IH]; [reflexivity|]. cbn [split count_occ].
  destruct (N.eqb_spec c sep) as [->|Hne].
  - destruct (N.eq_dec sep sep); [|contradiction]. cbn [length].
    rewrite IH. reflexivity.
  - destruct (N.eq_dec c sep); [contradiction|].
    destruct (split sep s) as [|cell cells]; [discriminate IH | exact IH].
Qed.

(** X2.  [split_row] always gives at least one cell, one more than the text
    between the outer bars has bars; no cell holds a bar and every cell is
    stripped already; whitespace around the line does not change the cells. *)
Theorem split_row_cells (line : str) :
  split_row line <> []
  /\ length (split_row line)
     = S (count_occ N.eq_dec (strip_chars [BAR] (strip line)) BAR)
  /\ Forall (fun cell => ~ In BAR cell /\ strip cell = cell) (split_row line)
  /\ (forall ws1 ws2,
        forallb isspace ws1 = true -> forallb isspace ws2 = true ->
        split_row (ws1 ++ line ++ ws2) = split_row line).
Proof.
  unfold split_row. split; [|split; [|split]].
  - intro H. apply map_eq_nil in H. exact (split_not_nil _ _ H).
  - rewrite length_map. apply split_length.
  - apply Forall_forall. intros cell Hin. apply in_map_iff in Hin.
    destruct Hin as (raw & <- & Hraw). split; [|apply strip_by_idem].
    pose proof (split_cells_free BAR (strip_chars [BAR] (strip line))) as Hfree.
    rewrite Forall_forall in Hfree. specialize (Hfree raw Hraw).
    apply bar_free_not_In. apply all_strip. apply bar_free_not_In. exact Hfree.
  - intros ws1 ws2 H1 H2. unfold strip.
    rewrite (strip_by_around isspace ws1 line ws2 H1 H2). reflexivity.
Qed.

(** ** The rows of a located block *)

Lemma is_bar_row_line (l : str) : is_bar l = true -> is_row_line l = true.
Proof.
  destruct l as [|c l]; [discriminate|]. unfold is_bar, is_row_line.
  cbn [startswith]. rewrite andb_true_r. intro H. apply N.eqb_eq in H.
  subst c. destruct (strip_head BAR l eq_refl) as [t ->]. reflexivity.
Qed.

Lemma filter_all {A : Type} (p : A -> bool) (l : list A) :
  forallb p l = true -> filter p l = l.
Proof.
  induction l as [|x l IH]; [reflexivity|]. cbn [forallb filter].
  intro H. apply andb_prop in H. destruct H as [-> Hl]. rewrite (IH Hl).
  reflexivity.
Qed.

Lemma forallb_skipn {A : Type} (p : A -> bool) (n : nat) (l : list A) :
  forallb p l = true -> forallb p (skipn n l) = true.
Proof.
  revert l. induction n as [|n IH]; intros l H; [exact H|].
  destruct l as [|x l]; [reflexivity|]. cbn [skipn]. apply IH.
  cbn [forallb] in H. apply andb_prop in H. tauto.
Qed.

Lemma parse_table_bars (block : list str) :
  forallb is_bar block = true ->
  parse_table block =
    if (length block <? 3) || negb (is_separator (nth 1 block []))
    then None
    else Some (split_row (nth 0 block []), map split_row (skipn 2 block)).
Proof.
  intro H. unfold parse_table.
  destruct (length block <? 3); [reflexivity|]. cbn [orb].
  destruct (negb (is_separator (nth 1 block []))); [reflexivity|].
  rewrite (filter_all is_row_line); [reflexivity|].
  apply forallb_forall. intros l Hl. apply is_bar_row_line.
  pose proof (forallb_skipn is_bar 2 block H) as Hs.
  rewrite forallb_forall in Hs. exact (Hs l Hl).
Qed.

Lemma located_block_bars (lines : list str) (start stop : nat) :
  In (start, stop) (find_table_blocks (map rstrip_nl lines)) ->
  length (slice lines start stop) = stop - start
  /\ forallb is_bar (map rstrip_nl (slice lines start stop)) = true.
Proof.
  intro Hin. rewrite find_table_blocks_groups in Hin.
  apply blocks_of_In in Hin. destruct Hin as (g1 & r & g2 & Hg & -> & ->).
  cbn [Nat.add]. pose proof (grouped_groups lines) as Hgr.
  rewrite Hg in Hgr. apply grouped_around in Hgr.
  destruct Hgr as (_ & Hbars & _).
  rewrite <- (flatten_groups lines), Hg, slice_flatten.
  split; [lia|]. rewrite forallb_forall in *. intros l Hl.
  apply in_map_iff in Hl. destruct Hl as (l0 & <- & Hl0).
  rewrite is_bar_rstrip_nl. exact (Hbars l0 Hl0).
Qed.

(** X3.  For a block the locator found in a document, [parse_table] drops no
    line: when it accepts the block, every line from the third on gives a
    row, so there is at least one row and the rewriter's check for a table
    without rows never passes over a block; a block is left as it is exactly
    when it has fewer than three lines or its second line is no separator. *)
Theorem located_block_rows (content : str) (start stop : nat) :
  In (start, stop)
     (find_table_blocks (map rstrip_nl (splitlines content))) ->
  let block := map rstrip_nl (slice (splitlines content) start stop) in
  length block = stop - start
  /\ (convert_block block = None
      <-> stop - start < 3 \/ is_separator (nth 1 block []) = false)
  /\ (forall headers rows,
        parse_table block = Some (headers, rows) ->
        headers = split_row (nth 0 block [])
        /\ rows = map split_row (skipn 2 block)
        /\ length rows = stop - start - 2 /\ rows <> []).
Proof.
  intros Hin block. destruct (located_block_bars _ _ _ Hin) as [Hlen Hbars].
  fold block in Hbars.
  assert (Hl : length block = stop - start)
    by (unfold block; rewrite length_map; exact Hlen).
  pose proof (parse_table_bars block Hbars) as Hp.
  assert (Hrows : 3 <= length block ->
                  length (map split_row (skipn 2 block)) = stop - start - 2
                  /\ map split_row (skipn 2 block) <> []).
  { intro H3. rewrite length_map, length_skipn, Hl. split; [reflexivity|].
    intro E. apply (f_equal (@length _)) in E.
    rewrite length_map, length_skipn in E. cbn [length] in E. lia. }
  split; [exact Hl|]. split.
  - unfold convert_block. rewrite Hp, Hl.
    destruct (Nat.ltb_spec (stop - start) 3) as [Hlt|Hge]; cbn [orb].
    + split; [intros _; left; exact Hlt | reflexivity].
    + destruct (is_separator (nth 1 block [])) eqn:Es; cbn [negb].
      * destruct (map split_row (skipn 2 block)) eqn:Em.
        -- exfalso. apply (proj2 (Hrows ltac:(lia))). reflexivity.
        -- split; [discriminate | intros [H|H]; [lia | discriminate]].
      * split; [intros _; right; reflexivity | reflexivity].
  - intros headers rows H. rewrite Hp in H.
    destruct ((length block <? 3) || negb (is_separator (nth 1 block [])))
      eqn:E; [discriminate|].
    apply orb_false_elim in E. destruct E as [E _].
    apply Nat.ltb_ge in E. injection H as <- <-.
    destruct (Hrows E) as [H1 H2]. repeat split; assumption.
Qed.

Lemma located_block_rows_witness :
  In (7, 10)
     (find_table_blocks (map rstrip_nl (splitlines doc_two_imports)))
  /\ convert_block
       (map rstrip_nl (slice (splitlines doc_two_imports) 7 10)) <> None.
Proof.
  assert (H : In (7, 10)
                (find_table_blocks
                   (map rstrip_nl (splitlines doc_two_imports))))
    by (vm_compute; left; reflexivity).
  split; [exact H|].
  destruct (located_block_rows doc_two_imports 7 10 H) as (_ & Hc & _).
  intro E. apply Hc in E. destruct E as [E|E]; [cbn in E; lia|].
  vm_compute in E. discriminate.
Defined.

(** ** The columns of a mapping *)

Ltac distinct_names :=
  repeat (apply NoDup_cons; [cbn [In]; intros Hdup; decompose [or] Hdup;
                             try contradiction;
                             match goal with
                             | H : Some _ = Some _ |- _ =>
                                 vm_compute in H; discriminate H
                             end|]);
  apply NoDup_nil.

(** X4.  Whatever the headers, the classifier gives a role to every column
    after the first, once each and in ascending order, and to no other
    column; in field mode the field names are distinct, taken from [type],
    [description] and [default], and [description] is always one of them. *)
Theorem headers_to_mapping_columns (headers : list str) :
  (forall i, mapped i (headers_to_mapping headers)
             <-> 1 <= i < length headers)
  /\ (forall cols, merge (headers_to_mapping headers) = Some cols ->
        cols = seq 1 (length headers - 1))
  /\ (merge (headers_to_mapping headers) = None ->
      map fst (by_col (headers_to_mapping headers))
        = seq 1 (length headers - 1)
      /\ NoDup (map snd (by_col (headers_to_mapping headers)))
      /\ In (Some DESCRIPTION) (map snd (by_col (headers_to_mapping headers)))
      /\ Forall (fun name => In name [Some TYPE; Some DESCRIPTION; Some DEFAULT])
                (map snd (by_col (headers_to_mapping headers)))).
Proof.
  rewrite headers_to_mapping_spec.
  destruct headers as [|c0 [|c1 [|c2 [|c3 [|c4 tl]]]]]; cbn [classify_spec];
    repeat match goal with
           | |- context [if ?b then _ else _] => destruct b
           end;
    unfold mapped; cbn [merge by_col fields merged map fst snd];
    (split;
     [intro i; first [rewrite in_seq; cbn [length]; lia
                     | cbn [In seq length]; lia]|]);
    (split; [intros cols H;
             first [discriminate H | injection H as <-; reflexivity]|]);
    intro H; try discriminate H;
    (split; [reflexivity|]); (split; [distinct_names|]);
    (split; [cbn [In]; tauto|]);
    repeat (apply Forall_cons; [cbn [In]; tauto|]); apply Forall_nil.
Qed.

(** ** What a row's rendering reads *)

Lemma mapped_bound (headers : list str) (i : nat) :
  mapped i (headers_to_mapping headers) -> 1 <= i < length headers.
Proof.
  rewrite headers_to_mapping_spec.
  destruct headers as [|c0 [|c1 [|c2 [|c3 [|c4 tl]]]]]; cbn [classify_spec];
    repeat match goal with
           | |- context [if ?b then _ else _] => destruct b
           end;
    unfold mapped; cbn [merge by_col fields merged map fst snd];
    first [rewrite in_seq; cbn [length]; lia | cbn [In seq length]; lia].
Qed.

Lemma flat_map_ext_In {A B : Type} (f g : A -> list B) (l : list A) :
  (forall x, In x l -> f x = g x) -> flat_map f l = flat_map g l.
Proof.
  induction l as [|x l IH]; intro H; [reflexivity|]. cbn [flat_map].
  rewrite (H x (or_introl eq_refl)), IH; [reflexivity|].
  intros y Hy. apply H. right. exact Hy.
Qed.

Lemma merge_parts_view (row row' : list str) (headers : option (list str))
    (cols : list nat) :
  (forall i, In i cols -> cell_view row' i = cell_view row i) ->
  merge_parts row' headers cols = merge_parts row headers cols.
Proof.
  intro H. unfold merge_parts. apply flat_map_ext_In. intros i Hi.
  specialize (H i Hi). unfold cell_view in H.
  destruct (i <? length row'), (i <? length row); cbn [andb] in H;
    try reflexivity;
    repeat match type of H with
           | context [if shown ?v then _ else _] =>
               let E := fresh "E" in destruct (shown v) eqn:E
           end;
    first [discriminate H | reflexivity | idtac];
    injection H as H; rewrite H; reflexivity.
Qed.

Lemma field_props_view (row row' : list str)
    (items : list (nat * option str)) :
  (forall i, In i (map fst items) -> cell_view row' i = cell_view row i) ->
  field_props row' items = field_props row items.
Proof.
  intro H. unfold field_props. apply flat_map_ext_In. intros [i name] Hi.
  apply (proj1 (sorted_items_In _ _)) in Hi.
  cbn [fst snd]. destruct name as [name|]; [|reflexivity].
  specialize (H i (in_map fst _ _ Hi)). unfold cell_view in H.
  rewrite !Nat.leb_antisym.
  destruct (i <? length row'), (i <? length row); cbn [andb negb] in *;
    try reflexivity;
    repeat match type of H with
           | context [if shown ?v then _ else _] =>
               let E := fresh "E" in destruct (shown v) eqn:E
           end;
    cbn [negb];
    first [discriminate H | reflexivity | idtac];
    injection H as H; rewrite H; reflexivity.
Qed.

Lemma row_to_type_node_view (key : str) (row row' : list str) (m : mapping)
    (headers : option (list str)) :
  (forall i, mapped i m -> cell_view row' i = cell_view row i) ->
  row_to_type_node key row' m headers = row_to_type_node key row m headers.
Proof.
  intro H. unfold row_to_type_node. replace (row_props row' m headers)
    with (row_props row m headers); [reflexivity|].
  unfold row_props. unfold mapped in H. destruct (merge m) as [cols|].
  - rewrite (merge_parts_view row row' headers cols H). reflexivity.
  - symmetry. apply field_props_view, H.
Qed.

Lemma cell_view_pad (row pad : list str) (i : nat) :
  Forall (fun c => omitted_value c = true) pad ->
  cell_view (row ++ pad) i = cell_view row i.
Proof.
  intro H. unfold cell_view.
  destruct (Nat.ltb_spec i (length row)) as [Hlt|Hge].
  - rewrite length_app. rewrite app_nth1 by exact Hlt.
    replace (i <? length row + length pad) with true
      by (symmetry; apply Nat.ltb_lt; lia).
    reflexivity.
  - cbn [andb]. rewrite length_app.
    destruct (Nat.ltb_spec i (length row + length pad)) as [Hlt|_];
      [|reflexivity].
    cbn [andb]. rewrite app_nth2 by exact Hge. rewrite shown_omitted.
    rewrite Forall_forall in H. rewrite (H (nth (i - length row) pad []));
      [reflexivity | apply nth_In; lia].
Qed.

Lemma cell_view_strip (row : list str) (i : nat) :
  cell_view (map strip row) i = cell_view row i.
Proof.
  unfold cell_view. rewrite length_map.
  change (@nil N) with (strip []) at 1 2. rewrite !map_nth.
  unfold strip. rewrite !strip_by_idem. reflexivity.
Qed.

(** X5.  An entry is made from the stripped text of the cells that are
    present and shown in the columns the mapping names, and from nothing
    else: cells beyond the headers are ignored, a row that is too short reads
    like one filled up with empty cells or dashes, and whitespace around a
    cell does not count. *)
Theorem row_to_type_node_reads (key : str) (row : list str) :
  (forall row' m headers,
     (forall i, mapped i m -> cell_view row' i = cell_view row i) ->
     row_to_type_node key row' m headers = row_to_type_node key row m headers)
  /\ (forall headers more,
        length headers <= length row ->
        row_to_type_node key (row ++ more) (headers_to_mapping headers)
                         (Some headers)
        = row_to_type_node key row (headers_to_mapping headers)
                           (Some headers))
  /\ (forall pad m headers,
        Forall (fun c => omitted_value c = true) pad ->
        row_to_type_node key (row ++ pad) m headers
        = row_to_type_node key row m headers)
  /\ (forall m headers,
        row_to_type_node key (map strip row) m headers
        = row_to_type_node key row m headers).
Proof.
  split; [|split; [|split]].
  - intros row' m headers H. apply row_to_type_node_view, H.
  - intros headers more Hlen. apply row_to_type_node_view. intros i Hi.
    apply mapped_bound in Hi. unfold cell_view.
    rewrite length_app, app_nth1 by lia.
    replace (i <? length row + length more) with (i <? length row);
      [reflexivity|].
    transitivity true; [|symmetry]; apply Nat.ltb_lt; lia.
  - intros pad m headers H. apply row_to_type_node_view. intros i _.
    apply cell_view_pad, H.
  - intros m headers. apply row_to_type_node_view. intros i _.
    apply cell_view_strip.
Qed.

(** ** The two renderers of text *)

Lemma template_read_escape (v : str) :
  template_read (flat_map template_escape v) = Some v.
Proof.
  induction v as [|c v IH]; [reflexivity|].
  cbn [flat_map]. unfold template_escape at 1.
  destruct (in_chars [BACKSLASH; BACKTICK; DOLLAR] c) eqn:E.
  - cbn [app template_read]. rewrite N.eqb_refl, E, IH. reflexivity.
  - cbn [app template_read]. unfold in_chars in *. cbn [existsb] in *.
    apply orb_false_elim in E. destruct E as [E1 E2]. rewrite E1, E2, IH.
    reflexivity.
Qed.

Lemma quote_escape_free (v : str) : ~ In DQUOTE (flat_map quote_escape v).
Proof.
  intro H. apply in_flat_map in H. destruct H as (c & _ & H).
  unfold quote_escape in H. destruct (N.eqb c DQUOTE) eqn:E.
  - vm_compute in H. repeat (destruct H as [H|H]; [discriminate H|]).
    exact H.
  - destruct H as [H|[]]. subst c. rewrite N.eqb_refl in E. discriminate E.
Qed.

(** X6.  What [to_jsx_string] writes cannot end early: a template string has
    between its backticks a body that reads back, escape by escape, as the
    value (so no backtick or dollar stands bare in it), and a quoted string
    has no double quote between its quotes. *)
Theorem to_jsx_string_delimited (s : str) :
  (needs_template (re_sub_pair BOLD (strip s)) = true ->
   exists body,
     to_jsx_string s = [LBRACE; BACKTICK] ++ body ++ lit "`}"
     /\ template_read body = Some (re_sub_pair BOLD (strip s)))
  /\ (needs_template (re_sub_pair BOLD (strip s)) = false ->
      exists body,
        to_jsx_string s = [DQUOTE] ++ body ++ [DQUOTE]
        /\ ~ In DQUOTE body).
Proof.
  unfold to_jsx_string.
  rewrite needs_template_contains, template_escape_replace, replace_char.
  split; intro H; rewrite H.
  - exists (flat_map template_escape (re_sub_pair BOLD (strip s))).
    split; [reflexivity | apply template_read_escape].
  - exists (flat_map quote_escape (re_sub_pair BOLD (strip s))).
    split; [reflexivity | apply quote_escape_free].
Qed.

Lemma re_sub_pair_fuel_plain (d0 : char) (d' : str) (fuel : nat) :
  forall s, ~ In d0 s -> re_sub_pair_fuel fuel (d0 :: d') s = s.
Proof.
  induction fuel as [|fuel IH]; intros s H; [reflexivity|].
  destruct s as [|c s]; [reflexivity|]. cbn [re_sub_pair_fuel].
  assert (Hc : N.eqb c d0 = false)
    by (apply N.eqb_neq; intro E; apply H; left; congruence).
  unfold match_pair. cbn [startswith]. rewrite Hc. cbn [andb].
  rewrite IH; [reflexivity|]. intro Hin. apply H. right. exact Hin.
Qed.

Lemma re_sub_pair_plain (d0 : char) (d' s : str) :
  ~ In d0 s -> re_sub_pair (d0 :: d') s = s.
Proof. apply re_sub_pair_fuel_plain. Qed.

Lemma flat_map_plain (f : char -> str) (v : str) :
  (forall c, In c v -> f c = [c]) -> flat_map f v = v.
Proof.
  induction v as [|c v IH]; intro H; [reflexivity|]. cbn [flat_map].
  rewrite (H c (or_introl eq_refl)), IH; [reflexivity|].
  intros x Hx. apply H. right. exact Hx.
Qed.

Lemma backslash_before_quote (k : str) :
  forall a b,
    flat_map backslash_quote k = a ++ DQUOTE :: b ->
    exists a', a = a' ++ [BACKSLASH].
Proof.
  induction k as [|c k IH]; intros a b H.
  - destruct a; discriminate H.
  - cbn [flat_map] in H. unfold backslash_quote at 1 in H.
    destruct (N.eqb_spec c DQUOTE) as [->|Hne]; cbn [app] in H.
    + destruct a as [|x [|y a]]; cbn [app] in H.
      * discriminate H.
      * injection H as Hx _. exists []. cbn [app]. congruence.
      * injection H as Hx Hy H. destruct (IH _ _ H) as [a' Ha].
        exists (x :: y :: a'). cbn [app]. congruence.
    + destruct a as [|x a]; cbn [app] in H.
      * injection H as Hx _. contradiction.
      * injection H as Hx H. destruct (IH _ _ H) as [a' Ha].
        exists (x :: a'). cbn [app]. congruence.
Qed.

Lemma not_in_chars (cs : list char) (c x : char) :
  in_chars cs c = false -> In x cs -> c <> x.
Proof.
  unfold in_chars. intros H Hx ->.
  assert (E : existsb (N.eqb x) cs = true)
    by (apply existsb_exists; exists x; split; [exact Hx | apply N.eqb_refl]).
  congruence.
Qed.

(** X7.  Both renderers strip the text first, so whitespace around it does
    not count.  Text without a star, a backtick or a double quote comes out
    of [to_jsx_key] as it is, between double quotes; if it has no [<], [>] or
    opening brace either, it comes out of [to_jsx_string] in the same way.
    In any key every double quote inside the outer two has a backslash
    right in front of it. *)
Theorem renderers_on_plain_text (s : str) :
  (forall ws1 ws2,
     forallb isspace ws1 = true -> forallb isspace ws2 = true ->
     to_jsx_key (ws1 ++ s ++ ws2) = to_jsx_key s
     /\ to_jsx_string (ws1 ++ s ++ ws2) = to_jsx_string s)
  /\ (plain_key (strip s) = true ->
      to_jsx_key s = [DQUOTE] ++ strip s ++ [DQUOTE])
  /\ (plain_value (strip s) = true ->
      to_jsx_string s = [DQUOTE] ++ strip s ++ [DQUOTE])
  /\ (exists body,
        to_jsx_key s = [DQUOTE] ++ body ++ [DQUOTE]
        /\ forall a b, body = a ++ DQUOTE :: b ->
                       exists a', a = a' ++ [BACKSLASH]).
Proof.
  split; [|split; [|split]].
  - intros ws1 ws2 H1 H2. unfold to_jsx_key, to_jsx_string, strip.
    rewrite (strip_by_around isspace ws1 s ws2 H1 H2). split; reflexivity.
  - intro H. unfold plain_key in H. rewrite forallb_forall in H.
    assert (Hc : forall x, In x [STAR; BACKTICK; DQUOTE] -> ~ In x (strip s)).
    { intros x Hx Hin. apply H in Hin. apply negb_true_iff in Hin.
      exact (not_in_chars _ _ x Hin Hx eq_refl). }
    unfold to_jsx_key. change BOLD with [STAR; STAR].
    rewrite (re_sub_pair_plain STAR [STAR] (strip s))
      by (apply Hc; cbn; tauto).
    rewrite (re_sub_pair_plain BACKTICK [] (strip s))
      by (apply Hc; cbn; tauto).
    rewrite replace_char, flat_map_plain; [reflexivity|].
    intros c Hin. destruct (N.eqb_spec c DQUOTE) as [->|_]; [|reflexivity].
    exfalso. apply (Hc DQUOTE); [cbn; tauto | exact Hin].
  - intro H. unfold plain_value in H. rewrite forallb_forall in H.
    assert (Hc : forall x,
               In x [STAR; BACKTICK; LT; GT; LBRACE; DQUOTE] ->
               ~ In x (strip s)).
    { intros x Hx Hin. apply H in Hin. apply negb_true_iff in Hin.
      exact (not_in_chars _ _ x Hin Hx eq_refl). }
    unfold to_jsx_string. change BOLD with [STAR; STAR].
    rewrite (re_sub_pair_plain STAR [STAR] (strip s))
      by (apply Hc; cbn; tauto).
    rewrite needs_template_contains.
    replace (needs_template (strip s)) with false.
    + rewrite replace_char, flat_map_plain; [reflexivity|].
      intros c Hin. destruct (N.eqb_spec c DQUOTE) as [->|_]; [|reflexivity].
      exfalso. apply (Hc DQUOTE); [cbn; tauto | exact Hin].
    + symmetry. apply not_true_is_false. intro E. unfold needs_template in E.
      apply existsb_exists in E. destruct E as (c & Hin & Hc').
      unfold in_chars in Hc'. apply existsb_exists in Hc'.
      destruct Hc' as (x & Hx & Hcx). apply N.eqb_eq in Hcx. subst x.
      apply (Hc c); [cbn in Hx |- *; tauto | exact Hin].
  - unfold to_jsx_key. rewrite replace_char.
    eexists. split; [reflexivity|]. apply backslash_before_quote.
Qed.

(** ** What a run of the rewriter changes *)

Lemma blocks_of_length (g : list item) :
  forall i, length (blocks_of g i) = length (filter is_run g).
Proof.
  induction g as [|[r|l] g IH]; intro i; cbn [blocks_of filter is_run length];
    [reflexivity | rewrite IH; reflexivity | apply IH].
Qed.

Lemma filter_run_others (lines : list str) :
  filter is_run (map Other lines) = [].
Proof. induction lines as [|l lines IH]; [reflexivity | exact IH]. Qed.

Lemma runs_of_expand (g : list item) :
  length (filter is_run (flat_map expand g)) = length (filter run_left g).
Proof.
  induction g as [|[r|l] g IH]; [reflexivity|..];
    cbn [flat_map]; rewrite filter_app, length_app, IH;
    cbn [filter]; unfold run_left, expand; cbn [is_run convertible andb].
  - destruct (convert_block (map rstrip_nl r)); cbn [negb filter length is_run].
    + rewrite filter_run_others. reflexivity.
    + reflexivity.
  - rewrite filter_run_others. reflexivity.
Qed.

Lemma run_left_rel (g g' : list item) :
  Forall2 item_rel g g' -> length (filter run_left g') = length (filter run_left g).
Proof.
  induction 1 as [|it it' g g' Hrel _ IH]; [reflexivity|].
  cbn [filter]. destruct it as [r|l], it' as [r'|l']; cbn [item_rel] in Hrel;
    try contradiction.
  - subst r'. destruct (run_left (Run r)); cbn [length]; rewrite IH;
      reflexivity.
  - exact IH.
Qed.

Lemma run_left_le (g : list item) :
  length (filter run_left g) <= length (filter is_run g).
Proof.
  induction g as [|[r|l] g IH]; [apply Nat.le_refl|..]; cbn [filter is_run].
  - destruct (run_left (Run r)); cbn [length]; lia.
  - exact IH.
Qed.

Lemma run_left_lt (g : list item) :
  existsb convertible g = true ->
  length (filter run_left g) < length (filter is_run g).
Proof.
  induction g as [|[r|l] g IH]; [discriminate|..];
    cbn [existsb filter is_run]; intro H.
  - change (run_left (Run r)) with (negb (convertible (Run r))).
    destruct (convertible (Run r)); cbn [negb orb length] in *.
    + pose proof (run_left_le g). lia.
    + specialize (IH H). lia.
  - cbn [convertible orb] in H. exact (IH H).
Qed.

Lemma convert_file_fewer_blocks (content content' : str) :
  convert_file content = Some content' ->
  length (find_table_blocks (map rstrip_nl (splitlines content')))
  < length (find_table_blocks (map rstrip_nl (splitlines content))).
Proof.
  intro H. apply convert_file_rendered in H.
  destruct H as (Hconv & g' & Hrel & ->).
  rewrite !find_table_blocks_groups, !blocks_of_length.
  rewrite (groups_of_rendered content g' Hrel), runs_of_expand.
  rewrite (run_left_rel _ _ Hrel). apply run_left_lt, Hconv.
Qed.

Lemma convert_file_differs (content content' : str) :
  convert_file content = Some content' -> content' <> content.
Proof.
  intros H E. apply convert_file_fewer_blocks in H. rewrite E in H.
  exact (Nat.lt_irrefl _ H).
Qed.

Lemma filter_none {A : Type} (p : A -> bool) (l : list A) :
  (forall x, In x l -> p x = false) -> filter p l = [].
Proof.
  induction l as [|x l IH]; intro H; [reflexivity|]. cbn [filter].
  rewrite (H x (or_introl eq_refl)). apply IH. intros y Hy. apply H.
  right. exact Hy.
Qed.

Lemma blocks_left_alone (g : list item) :
  forall pre,
    length (filter (left_alone (pre ++ flatten g))
                   (blocks_of g (length pre)))
    = length (filter run_left g).
Proof.
  induction g as [|[r|l] g IH]; intro pre; [reflexivity|..];
    unfold flatten in *; cbn [flat_map item_lines blocks_of filter].
  - unfold left_alone at 1. cbn [fst snd]. rewrite slice_run.
    change (run_left (Run r)) with (negb (convertible (Run r))).
    cbn [convertible]. specialize (IH (pre ++ r)).
    rewrite length_app, <- app_assoc in IH.
    destruct (convert_block (map rstrip_nl r)); cbn [negb length];
      rewrite IH; reflexivity.
  - specialize (IH (pre ++ [l])).
    rewrite length_app, <- app_assoc in IH. cbn [length app] in IH.
    rewrite Nat.add_1_r in IH. exact IH.
Qed.

Lemma convert_file_blocks_left (content content' : str) :
  convert_file content = Some content' ->
  length (find_table_blocks (map rstrip_nl (splitlines content')))
  = length (filter (left_alone (splitlines content))
                   (find_table_blocks
                      (map rstrip_nl (splitlines content)))).
Proof.
  intro H. apply convert_file_rendered in H.
  destruct H as (_ & g' & Hrel & ->).
  rewrite !find_table_blocks_groups, blocks_of_length.
  rewrite (groups_of_rendered content g' Hrel), runs_of_expand.
  rewrite (run_left_rel _ _ Hrel).
  pose proof (blocks_left_alone (groups (splitlines content)) []) as E.
  cbn [app length] in E. rewrite flatten_groups in E. symmetry. exact E.
Qed.

(** X8.  When the rewriter writes, the text it writes differs from the text
    it read, and the locator finds fewer blocks in it than before: as many
    as the blocks that were left as they are.  So a file is never rewritten
    with its own text, and when every block is a table that converts, no
    line of the text written starts with a bar. *)
Theorem convert_file_progress (content content' : str) :
  convert_file content = Some content' ->
  content' <> content
  /\ length (find_table_blocks (map rstrip_nl (splitlines content')))
     < length (find_table_blocks (map rstrip_nl (splitlines content)))
  /\ length (find_table_blocks (map rstrip_nl (splitlines content')))
     = length (filter (left_alone (splitlines content))
                      (find_table_blocks
                         (map rstrip_nl (splitlines content))))
  /\ ((forall b,
         In b (find_table_blocks (map rstrip_nl (splitlines content))) ->
         left_alone (splitlines content) b = false) ->
      forall l, In l (splitlines content') -> startswith l [BAR] = false).
Proof.
  intro H. split; [exact (convert_file_differs content content' H)|].
  split; [exact (convert_file_fewer_blocks content content' H)|].
  split; [exact (convert_file_blocks_left content content' H)|].
  intros Hall l Hl.
  pose proof (convert_file_blocks_left content content' H) as Hn.
  rewrite (filter_none _ _ Hall) in Hn. cbn [length] in Hn.
  rewrite find_table_blocks_groups, blocks_of_length in Hn.
  destruct (startswith l [BAR]) eqn:Hb; [exfalso | reflexivity].
  apply In_nth with (d := []) in Hl. destruct Hl as (i & Hi & <-).
  rewrite <- (flatten_groups (splitlines content')) in Hi, Hb.
  destruct (blocks_of_cover (groups (splitlines content')) [] i
              (grouped_groups _)) as (s & e & Hin & _);
    [cbn [length app]; lia | exact Hb|].
  cbn [length] in Hin.
  pose proof (blocks_of_length (groups (splitlines content')) 0) as Hlen.
  rewrite Hn in Hlen.
  destruct (blocks_of (groups (splitlines content')) 0);
    [destruct Hin | discriminate Hlen].
Qed.

Lemma convert_file_progress_witness :
  exists content',
    convert_file doc_no_frontmatter = Some content'
    /\ content' <> doc_no_frontmatter.
Proof.
  destruct (convert_file doc_no_frontmatter) as [content'|] eqn:E;
    [|vm_compute in E; discriminate E].
  exists content'. split; [reflexivity|].
  exact (proj1 (convert_file_progress doc_no_frontmatter content' E)).
Defined.

(** ** Where the import goes *)

Lemma after_frontmatter_closed (lines : list str) :
  after_frontmatter true true lines = lines.
Proof.
  induction lines as [|l lines IH]; [reflexivity|].
  cbn [after_frontmatter negb]. rewrite !andb_false_r, IH. reflexivity.
Qed.

(** The second loop inserts behind the second fence, counting the one that
    opened the front matter. *)
Lemma after_frontmatter_count (lines : list str) :
  forall in_fm : bool,
    let need := if in_fm then 1 else 2 in
    (need <= length (filter is_fence lines) ->
     exists a b,
       lines = a ++ b
       /\ after_frontmatter in_fm false lines
          = a ++ [LF] :: IMPORT_LINE :: b)
    /\ (length (filter is_fence lines) < need ->
        after_frontmatter in_fm false lines = lines).
Proof.
  induction lines as [|l lines IH]; intro in_fm; cbn zeta.
  - split; [destruct in_fm; cbn; lia | reflexivity].
  - cbn [after_frontmatter filter negb]. rewrite !andb_true_r.
    destruct (is_fence l) eqn:Ef; cbn [andb length].
    + destruct in_fm; cbn [negb].
      * split; [intros _ | lia].
        exists [l], lines. rewrite after_frontmatter_closed.
        split; reflexivity.
      * destruct (IH true) as [Hins Hsame]. cbn zeta in Hins, Hsame. split.
        -- intro Hk. destruct Hins as (a & b & -> & E); [lia|].
           exists (l :: a), b. rewrite E. split; reflexivity.
        -- intro Hk. rewrite Hsame by lia. reflexivity.
    + destruct (IH in_fm) as [Hins Hsame]. cbn zeta in Hins, Hsame.
      split.
      * intro Hk. destruct Hins as (a & b & -> & E); [exact Hk|].
        exists (l :: a), b. rewrite E. split; reflexivity.
      * intro Hk. rewrite Hsame by exact Hk. reflexivity.
Qed.

Lemma existsb_filter {A : Type} (p : A -> bool) (l : list A) :
  existsb p l = negb (is_nil (filter p l)).
Proof.
  induction l as [|x l IH]; [reflexivity|]. cbn [existsb filter].
  destruct (p x); [reflexivity | exact IH].
Qed.

(** Replacing blocks neither adds nor removes a line that starts with
    neither a bar nor an opening angle bracket. *)
Lemma filter_render (p : str -> bool) (g : list item) :
  (forall l, p l = true -> is_bar l = false /\ hd_error l <> Some LT) ->
  grouped g -> filter p (flat_map render g) = filter p (flatten g).
Proof.
  intro Hp. assert (Hno : forall l, is_bar l = true \/ hd_error l = Some LT ->
                                    p l = false).
  { intros l Hl. destruct (p l) eqn:E; [|reflexivity].
    destruct (Hp l E) as (Hb & Hh).
    destruct Hl as [Hl|Hl]; [congruence | contradiction]. }
  induction g as [|[r|l] g IH]; intro Hg; [reflexivity|..];
    unfold flatten in *; cbn [flat_map render item_lines grouped] in *;
    rewrite !filter_app.
  - destruct Hg as (_ & Hbars & _ & Hg). rewrite (IH Hg). f_equal.
    rewrite (filter_none p r).
    + destruct (convert_block (map rstrip_nl r)) as [jsx|] eqn:E.
      * apply convert_block_fragment in E. destruct E as (_ & Hhd & _).
        cbn [filter]. rewrite (Hno jsx (or_intror Hhd)). reflexivity.
      * apply filter_none. intros x Hx. apply Hno. left.
        rewrite forallb_forall in Hbars. exact (Hbars x Hx).
    + intros x Hx. apply Hno. left. rewrite forallb_forall in Hbars.
      exact (Hbars x Hx).
  - destruct Hg as (_ & Hg). rewrite (IH Hg). reflexivity.
Qed.

Lemma filter_anchor_render (p : str -> bool) (g : list item) :
  (forall l, p l = true -> anchor l = true) ->
  grouped g -> filter p (flat_map render g) = filter p (flatten g).
Proof.
  intro Hp. apply filter_render. intros l Hl.
  destruct (anchor_head l (Hp l Hl)) as (_ & Hb & Hh). split; assumption.
Qed.

Lemma replace_blocks_rendered (lines : list str) :
  replace_blocks lines (find_table_blocks (map rstrip_nl lines))
  = (flat_map render (groups lines), existsb convertible (groups lines)).
Proof.
  rewrite find_table_blocks_groups.
  pose proof (replace_blocks_items (groups lines) []) as E.
  cbn [app length] in E. rewrite (flatten_groups lines) in E. exact E.
Qed.

(** X14.  Replacing the blocks keeps every other line: the lines that start
    with neither a bar nor an opening angle bracket are the same before and
    after, in number and in order, whatever further test picks among
    them. *)
Theorem other_lines_kept (content : str) (p : str -> bool) :
  (forall l, p l = true ->
             startswith l [BAR] = false /\ hd_error l <> Some LT) ->
  filter p
    (fst (replace_blocks (splitlines content)
            (find_table_blocks (map rstrip_nl (splitlines content)))))
  = filter p (splitlines content).
Proof.
  intro Hp. rewrite replace_blocks_rendered. cbn [fst].
  rewrite (filter_render p _ Hp (grouped_groups _)).
  rewrite flatten_groups. reflexivity.
Qed.

Lemma other_lines_kept_witness :
  filter (str_eqb (lit "text" ++ [LF]))
    (fst (replace_blocks (splitlines doc_mixed)
            (find_table_blocks (map rstrip_nl (splitlines doc_mixed)))))
  = filter (str_eqb (lit "text" ++ [LF])) (splitlines doc_mixed).
Proof.
  apply (other_lines_kept doc_mixed (str_eqb (lit "text" ++ [LF]))).
  intros l Hl. apply str_eqb_eq in Hl. subst l.
  split; [reflexivity | discriminate].
Defined.

Lemma after_fumadocs_found (lines : list str) :
  existsb is_fumadocs_import lines = true ->
  exists a l b,
    lines = a ++ l :: b
    /\ after_fumadocs false lines = (a ++ l :: IMPORT_LINE :: b, true).
Proof.
  intro H. destruct (after_fumadocs_cases lines)
    as [[_ Hall]|(a & l & b & E & _ & _ & Ha)].
  - exfalso. apply existsb_exists in H. destruct H as (l & Hin & Hl).
    rewrite Forall_forall in Hall. rewrite (Hall l Hin) in Hl. discriminate.
  - exists a, l, b. split; assumption.
Qed.

Lemma after_fumadocs_none (lines : list str) :
  existsb is_fumadocs_import lines = false ->
  after_fumadocs false lines = (lines, false).
Proof.
  intro H. destruct (after_fumadocs_cases lines)
    as [[E _]|(a & l & b & E & _ & Hl & _)]; [exact E|].
  exfalso. assert (Ht : existsb is_fumadocs_import lines = true).
  { apply existsb_exists. exists l. split; [|exact Hl].
    rewrite E. apply in_elt. }
  congruence.
Qed.

(** X9.  The text written is the text with its blocks replaced, and at most
    one insertion in it.  Nothing is inserted when the text read held the
    import already, or when no line is an import of fumadocs and fewer than
    two lines are fences.  Otherwise the import line is inserted between two
    lines: as it is when some line is an import of fumadocs, behind an empty
    line when there are two fences but no such import. *)
Theorem import_insertion_cases (content content' : str) :
  convert_file content = Some content' ->
  let lines := splitlines content in
  let out :=
    fst (replace_blocks lines (find_table_blocks (map rstrip_nl lines))) in
  (contains (strip IMPORT_LINE) content = true
   \/ (existsb is_fumadocs_import lines = false
       /\ length (filter is_fence lines) < 2) ->
   content' = concat out)
  /\ (contains (strip IMPORT_LINE) content = false ->
      existsb is_fumadocs_import lines = true ->
      exists a b,
        out = a ++ b /\ content' = concat (a ++ IMPORT_LINE :: b))
  /\ (contains (strip IMPORT_LINE) content = false ->
      existsb is_fumadocs_import lines = false ->
      2 <= length (filter is_fence lines) ->
      exists a b,
        out = a ++ b /\ content' = concat (a ++ [LF] :: IMPORT_LINE :: b)).
Proof.
  intros H lines out.
  assert (Hout : out = flat_map render (groups lines))
    by (unfold out; rewrite replace_blocks_rendered; reflexivity).
  rewrite convert_file_items in H. fold lines in H. rewrite <- Hout in H.
  destruct (existsb convertible (groups lines)); [|discriminate H].
  assert (Hc : content'
               = concat (if negb (contains (strip IMPORT_LINE) content)
                         then add_import out else out)) by congruence.
  clear H.
  pose proof (grouped_groups lines) as Hg.
  assert (Hfum : existsb is_fumadocs_import out
                 = existsb is_fumadocs_import lines).
  { rewrite !existsb_filter, Hout, filter_anchor_render;
      [rewrite (flatten_groups lines); reflexivity | | exact Hg].
    intros l Hl. unfold anchor. rewrite Hl. reflexivity. }
  assert (Hfen : filter is_fence out = filter is_fence lines).
  { rewrite Hout, filter_anchor_render;
      [rewrite (flatten_groups lines); reflexivity | | exact Hg].
    intros l Hl. unfold anchor. rewrite Hl. apply orb_true_r. }
  split; [|split].
  - intros [Hhas|[Hno Hfew]]; rewrite Hc.
    + rewrite Hhas. reflexivity.
    + destruct (negb (contains (strip IMPORT_LINE) content));
        [|reflexivity].
      unfold add_import. rewrite after_fumadocs_none by congruence.
      rewrite (proj2 (after_frontmatter_count out false));
        [reflexivity | rewrite Hfen; exact Hfew].
  - intros Hhas Hsome. rewrite Hc, Hhas. cbn [negb].
    rewrite <- Hfum in Hsome.
    destruct (after_fumadocs_found out Hsome) as (a & l & b & E & Ha).
    exists (a ++ [l]), b. unfold add_import. rewrite Ha.
    rewrite <- !app_assoc. split; [exact E | reflexivity].
  - intros Hhas Hno Hmany. rewrite Hc, Hhas. cbn [negb].
    unfold add_import. rewrite after_fumadocs_none by congruence.
    destruct (proj1 (after_frontmatter_count out false)) as (a & b & E & Ha);
      [rewrite Hfen; exact Hmany|].
    exists a, b. rewrite Ha. split; [exact E | reflexivity].
Qed.

Lemma import_insertion_cases_witness :
  exists content' a b,
    convert_file doc_two_imports = Some content'
    /\ content' = concat (a ++ IMPORT_LINE :: b).
Proof.
  destruct (convert_file doc_two_imports) as [content'|] eqn:E;
    [|vm_compute in E; discriminate E].
  destruct (proj1 (proj2 (import_insertion_cases doc_two_imports content' E)))
    as (a & b & _ & Hc); [vm_compute; reflexivity ..|].
  exists content', a, b. split; [reflexivity | exact Hc].
Defined.

(** ** The key fixer run again *)

Lemma lstrip_by_starts (s : str) : starts_text (lstrip_by isspace s) = true.
Proof.
  induction s as [|c s IH]; [reflexivity|]. cbn [lstrip_by].
  destruct (isspace c) eqn:E; [exact IH|]. cbn [starts_text]. rewrite E.
  reflexivity.
Qed.

Lemma lstrip_by_text (r : str) :
  starts_text r = true -> lstrip_by isspace r = r.
Proof.
  destruct r as [|c r]; [reflexivity|]. cbn [starts_text lstrip_by].
  intro H. apply negb_true_iff in H. rewrite H. reflexivity.
Qed.

Lemma match_bad_key_split (ws r : str) :
  forallb isspace ws = true -> starts_text r = true ->
  match_bad_key (ws ++ r) =
    if is_empty ws then None
    else match key_tail r with
         | Some (inner, rest) => Some (ws, inner, rest)
         | None => None
         end.
Proof.
  intros Hws Hr. unfold match_bad_key, key_tail.
  rewrite (lstrip_by_app isspace ws r (forallb_Forall_true _ _ Hws)).
  rewrite (lstrip_by_text r Hr), firstn_length_app.
  destruct (is_empty ws); [reflexivity|].
  destruct (startswith r KEY_OPEN); reflexivity.
Qed.

Lemma scan_step (bol : bool) (c : char) (s : str) :
  bol = false \/ match_bad_key (c :: s) = None ->
  scan_keys bol (c :: s) = c :: scan_keys (N.eqb c LF) s.
Proof.
  intro H. apply scan_keys_step. destruct H as [H|H]; [left; exact H|].
  right. intros indent inner rest Hk. apply match_bad_key_iff in Hk.
  congruence.
Qed.

Lemma scan_line (x y : str) :
  forallb not_lf x = true ->
  scan_keys false (x ++ y) = x ++ scan_keys false y.
Proof.
  induction x as [|c x IH]; intro H; [reflexivity|].
  cbn [forallb] in H. apply andb_prop in H. destruct H as [Hc Hx].
  cbn [app]. rewrite scan_step by (left; reflexivity).
  unfold not_lf in Hc. apply negb_true_iff in Hc. rewrite Hc, (IH Hx).
  reflexivity.
Qed.

Lemma startswith_line (pre : str) :
  forallb not_lf pre = true ->
  forall suf tail,
    line_end tail = true ->
    startswith (suf ++ tail) pre = startswith suf pre.
Proof.
  induction pre as [|p pre IH]; intros Hpre suf tail Ht; [reflexivity|].
  cbn [forallb] in Hpre. apply andb_prop in Hpre. destruct Hpre as [Hp Hpre].
  destruct suf as [|c suf]; cbn [app startswith].
  - destruct tail as [|t tail]; [reflexivity|]. cbn [line_end] in Ht.
    apply N.eqb_eq in Ht. subst t. cbn [startswith].
    unfold not_lf in Hp. apply negb_true_iff in Hp.
    rewrite N.eqb_sym, Hp. reflexivity.
  - rewrite (IH Hpre suf tail Ht). reflexivity.
Qed.

Lemma lazy_until_line (close : str) (x : str) :
  close <> [] -> forallb not_lf close = true -> forallb not_lf x = true ->
  forall acc tail tail',
    line_end tail = true -> line_end tail' = true ->
    lazy_until close acc (x ++ tail) = None ->
    lazy_until close acc (x ++ tail') = None.
Proof.
  intros Hne Hclose. induction x as [|c x IH]; intros Hx acc tail tail' Ht Ht' H.
  - cbn [app]. destruct tail' as [|t tail']; cbn [lazy_until].
    + destruct close; [contradiction | reflexivity].
    + rewrite <- (app_nil_l (t :: tail')).
      rewrite (startswith_line close Hclose [] (t :: tail') Ht').
      destruct close; [contradiction|]. cbn [startswith app].
      cbn [line_end] in Ht'. rewrite Ht'. reflexivity.
  - cbn [forallb] in Hx. apply andb_prop in Hx. destruct Hx as [Hc Hx].
    cbn [app lazy_until] in *.
    change (c :: x ++ tail) with ((c :: x) ++ tail) in H.
    change (c :: x ++ tail') with ((c :: x) ++ tail').
    rewrite (startswith_line close Hclose (c :: x) tail Ht) in H.
    rewrite (startswith_line close Hclose (c :: x) tail' Ht').
    destruct (startswith (c :: x) close); [discriminate H|].
    destruct (N.eqb c LF); [reflexivity|].
    exact (IH Hx _ tail tail' Ht Ht' H).
Qed.

Lemma key_tail_line (x tail tail' : str) :
  forallb not_lf x = true ->
  line_end tail = true -> line_end tail' = true ->
  key_tail (x ++ tail) = None -> key_tail (x ++ tail') = None.
Proof.
  intros Hx Ht Ht' H. unfold key_tail in *.
  rewrite (startswith_line KEY_OPEN eq_refl x tail Ht) in H.
  rewrite (startswith_line KEY_OPEN eq_refl x tail' Ht').
  destruct (startswith x KEY_OPEN) eqn:E; [|reflexivity].
  apply startswith_skipn in E. rewrite E in *.
  set (x2 := skipn (length KEY_OPEN) x) in *.
  assert (Hx2 : forallb not_lf x2 = true).
  { rewrite forallb_app in Hx. apply andb_prop in Hx. tauto. }
  rewrite <- app_assoc in *. rewrite skipn_app in *.
  rewrite Nat.sub_diag, skipn_all in *. cbn [app skipn] in *.
  apply (lazy_until_line KEY_CLOSE x2 ltac:(discriminate) eq_refl Hx2
                         [] tail tail' Ht Ht' H).
Qed.

Lemma first_line (r : str) :
  exists x tail,
    r = x ++ tail /\ forallb not_lf x = true /\ line_end tail = true.
Proof.
  induction r as [|c r (x & tail & E & Hx & Ht)];
    [exists [], []; repeat split|].
  destruct (N.eqb c LF) eqn:Ec.
  - exists [], (c :: r). repeat split. exact Ec.
  - exists (c :: x), tail. rewrite E. cbn [app forallb]. unfold not_lf at 1.
    rewrite Ec, Hx. repeat split. exact Ht.
Qed.

Lemma scan_first_line (r : str) :
  exists x tail tail',
    r = x ++ tail /\ scan_keys false r = x ++ tail'
    /\ forallb not_lf x = true
    /\ line_end tail = true /\ line_end tail' = true.
Proof.
  destruct (first_line r) as (x & tail & -> & Hx & Ht).
  exists x, tail, (scan_keys false tail). rewrite (scan_line x tail Hx).
  repeat split; try assumption.
  destruct tail as [|c tail]; [reflexivity|].
  rewrite scan_step by (left; reflexivity). exact Ht.
Qed.

Lemma scan_starts_text (r : str) :
  starts_text r = true -> starts_text (scan_keys false r) = true.
Proof.
  destruct r as [|c r]; [reflexivity|].
  rewrite scan_step by (left; reflexivity). exact (fun H => H).
Qed.

Lemma match_bad_key_tail (w : char) (ws r : str) :
  forallb isspace (w :: ws) = true -> starts_text r = true ->
  match_bad_key ((w :: ws) ++ r) = None ->
  key_tail r = None /\ match_bad_key (ws ++ r) = None.
Proof.
  intros Hws Hr H. rewrite (match_bad_key_split _ r Hws Hr) in H.
  cbn [is_empty] in H.
  assert (Hk : key_tail r = None)
    by (destruct (key_tail r) as [[inner rest]|]; [discriminate H | reflexivity]).
  split; [exact Hk|]. cbn [forallb] in Hws. apply andb_prop in Hws.
  rewrite (match_bad_key_split ws r (proj2 Hws) Hr), Hk.
  destruct (is_empty ws); reflexivity.
Qed.

(** Where the pattern does not match, the scan copies the whitespace and
    goes on behind it within the line. *)
Lemma scan_unmatched (ws r : str) :
  forallb isspace ws = true -> starts_text r = true ->
  match_bad_key (ws ++ r) = None ->
  forall bol, scan_keys bol (ws ++ r) = ws ++ scan_keys false r.
Proof.
  induction ws as [|w ws IH]; intros Hws Hr H bol.
  - cbn [app] in *. destruct r as [|c r]; [destruct bol; reflexivity|].
    rewrite (scan_step bol) by (right; exact H).
    rewrite (scan_step false) by (left; reflexivity). reflexivity.
  - cbn [app]. rewrite (scan_step bol) by (right; exact H).
    destruct (match_bad_key_tail w ws r Hws Hr H) as [_ Hrest].
    cbn [forallb] in Hws. apply andb_prop in Hws.
    rewrite (IH (proj2 Hws) Hr Hrest). reflexivity.
Qed.

Lemma text_split (s : str) :
  exists ws r,
    s = ws ++ r /\ forallb isspace ws = true /\ starts_text r = true.
Proof.
  destruct (lstrip_by_firstn isspace s) as [E Hws].
  exists (firstn (length s - length (lstrip_by isspace s)) s),
         (lstrip_by isspace s).
  split; [exact E|]. split; [|apply lstrip_by_starts].
  apply forallb_forall. rewrite Forall_forall in Hws. exact Hws.
Qed.

Lemma match_bad_key_scan (s : str) :
  match_bad_key s = None -> match_bad_key (scan_keys true s) = None.
Proof.
  intro H. destruct (text_split s) as (ws & r & -> & Hws & Hr).
  rewrite (scan_unmatched ws r Hws Hr H true).
  rewrite (match_bad_key_split ws _ Hws (scan_starts_text r Hr)).
  destruct ws as [|w ws]; [reflexivity|]. cbn [is_empty].
  destruct (match_bad_key_tail w ws r Hws Hr H) as [Hk _].
  destruct (scan_first_line r) as (x & tail & tail' & E & E' & Hx & Ht & Ht').
  rewrite E'. rewrite E in Hk.
  rewrite (key_tail_line x tail tail' Hx Ht Ht' Hk). reflexivity.
Qed.

Lemma no_bad_key_line (x z : str) :
  forallb not_lf x = true -> no_bad_key false (x ++ z) = no_bad_key false z.
Proof.
  induction x as [|c x IH]; intro H; [reflexivity|].
  cbn [forallb] in H. apply andb_prop in H. destruct H as [Hc Hx].
  cbn [app no_bad_key]. unfold not_lf in Hc. apply negb_true_iff in Hc.
  rewrite Hc. exact (IH Hx).
Qed.

(** A fixed key, and whatever follows it, holds no match. *)
Lemma no_bad_key_fixed (ws q z : str) :
  forallb isspace ws = true -> forallb not_lf q = true ->
  no_bad_key false z = true ->
  forall bol, no_bad_key bol (ws ++ DQUOTE :: q ++ z) = true.
Proof.
  intros Hws Hq Hz.
  assert (Hhead : forall ws', forallb isspace ws' = true ->
            match_bad_key (ws' ++ DQUOTE :: q ++ z) = None).
  { intros ws' H'.
    rewrite (match_bad_key_split ws' (DQUOTE :: q ++ z) H' eq_refl).
    destruct (is_empty ws'); reflexivity. }
  induction ws as [|w ws IH]; intro bol.
  - cbn [app no_bad_key]. pose proof (Hhead [] eq_refl) as H0.
    cbn [app] in H0. rewrite H0.
    change (N.eqb DQUOTE LF) with false.
    rewrite (no_bad_key_line q z Hq), Hz. destruct bol; reflexivity.
  - cbn [app no_bad_key].
    change (w :: ws ++ DQUOTE :: q ++ z) with ((w :: ws) ++ DQUOTE :: q ++ z).
    rewrite (Hhead (w :: ws) Hws). cbn [forallb] in Hws.
    apply andb_prop in Hws. rewrite (IH (proj2 Hws)).
    destruct bol; reflexivity.
Qed.

Lemma fix_key_shape (s indent inner rest : str) :
  bad_key_at s indent inner rest ->
  forallb isspace indent = true
  /\ forallb not_lf inner = true
  /\ exists q, fix_key indent inner = indent ++ DQUOTE :: q
               /\ forallb not_lf q = true.
Proof.
  intros (after_open & _ & _ & Hind & _ & Hlf & _).
  assert (Hinner : forallb not_lf inner = true).
  { apply forallb_forall. intros c Hc. unfold not_lf.
    apply negb_true_iff, N.eqb_neq. intros ->. exact (Hlf Hc). }
  split; [apply forallb_forall; rewrite Forall_forall in Hind; exact Hind|].
  split; [exact Hinner|].
  exists (replace [DQUOTE] [BACKSLASH; DQUOTE]
            (replace [BACKSLASH; BACKTICK] [] inner) ++ [DQUOTE; COLON]).
  split; [reflexivity|]. rewrite forallb_app. apply andb_true_intro.
  split; [|reflexivity].
  apply all_replace; [reflexivity|]. apply all_replace; [reflexivity|].
  exact Hinner.
Qed.

Lemma no_bad_key_scan (n : nat) :
  forall s bol, length s <= n -> no_bad_key bol (scan_keys bol s) = true.
Proof.
  induction n as [|n IH]; intros s bol Hlen.
  - destruct s; [destruct bol; reflexivity | cbn [length] in Hlen; lia].
  - destruct s as [|c s]; [destruct bol; reflexivity|]. cbn [length] in Hlen.
    destruct bol.
    + destruct (match_bad_key (c :: s)) as [[[indent inner] rest]|] eqn:E.
      * pose proof (match_bad_key_shorter _ _ _ _ E) as Hshort.
        cbn [length] in Hshort.
        apply match_bad_key_iff in E. rewrite (scan_keys_match _ _ _ _ E).
        destruct (fix_key_shape _ _ _ _ E) as (Hind & _ & q & -> & Hq).
        rewrite <- app_assoc. cbn [app].
        apply no_bad_key_fixed; [exact Hind | exact Hq|].
        apply IH. lia.
      * pose proof (match_bad_key_scan _ E) as Hnone.
        rewrite scan_step in * by (right; exact E).
        cbn [no_bad_key]. rewrite Hnone. apply IH. lia.
    + rewrite scan_step by (left; reflexivity). cbn [no_bad_key].
      apply IH. lia.
Qed.

Lemma scan_no_bad_key (t : str) :
  forall bol, no_bad_key bol t = true -> scan_keys bol t = t.
Proof.
  induction t as [|c t IH]; intros bol H; [destruct bol; reflexivity|].
  cbn [no_bad_key] in H. apply andb_prop in H. destruct H as [Hc Ht].
  rewrite scan_step, (IH _ Ht); [reflexivity|].
  destruct bol; [right | left; reflexivity].
  destruct (match_bad_key (c :: t)); [discriminate Hc | reflexivity].
Qed.

Lemma count_lf_none (x : str) :
  forallb not_lf x = true -> count_occ N.eq_dec x LF = 0.
Proof.
  intro H. apply count_occ_not_In. intro Hin.
  rewrite forallb_forall in H. specialize (H LF Hin). discriminate H.
Qed.

Lemma scan_count_lf (n : nat) :
  forall s bol, length s <= n ->
    count_occ N.eq_dec (scan_keys bol s) LF = count_occ N.eq_dec s LF.
Proof.
  induction n as [|n IH]; intros s bol Hlen.
  - destruct s; [destruct bol; reflexivity | cbn [length] in Hlen; lia].
  - destruct s as [|c s]; [destruct bol; reflexivity|]. cbn [length] in Hlen.
    assert (Hstep : scan_keys bol (c :: s) = c :: scan_keys (N.eqb c LF) s ->
                    count_occ N.eq_dec (scan_keys bol (c :: s)) LF
                    = count_occ N.eq_dec (c :: s) LF).
    { intros ->. cbn [count_occ]. rewrite IH by lia. reflexivity. }
    destruct bol; [|apply Hstep, scan_step; left; reflexivity].
    destruct (match_bad_key (c :: s)) as [[[indent inner] rest]|] eqn:E;
      [|apply Hstep, scan_step; right; exact E].
    pose proof (match_bad_key_shorter _ _ _ _ E) as Hshort.
    cbn [length] in Hshort. apply match_bad_key_iff in E.
    rewrite (scan_keys_match _ _ _ _ E).
    destruct (fix_key_shape _ _ _ _ E) as (_ & Hinner & q & -> & Hq).
    destruct E as (after_open & -> & _ & _ & -> & _).
    rewrite !count_occ_app. cbn [count_occ].
    rewrite (count_lf_none q Hq), (count_lf_none inner Hinner).
    rewrite IH by lia.
    destruct (N.eq_dec DQUOTE LF) as [Hd|_]; [discriminate Hd|].
    change (count_occ N.eq_dec KEY_OPEN LF) with 0.
    change (count_occ N.eq_dec KEY_CLOSE LF) with 0. lia.
Qed.

Lemma fix_keys_clean (text : str) :
  no_bad_key true (fix_keys_text text) = true.
Proof. apply (no_bad_key_scan (length text)), Nat.le_refl. Qed.

Lemma fix_file_clean (t : str) :
  no_bad_key true t = true -> fix_keys_text t = t /\ fix_file t = None.
Proof.
  intro Ht. assert (E : fix_keys_text t = t)
    by (apply (scan_no_bad_key t true Ht)).
  split; [exact E|]. unfold fix_file. rewrite E.
  rewrite (proj2 (str_eqb_eq t t) eq_refl).
  destruct (contains KEY_OPEN t); reflexivity.
Qed.

(** Written or not, the file holds the fixed text afterwards. *)
Lemma fix_file_text (text : str) :
  match fix_file text with
  | Some new_text => new_text = fix_keys_text text /\ new_text <> text
  | None => fix_keys_text text = text
  end.
Proof.
  unfold fix_file. destruct (contains KEY_OPEN text) eqn:Ec; cbn [negb].
  - destruct (str_eqb (fix_keys_text text) text) eqn:E; cbn [negb].
    + apply str_eqb_eq, E.
    + split; [reflexivity|]. intro H. apply str_eqb_eq in H. congruence.
  - apply (sub_bad_keys_no_marker text Ec).
Qed.

(** X10.  After the key fixer has run over a text, [BAD_KEY] matches nowhere
    in it, so a second run changes nothing and writes nothing; and a text in
    which the pattern matches nowhere is left as it is. *)
Theorem fix_keys_settles (text : str) :
  no_bad_key true (fix_keys_text text) = true
  /\ fix_keys_text (fix_keys_text text) = fix_keys_text text
  /\ fix_file (fix_keys_text text) = None
  /\ (forall new_text, fix_file text = Some new_text ->
        fix_file new_text = None)
  /\ (no_bad_key true text = true ->
      fix_keys_text text = text /\ fix_file text = None).
Proof.
  pose proof (fix_keys_clean text) as Hclean.
  split; [exact Hclean|].
  split; [exact (proj1 (fix_file_clean _ Hclean))|].
  split; [exact (proj2 (fix_file_clean _ Hclean))|].
  split; [|exact (fix_file_clean text)].
  intros new_text H. pose proof (fix_file_text text) as Ht.
  rewrite H in Ht. destruct Ht as [-> _].
  exact (proj2 (fix_file_clean _ Hclean)).
Qed.

(** X11.  The key fixer keeps the lines of a text: the text it gives has as
    many newlines as the text it read. *)
Theorem fix_keys_keeps_lines (text : str) :
  count_occ N.eq_dec (fix_keys_text text) LF = count_occ N.eq_dec text LF.
Proof. apply (scan_count_lf (length text)), Nat.le_refl. Qed.

(** ** The loops over the files *)

Lemma str_eqb_refl (s : str) : str_eqb s s = true.
Proof. apply str_eqb_eq. reflexivity. Qed.

Lemma str_eqb_neq (a b : str) : a <> b -> str_eqb a b = false.
Proof.
  intro H. destruct (str_eqb a b) eqn:E; [|reflexivity].
  apply str_eqb_eq in E. contradiction.
Qed.

Lemma main_loop_run (files : list (list str * str)) :
  forall n,
    main_loop files n
    = (map (fun f => (fst f, if in_blog (fst f) then snd f
                             else converted (snd f))) files,
       n + changed files
             (map (fun f => (fst f, if in_blog (fst f) then snd f
                                    else converted (snd f))) files)).
Proof.
  unfold changed.
  induction files as [|[parts content] files IH]; intro n;
    [cbn; f_equal; lia|].
  cbn [main_loop map fst snd combine filter]. unfold converted at 1 3.
  destruct (in_blog parts).
  - rewrite (IH n), str_eqb_refl. reflexivity.
  - destruct (convert_file content) as [content'|] eqn:E.
    + rewrite (IH (S n)).
      rewrite (str_eqb_neq content content')
        by (intro H; symmetry in H; exact (convert_file_differs _ _ E H)).
      cbn [negb length]. f_equal. lia.
    + rewrite (IH n), str_eqb_refl. reflexivity.
Qed.

Lemma converted_again (content : str) :
  convert_file (converted content) = None.
Proof.
  unfold converted. destruct (convert_file content) as [content'|] eqn:E;
    [exact (convert_file_again content content' E) | exact E].
Qed.

Lemma main_loop_again (files : list (list str * str)) :
  forall n,
    main_loop
      (map (fun f => (fst f, if in_blog (fst f) then snd f
                             else converted (snd f))) files) n
    = (map (fun f => (fst f, if in_blog (fst f) then snd f
                             else converted (snd f))) files, n).
Proof.
  induction files as [|[parts content] files IH]; intro n; [reflexivity|].
  cbn [map main_loop fst snd]. destruct (in_blog parts) eqn:Eb.
  - rewrite IH. reflexivity.
  - rewrite converted_again, IH. reflexivity.
Qed.

(** X12.  One run of [main] over the files: a file with a part [blog] keeps
    its text and any other file gets the text the rewriter gives it; the
    paths stay as they are; the count printed is the number of files whose
    text is no longer the same; and a second run over the files as they are
    left changes none of them and counts zero. *)
Theorem main_run (files : list (list str * str)) :
  fst (main files)
  = map (fun f => (fst f, if in_blog (fst f) then snd f
                          else converted (snd f))) files
  /\ map fst (fst (main files)) = map fst files
  /\ snd (main files) = changed files (fst (main files))
  /\ main (fst (main files)) = (fst (main files), 0).
Proof.
  unfold main. rewrite (main_loop_run files 0). cbn [fst snd].
  split; [reflexivity|]. split; [|split].
  - rewrite map_map. cbn [fst]. reflexivity.
  - reflexivity.
  - apply main_loop_again.
Qed.

Lemma fix_loop_run (files : list (list str * str)) :
  forall n,
    fix_loop files n
    = (map (fun f => (fst f, fix_keys_text (snd f))) files,
       n + changed files
             (map (fun f => (fst f, fix_keys_text (snd f))) files)).
Proof.
  unfold changed.
  induction files as [|[parts text] files IH]; intro n;
    [cbn; f_equal; lia|].
  cbn [fix_loop map fst snd combine filter].
  pose proof (fix_file_text text) as Ht.
  destruct (fix_file text) as [new_text|].
  - destruct Ht as [-> Hne]. rewrite (IH (S n)).
    rewrite (str_eqb_neq text (fix_keys_text text))
      by (intro H; symmetry in H; exact (Hne H)).
    cbn [negb length]. f_equal. lia.
  - rewrite (IH n), Ht, str_eqb_refl. reflexivity.
Qed.

Lemma fix_loop_again (files : list (list str * str)) :
  forall n,
    fix_loop (map (fun f => (fst f, fix_keys_text (snd f))) files) n
    = (map (fun f => (fst f, fix_keys_text (snd f))) files, n).
Proof.
  induction files as [|[parts text] files IH]; intro n; [reflexivity|].
  cbn [map fix_loop fst snd].
  rewrite (proj2 (fix_file_clean _ (fix_keys_clean text))), IH.
  reflexivity.
Qed.

(** X13.  One run of the loop of fix-keys.py over the files: every file,
    written or not, holds the fixed text afterwards, in which [BAD_KEY]
    matches nowhere; the count printed is the number of files whose text is
    no longer the same; and a second run changes none of them and counts
    zero. *)
Theorem fix_all_run (files : list (list str * str)) :
  fst (fix_all files)
  = map (fun f => (fst f, fix_keys_text (snd f))) files
  /\ Forall (fun f => no_bad_key true (snd f) = true) (fst (fix_all files))
  /\ snd (fix_all files) = changed files (fst (fix_all files))
  /\ fix_all (fst (fix_all files)) = (fst (fix_all files), 0).
Proof.
  unfold fix_all. rewrite (fix_loop_run files 0). cbn [fst snd].
  split; [reflexivity|]. split; [|split].
  - apply Forall_forall. intros f Hf. apply in_map_iff in Hf.
    destruct Hf as (f0 & <- & _). apply fix_keys_clean.
  - reflexivity.
  - apply fix_loop_again.
Qed.
